(** * 3dmre_stats: path resolution, digest parsing, dataset matching and
      ROI statistics

    A shallow embedding of the core of [os_utils.py],
    [dicom_and_file_utils.py] and [mmdi3d_utils.py], with the properties
    of the specification stated and proved over it.

    Conventions.
    - A Python [str] is a [list ascii] (one element per code point below
      256); a literal is written [lit "..."], the empty string [[]].
    - A Python [int] is a [Z]; a Python [float] that holds a pixel or a
      tag value is an exact rational [Q], and NaN is [None].
    - The interpreter runs on a POSIX system ([os.name != 'nt']), so
      [os.path] is [posixpath].
    - What the code obtains from the outside world (the file system,
      pydicom, pathlib's conversion of a Windows path) is a parameter. *)

From Stdlib Require Import Ascii String DecimalString.
From Stdlib Require Import List ZArith QArith Qround Bool Arith Lia.
Import ListNotations.
Local Open Scope list_scope.
Local Open Scope nat_scope.

(* ================================================================== *)
(** * Python strings *)
(* ================================================================== *)

Module PyStr.

Definition str := list ascii.

Definition lit (x : string) : str := list_ascii_of_string x.

Definition sep : ascii := "/"%char.
Definition backslash : ascii := ascii_of_nat 92.

Definition is_sep (c : ascii) : bool := Ascii.eqb c sep.

(** [a == b] *)
Fixpoint str_eqb (a b : str) : bool :=
  match a, b with
  | [], [] => true
  | c :: a', d :: b' => Ascii.eqb c d && str_eqb a' b'
  | _, _ => false
  end.

(** [not s]: the empty string is falsy. *)
Definition is_empty (s : str) : bool :=
  match s with [] => true | _ :: _ => false end.

(** [s.startswith(pre)] *)
Fixpoint startswith (s pre : str) {struct pre} : bool :=
  match pre, s with
  | [], _ => true
  | c :: pre', d :: s' => Ascii.eqb c d && startswith s' pre'
  | _ :: _, [] => false
  end.

(** [s.endswith(suf)] *)
Definition endswith (s suf : str) : bool := startswith (rev s) (rev suf).

(** [sub in s] *)
Fixpoint contains (s sub : str) {struct s} : bool :=
  startswith s sub ||
  match s with
  | [] => false
  | _ :: s' => contains s' sub
  end.

(** [c in s] for a one-character [c] *)
Definition has_char (c : ascii) (s : str) : bool :=
  existsb (Ascii.eqb c) s.

(** [s.lower()] on code points below 256 *)
Definition lower_char (c : ascii) : ascii :=
  let n := nat_of_ascii c in
  if ((65 <=? n) && (n <=? 90)) ||
     ((192 <=? n) && (n <=? 222) && negb (n =? 215))
  then ascii_of_nat (n + 32) else c.

Definition lower (s : str) : str := map lower_char s.

(** The characters [str.strip()] removes (code points below 256). *)
Definition is_space (c : ascii) : bool :=
  let n := nat_of_ascii c in
  ((9 <=? n) && (n <=? 13)) || ((28 <=? n) && (n <=? 32)) ||
  (n =? 133) || (n =? 160).

Fixpoint lstrip (s : str) : str :=
  match s with
  | [] => []
  | c :: s' => if is_space c then lstrip s' else s
  end.

Definition rstrip (s : str) : str := rev (lstrip (rev s)).

(** [s.strip()] *)
Definition strip (s : str) : str := rstrip (lstrip s).

(** [s.split(c)] for a one-character separator: never the empty list. *)
Fixpoint split_char (c : ascii) (s : str) : list str :=
  match s with
  | [] => [[]]
  | d :: s' =>
      if Ascii.eqb d c then [] :: split_char c s'
      else match split_char c s' with
           | [] => [[d]]
           | w :: ws => (d :: w) :: ws
           end
  end.

(** [s.split(c, maxsplit=1)]: the text before the first [c], and the text
    after it when there is one (a list of one or two strings). *)
Fixpoint split_once (c : ascii) (s : str) : str * option str :=
  match s with
  | [] => ([], None)
  | d :: s' =>
      if Ascii.eqb d c then ([], Some s')
      else let '(a, b) := split_once c s' in (d :: a, b)
  end.

(** [c.join(parts)] for a one-character [c] *)
Fixpoint join_char (c : ascii) (parts : list str) : str :=
  match parts with
  | [] => []
  | [w] => w
  | w :: ws => w ++ c :: join_char c ws
  end.

(** [s.split(pat)[-1]] for a non-empty [pat]: the text after the last
    match of a left-to-right scan without overlaps. *)
Fixpoint split_last_fuel (fuel : nat) (pat s : str) : str :=
  match fuel with
  | O => s
  | S f =>
      let fix scan (t : str) : option str :=
        match t with
        | [] => None
        | _ :: t' => if startswith t pat then Some (skipn (length pat) t)
                     else scan t'
        end in
      match scan s with
      | None => s
      | Some rest => split_last_fuel f pat rest
      end
  end.

Definition split_last (pat s : str) : str :=
  split_last_fuel (S (length s)) pat s.

(** [s.rfind('/') + 1]: one past the last separator, 0 when there is none. *)
Fixpoint rfind1 (s : str) : nat :=
  match s with
  | [] => 0
  | c :: s' =>
      match rfind1 s' with
      | O => if is_sep c then 1 else 0
      | S k => S (S k)
      end
  end.

(** [s.rstrip('/')] *)
Fixpoint rstrip_sep (s : str) : str :=
  match s with
  | [] => []
  | c :: s' =>
      match rstrip_sep s' with
      | [] => if is_sep c then [] else [c]
      | r => c :: r
      end
  end.

End PyStr.

Import PyStr.

(* ================================================================== *)
(** * [os.path] on POSIX (posixpath) *)
(* ================================================================== *)

Module PosixPath.

Definition dot : str := lit ".".
Definition dotdot : str := lit "..".

(** The head of [split]: [p[:i]], stripped of trailing separators unless
    it consists of separators only. *)
Definition head_of (p : str) : str :=
  let head := firstn (rfind1 p) p in
  if negb (is_empty head) && negb (forallb is_sep head)
  then rstrip_sep head else head.

(** [os.path.split(p)] *)
Definition split (p : str) : str * str :=
  (head_of p, skipn (rfind1 p) p).

(** [os.path.dirname(p)] *)
Definition dirname (p : str) : str := head_of p.

(** [os.path.basename(p)] *)
Definition basename (p : str) : str := skipn (rfind1 p) p.

(** [os.path.join(a, b)] *)
Definition join (a b : str) : str :=
  if startswith b [sep] then b
  else if is_empty a || endswith a [sep] then a ++ b
  else a ++ sep :: b.

(** [not l] for a list *)
Definition no_items {A} (l : list A) : bool :=
  match l with [] => true | _ :: _ => false end.

(** One turn of the loop of [normpath] over the components: [pop] on the
    empty list is guarded by [elif new_comps] in the source, and
    [removelast []] is [[]]. *)
Definition norm_step (initial_slashes : nat) (new_comps : list str)
    (comp : str) : list str :=
  if is_empty comp || str_eqb comp dot then new_comps
  else if negb (str_eqb comp dotdot)
          || ((initial_slashes =? 0) && no_items new_comps)
          || (negb (no_items new_comps)
              && str_eqb (last new_comps []) dotdot)
  then new_comps ++ [comp]
  else removelast new_comps.

(** [os.path.normpath(path)] *)
Definition normpath (path : str) : str :=
  if is_empty path then dot
  else
    let initial_slashes :=
      if startswith path [sep] then
        if startswith path [sep; sep] && negb (startswith path [sep; sep; sep])
        then 2 else 1
      else 0 in
    let comps := split_char sep path in
    let new_comps := fold_left (norm_step initial_slashes) comps [] in
    let path := join_char sep new_comps in
    let path := repeat sep initial_slashes ++ path in
    if is_empty path then dot else path.

End PosixPath.

Import PosixPath.

(* ================================================================== *)
(** * os_utils.py: the path resolver *)
(* ================================================================== *)

Module OsUtils.

(** [range(lo, hi)] *)
Definition py_range (lo hi : Z) : list Z :=
  map (fun k => (lo + Z.of_nat k)%Z) (seq 0 (Z.to_nat (hi - lo))).

Section PathResolver.

(** [Path(PureWindowsPath(path))], as text: pathlib's conversion of a
    path that holds a backslash. Its result depends on the version of
    the interpreter, so it is left open. *)
Variable windows_to_posix : str -> str.

(** [os.path.exists] *)
Variable path_exists : str -> bool.

(** [os_clean_path(path)] *)
Definition os_clean_path (path : str) : str :=
  let path := if has_char backslash path then windows_to_posix path
              else path in
  let path := normpath path in
  if startswith path [sep; sep] then skipn 1 path else path.

(** The loop of [num_path_elems]:
    [while path != dirname(path): count = count + 1; path = dirname(path)].
    [None] when the fuel runs out before the loop ends. *)
Fixpoint num_path_elems_loop (fuel : nat) (path : str) (count : Z)
  : option Z :=
  match fuel with
  | O => None
  | S fuel' =>
      if negb (str_eqb path (dirname path))
      then num_path_elems_loop fuel' (dirname path) (count + 1)%Z
      else Some count
  end.

(** [num_path_elems(path, clean_path_first)]: the loop is run with more
    fuel than it can use (one more than the length of the path). *)
Definition num_path_elems_from (clean_path_first : bool) (path : str) : Z :=
  let path := if clean_path_first then os_clean_path path else path in
  match num_path_elems_loop (S (length path)) path 0%Z with
  | Some count => count
  | None => 0%Z
  end.

(** [num_path_elems(path)] *)
Definition num_path_elems (path : str) : Z := num_path_elems_from true path.

(** The body of the loop of [path_split], run [k] times. *)
Fixpoint path_split_loop (k : nat) (head tail : str) : str * str :=
  match k with
  | O => (head, tail)
  | S k' =>
      let '(head, dpath) := split head in
      let tail := join dpath tail in
      path_split_loop k' head tail
  end.

(** [path_split(path, n_elem, clean_path_first)] *)
Definition path_split_from (clean_path_first : bool) (path : str)
    (n_elem : Z) : str * str :=
  let path := if clean_path_first then os_clean_path path else path in
  if (n_elem <? 1)%Z then (path, [])
  else
    let '(head, tail) := split path in
    path_split_loop (length (py_range 1 n_elem)) head tail.

(** [path_split(path, n_elem)] *)
Definition path_split (path : str) (n_elem : Z) : str * str :=
  path_split_from true path n_elem.

(** The inner loop of [find_existing_composite_path], over the values of
    [i] still to run; [Some] is the early [return]. *)
Fixpoint search_heads (path_1 tail_2 : str) (i_todo : list Z) : option str :=
  match i_todo with
  | [] => None
  | i :: i_todo' =>
      let '(head_1, tail_1) := path_split path_1 i in
      let candidate_path := join head_1 tail_2 in
      if path_exists candidate_path then Some candidate_path
      else search_heads path_1 tail_2 i_todo'
  end.

(** The outer loop, over the values of [j] still to run. *)
Fixpoint search_tails (path_1 path_2 : str) (j_todo : list Z) : option str :=
  match j_todo with
  | [] => None
  | j :: j_todo' =>
      let '(head_2, tail_2) := path_split path_2 j in
      match search_heads path_1 tail_2
              (py_range 1 (num_path_elems path_1 + 1)) with
      | Some candidate_path => Some candidate_path
      | None => search_tails path_1 path_2 j_todo'
      end
  end.

(** The search of [find_existing_composite_path], after the two paths
    are cleaned. *)
Definition composite_search (path_1 path_2 : str) : option str :=
  search_tails path_1 path_2 (py_range 1 (num_path_elems path_2 + 1)).

(** [find_existing_composite_path(path_1, path_2)]: the text ['None']
    when no candidate exists. *)
Definition find_existing_composite_path (path_1 path_2 : str) : str :=
  let path_1 := os_clean_path path_1 in
  let path_2 := os_clean_path path_2 in
  match composite_search path_1 path_2 with
  | Some candidate_path => candidate_path
  | None => lit "None"
  end.

End PathResolver.

(** pathlib's conversion from Python 3.12 on: the backslashes become
    separators. It instantiates the parameter in the examples, none of
    which holds a backslash. *)
Definition backslash_to_sep (path : str) : str :=
  map (fun c => if Ascii.eqb c backslash then sep else c) path.

End OsUtils.

Import OsUtils.

(* ================================================================== *)
(** * Python dictionaries, exceptions and the outside world *)
(* ================================================================== *)

Module PyDict.

Section Dict.

Context {V : Type}.

(** A [dict] with [str] keys: the items in insertion order, each key
    once. *)
Definition dict : Type := list (str * V).

(** [d.get(k)] *)
Fixpoint dict_get (d : dict) (k : str) : option V :=
  match d with
  | [] => None
  | (k', v) :: d' => if str_eqb k' k then Some v else dict_get d' k
  end.

(** [d[k] = v]: a present key keeps its place. *)
Fixpoint dict_set (d : dict) (k : str) (v : V) : dict :=
  match d with
  | [] => [(k, v)]
  | (k', v') :: d' =>
      if str_eqb k' k then (k', v) :: d' else (k', v') :: dict_set d' k v
  end.

(** [d.keys()] *)
Definition dict_keys (d : dict) : list str := map fst d.

End Dict.

Arguments dict V : clear implicits.

End PyDict.

Import PyDict.

Module Py.

(** The exceptions the modelled code can raise. *)
Inductive exn : Type :=
| UnboundLocalError
| AttributeError
| InvalidDicomError
| OSError
| ValueError
| IndexError
| StopIteration.

(** How a call ends. *)
Inductive outcome (A : Type) : Type :=
| Returned (a : A)
| Raised (e : exn).

Arguments Returned {A} a.
Arguments Raised {A} e.

Definition bind {A B} (m : outcome A) (f : A -> outcome B) : outcome B :=
  match m with
  | Returned a => f a
  | Raised e => Raised e
  end.

(** What pydicom reads from a file: the tags the code looks at, and the
    pixel array by rows. *)
Record dicom : Type := {
  SeriesDescription : option str;
  Manufacturer : option str;
  SequenceName : option str;
  SeriesNumber : option Z;
  SliceLocation : option Q;
  pixel_array : option (list (list Q))
}.

(** The outside world. *)
Record world : Type := {
  (** [Path(PureWindowsPath(path))] as text *)
  w_conv : str -> str;
  (** [os.path.exists], [os.path.isfile], [os.path.isdir] *)
  w_exists : str -> bool;
  w_isfile : str -> bool;
  w_isdir : str -> bool;
  (** [next(os.walk(dir))[1]] and [next(os.walk(dir))[2]] *)
  w_folders : str -> list str;
  w_files : str -> list str;
  (** [open(path).read()], [None] when it raises *)
  w_text : str -> option str;
  (** [pydicom.read_file(path)], [None] when it raises *)
  w_dicom : str -> option dicom;
  (** what the memory of a fresh array of [n] floats holds ([numpy.empty]),
      NaN being [None] *)
  w_empty : nat -> list (option Q)
}.

(** [dir_folder_list(dir)] (the names only) *)
Definition dir_folder_list (w : world) (dir : str) : list str :=
  w_folders w dir.

(** [dir_file_list(dir, include_dir)] *)
Definition dir_file_list (w : world) (dir : str) (include_dir : bool)
  : list str :=
  if include_dir then map (join dir) (w_files w dir) else w_files w dir.

End Py.

Import Py.

Notation "x <- m ;; k" := (bind m (fun x => k))
  (at level 61, m at next level, right associativity).

(* ================================================================== *)
(** * dicom_and_file_utils.py: the digest parser *)
(* ================================================================== *)

Module Digest.

(** What [parse_digest] puts in [comments]. The code adds
    [mystr[1].strip], the method bound to the text after the [%] and not
    the text the method returns; [StripMethod] is that object, [Text]
    a string. *)
Inductive comment : Type :=
| Text (s : str)
| StripMethod (receiver : str).

(** Calling what is stored: [c()] for a bound [strip]. *)
Definition call_comment (c : comment) : str :=
  match c with
  | Text s => s
  | StripMethod receiver => strip receiver
  end.

(** The line boundaries of [str.splitlines], below code point 256. *)
Definition is_linebreak (c : ascii) : bool :=
  let n := nat_of_ascii c in
  ((10 <=? n) && (n <=? 13)) || ((28 <=? n) && (n <=? 30)) || (n =? 133).

(** [text.splitlines()], with [cur] the line being read. *)
Fixpoint splitlines_from (cur : str) (text : str) : list str :=
  match text with
  | [] => if is_empty cur then [] else [cur]
  | c :: text' =>
      if is_linebreak c then
        cur ::
        match text' with
        | d :: text'' =>
            if (nat_of_ascii c =? 13) && (nat_of_ascii d =? 10)
            then splitlines_from [] text''
            else splitlines_from [] text'
        | [] => splitlines_from [] text'
        end
      else splitlines_from (cur ++ [c]) text'
  end.

Definition splitlines (text : str) : list str := splitlines_from [] text.

(** The body of the loop of [parse_digest] for one line. The elements of
    the set [comments] are kept in the order they are added. *)
Definition parse_line (st : dict str * list comment) (line : str)
  : dict str * list comment :=
  let '(content, comments) := st in
  let mystr := split_once "%"%char line in
  let comments :=
    match snd mystr with
    | Some after => comments ++ [StripMethod after]
    | None => comments
    end in
  let mystr2 := split_once "="%char (fst mystr) in
  match snd mystr2 with
  | Some after =>
      let key := strip (fst mystr2) in
      let val := strip after in
      (dict_set content key val, comments)
  | None => (content, comments)
  end.

(** [parse_digest] on the text read from the file. *)
Definition parse_text (text : str) : dict str * list comment :=
  let lines := splitlines text in
  let lines := filter (fun x => negb (is_empty x)) lines in
  let lines := filter (fun x => negb (str_eqb x (lit " "))) lines in
  fold_left parse_line lines ([], []).

(** [parse_digest(digest_path)] *)
Definition parse_digest (w : world) (digest_path : str)
  : outcome (dict str * list comment) :=
  match w_text w digest_path with
  | Some text => Returned (parse_text text)
  | None => Raised OSError
  end.

End Digest.

Import Digest.

(* ================================================================== *)
(** * mmdi3d_utils.py: the dataset matcher *)
(* ================================================================== *)

Module Matcher.

(** An item of [data3d['data']]: a dictionary with some of the keys
    ['mag'], ['mag_series'], ['phase'], ['phase_series']. *)
Record entry : Type := {
  mag : option str;
  mag_series : option Z;
  phase : option str;
  phase_series : option Z
}.

Definition no_entry : entry :=
  {| mag := None; mag_series := None; phase := None; phase_series := None |}.

Record data3d : Type := {
  top_dir : str;
  manufacturer : str;
  data : list entry
}.

(** [l[i] = x] *)
Fixpoint set_nth {A} (i : nat) (x : A) (l : list A) : list A :=
  match l, i with
  | [], _ => []
  | _ :: l', O => x :: l'
  | y :: l', S i' => y :: set_nth i' x l'
  end.

(** The count of valid DICOM files of a folder and the file opened for
    the tags; [None] is the [continue] of the rapid method. The slow
    method leaves in [dcm] the last file that parsed; a [dcm] left by an
    earlier folder is never read, since [dcm_count==0] is tested first. *)
Definition probe_folder (w : world) (rapid : bool) (file_list : list str)
  : option (Z * option dicom) :=
  if rapid then
    match file_list with
    | [] => None
    | file_0 :: _ =>
        match w_dicom w file_0 with
        | None => None
        | Some dcm => Some (Z.of_nat (length file_list), Some dcm)
        end
    end
  else
    Some (fold_left
            (fun '(dcm_count, dcm) file_path =>
               match w_dicom w file_path with
               | None => (dcm_count, dcm)
               | Some dcm' => ((dcm_count + 1)%Z, Some dcm')
               end)
            file_list (0%Z, None)).

(** ['3d-mmdi' in dcm.get('SequenceName','')] *)
Definition is_mmdi_output (dcm : dicom) : bool :=
  contains (match SequenceName dcm with Some s => s | None => [] end)
           (lit "3d-mmdi").

(** The test of "Skipping invalid folder". *)
Definition skip_folder (dcm_count : Z) (dcm : dicom) : bool :=
  (dcm_count =? 0)%Z
  || match SeriesDescription dcm with Some _ => false | None => true end
  || match Manufacturer dcm with Some _ => false | None => true end
  || is_mmdi_output dcm.

(** "Getting Manufacturer": the value kept in [data3d['Manufacturer']]. *)
Definition classify (previous : str) (tag : str) : str :=
  if contains (lower tag) (lit "siemens") then lit "Siemens"
  else if contains (lower tag) (lit "philips") then lit "Philips"
  else if contains (lower tag) (lit "ge") then lit "GE"
  else previous.

Definition ge_valid_like (manu desc : str) (dcm_count : Z) : bool :=
  str_eqb manu (lit "GE") && contains desc (lit "MRE")
  && (dcm_count >? 800)%Z.

Definition siemens_valid_like (manu desc : str) : bool :=
  str_eqb manu (lit "Siemens") && contains desc (lit "928")
  && contains desc (lit "3D").

Definition philips_valid_like (manu : str) (dcm_count : Z) : bool :=
  str_eqb manu (lit "Philips") && (dcm_count >? 280)%Z.

(** [dcm.SeriesNumber] *)
Definition series_number (dcm : dicom) : outcome Z :=
  match SeriesNumber dcm with
  | Some n => Returned n
  | None => Raised AttributeError
  end.

(** "Checking if phase data already added": the loop over [i], with the
    values of [i] still to run and the value [i] was left with. *)
Fixpoint mag_loop (folder : str) (dcm : dicom) (entries : list entry)
    (i_todo : list nat) (i_last : option nat)
  : outcome (list entry * option nat) :=
  match i_todo with
  | [] => Returned (entries, i_last)
  | i :: i_todo' =>
      let e := nth i entries no_entry in
      match phase_series e with
      | Some ps =>
          n <- series_number dcm ;;
          if (ps =? n + 1)%Z then
            Returned
              (set_nth i {| mag := Some folder; mag_series := Some n;
                            phase := phase e;
                            phase_series := phase_series e |} entries,
               Some i)
          else mag_loop folder dcm entries i_todo' (Some i)
      | None => mag_loop folder dcm entries i_todo' (Some i)
      end
  end.

(** "Checking if mag data already added" *)
Fixpoint phase_loop (folder : str) (dcm : dicom) (entries : list entry)
    (i_todo : list nat) (i_last : option nat)
  : outcome (list entry * option nat) :=
  match i_todo with
  | [] => Returned (entries, i_last)
  | i :: i_todo' =>
      let e := nth i entries no_entry in
      match mag_series e with
      | Some ms =>
          n <- series_number dcm ;;
          if (ms =? n - 1)%Z then
            Returned
              (set_nth i {| mag := mag e; mag_series := mag_series e;
                            phase := Some folder;
                            phase_series := Some n |} entries,
               Some i)
          else phase_loop folder dcm entries i_todo' (Some i)
      | None => phase_loop folder dcm entries i_todo' (Some i)
      end
  end.

Definition has {A} (o : option A) : bool :=
  match o with Some _ => true | None => false end.

(** The test of "Creating new entry": [len(data)==0], or [i] is the last
    index and the entry there lacks the key. *)
Definition starts_new_entry (entries : list entry) (i_last : option nat)
    (has_key : entry -> bool) : bool :=
  (length entries =? 0)
  || match i_last with
     | Some i => (i =? length entries - 1)
                 && negb (has_key (nth i entries no_entry))
     | None => false
     end.

(** The Siemens branch for a magnitude folder. *)
Definition siemens_mag (folder : str) (dcm : dicom) (entries : list entry)
  : outcome (list entry) :=
  r <- mag_loop folder dcm entries (seq 0 (length entries)) None ;;
  let '(entries, i_last) := r in
  if starts_new_entry entries i_last (fun e => has (mag e)) then
    n <- series_number dcm ;;
    Returned (entries ++ [{| mag := Some folder; mag_series := Some n;
                             phase := None; phase_series := None |}])
  else Returned entries.

(** The Siemens branch for a phase folder. *)
Definition siemens_phase (folder : str) (dcm : dicom) (entries : list entry)
  : outcome (list entry) :=
  r <- phase_loop folder dcm entries (seq 0 (length entries)) None ;;
  let '(entries, i_last) := r in
  if starts_new_entry entries i_last (fun e => has (phase e)) then
    n <- series_number dcm ;;
    Returned (entries ++ [{| mag := None; mag_series := None;
                             phase := Some folder;
                             phase_series := Some n |}])
  else Returned entries.

(** "Adding metadata to data3d", for a folder that is not skipped. *)
Definition add_folder (folder : str) (dcm : dicom) (dcm_count : Z)
    (manu desc : str) (entries : list entry) : outcome (list entry) :=
  if ge_valid_like manu desc dcm_count || philips_valid_like manu dcm_count
  then
    n <- series_number dcm ;;
    Returned (entries ++ [{| mag := Some folder; mag_series := Some n;
                             phase := None; phase_series := None |}])
  else if siemens_valid_like manu desc then
    if endswith (lower desc) (lit "mag") then siemens_mag folder dcm entries
    else if endswith (lower desc) (lit "p_p")
    then siemens_phase folder dcm entries
    else Returned entries
  else Returned entries.

(** The body of the loop of [find_mmdi3d_datasets] for one folder. The
    messages it logs are left out: they do not change [data3d]. *)
Definition scan_folder (w : world) (rapid : bool) (st : data3d)
    (folder : str) : outcome data3d :=
  let file_list := dir_file_list w (join (top_dir st) folder) true in
  match probe_folder w rapid file_list with
  | None => Returned st
  | Some (dcm_count, None) => Returned st
  | Some (dcm_count, Some dcm) =>
      if skip_folder dcm_count dcm then Returned st
      else
        match SeriesDescription dcm, Manufacturer dcm with
        | Some desc, Some tag =>
            let manu := classify (manufacturer st) tag in
            entries <- add_folder folder dcm dcm_count manu desc (data st) ;;
            Returned {| top_dir := top_dir st; manufacturer := manu;
                        data := entries |}
        | _, _ => Returned st
        end
  end.

Fixpoint scan_folders (w : world) (rapid : bool) (st : data3d)
    (folders : list str) : outcome data3d :=
  match folders with
  | [] => Returned st
  | folder :: folders' =>
      st' <- scan_folder w rapid st folder ;;
      scan_folders w rapid st' folders'
  end.

(** [find_mmdi3d_datasets(top_dir, rapid)] *)
Definition find_mmdi3d_datasets (w : world) (top_dir : str) (rapid : bool)
  : outcome data3d :=
  scan_folders w rapid
    {| top_dir := top_dir; manufacturer := []; data := [] |}
    (dir_folder_list w top_dir).

End Matcher.

Import Matcher.

(* ================================================================== *)
(** * mmdi3d_utils.py: the slice and contrast locator *)
(* ================================================================== *)

Module Locator.

(** The keys of [CONTRASTS], in the order of the dictionary. *)
Inductive contrast : Type :=
| storage
| loss
| attenuation
| damping_ratio
| volumetric_strain.

Definition contrast_keys : list contrast :=
  [storage; loss; attenuation; damping_ratio; volumetric_strain].

(** [CONTRASTS[contrast]] *)
Definition CONTRASTS (c : contrast) : str :=
  match c with
  | storage => lit "26"
  | loss => lit "27"
  | attenuation => lit "28"
  | damping_ratio => []
  | volumetric_strain => []
  end.

(** The key itself, as text. *)
Definition contrast_name (c : contrast) : str :=
  match c with
  | storage => lit "storage"
  | loss => lit "loss"
  | attenuation => lit "attenuation"
  | damping_ratio => lit "damping_ratio"
  | volumetric_strain => lit "volumetric_strain"
  end.

Definition contrast_eqb (a b : contrast) : bool :=
  match a, b with
  | storage, storage | loss, loss | attenuation, attenuation
  | damping_ratio, damping_ratio
  | volumetric_strain, volumetric_strain => true
  | _, _ => false
  end.

(** A value of [slice_data]: the keys ['roi_file_path'], ['storage_path'],
    ['loss_path'], ['attenuation_path'] and ['SliceLocation']. *)
Record slice_rec : Type := {
  roi_file_path : str;
  storage_path : str;
  loss_path : str;
  attenuation_path : str;
  slice_location : option Q
}.

(** [rec[contrast+'_path']] for the contrasts that have a directory. *)
Definition get_path (r : slice_rec) (c : contrast) : str :=
  match c with
  | storage => storage_path r
  | loss => loss_path r
  | _ => attenuation_path r
  end.

(** [rec[contrast+'_path'] = path] *)
Definition set_path (r : slice_rec) (c : contrast) (path : str) : slice_rec :=
  match c with
  | storage =>
      {| roi_file_path := roi_file_path r; storage_path := path;
         loss_path := loss_path r; attenuation_path := attenuation_path r;
         slice_location := slice_location r |}
  | loss =>
      {| roi_file_path := roi_file_path r; storage_path := storage_path r;
         loss_path := path; attenuation_path := attenuation_path r;
         slice_location := slice_location r |}
  | _ =>
      {| roi_file_path := roi_file_path r; storage_path := storage_path r;
         loss_path := loss_path r; attenuation_path := path;
         slice_location := slice_location r |}
  end.

(** The truth value of a [SliceLocation]: [None] and [0.0] are falsy. *)
Definition truthy (x : option Q) : bool :=
  match x with
  | Some q => negb (Qeq_bool q 0)
  | None => false
  end.

(** [a == b] on two values of [dcm.get('SliceLocation', None)] *)
Definition location_eqb (a b : option Q) : bool :=
  match a, b with
  | Some x, Some y => Qeq_bool x y
  | None, None => true
  | _, _ => false
  end.

(** [s[1:-2]] *)
Definition slice_1_m2 (s : str) : str := skipn 1 (firstn (length s - 2) s).

Definition default : str := lit "default".

Section WithWorld.

Variable w : world.

(** The loop over [candidate_mag_file_paths]: every file that parses
    assigns [slice_location]; a truthy value ends the loop. *)
Fixpoint try_candidates (candidates : list str) (slice_location : option Q)
  : option Q :=
  match candidates with
  | [] => slice_location
  | candidate_path :: rest =>
      match w_dicom w candidate_path with
      | None => try_candidates rest slice_location
      | Some dcm_mag =>
          let slice_location := SliceLocation dcm_mag in
          if truthy slice_location then slice_location
          else try_candidates rest slice_location
      end
  end.

(** The loop over [key2]; the items of [content] stand for its keys and
    the values [content[key2]]. *)
Fixpoint mag_slice_loop (temp_dir inversion_3d_dir slice_number : str)
    (items : list (str * str)) (slice_location : option Q) : option Q :=
  match items with
  | [] => slice_location
  | (key2, val2) :: rest =>
      if startswith key2 (lit "mre.mag.slice." ++ slice_number) then
        let mag_file_path := os_clean_path (w_conv w) val2 in
        let candidate_mag_file_paths :=
          [ join inversion_3d_dir
              (snd (path_split (w_conv w) mag_file_path 3));
            join inversion_3d_dir
              (snd (path_split (w_conv w) mag_file_path 2));
            join (fst (path_split (w_conv w) temp_dir 2))
              (snd (path_split (w_conv w) mag_file_path 2)) ] in
        let slice_location :=
          try_candidates candidate_mag_file_paths slice_location in
        if truthy slice_location then slice_location
        else mag_slice_loop temp_dir inversion_3d_dir slice_number rest
               slice_location
      else mag_slice_loop temp_dir inversion_3d_dir slice_number rest
             slice_location
  end.

(** The state of "Scraping data from digest": [slice_data], the variable
    [mag_series] ([None] while it is not bound) and the log. *)
Record scrape : Type := {
  sc_slice_data : dict slice_rec;
  sc_mag_series : option str;
  sc_log : list str
}.

(** The body of the loop over [key1]. *)
Definition scrape_key (alc2_digest temp_dir inversion_3d_dir : str)
    (content : dict str) (st : scrape) (item : str * str) : scrape :=
  let '(key1, val1) := item in
  if startswith key1 (lit "mre.roi.slice.") then
    let slice_number := split_last (lit "mre.roi.slice.") key1 in
    let roi_file_name := basename (os_clean_path (w_conv w) val1) in
    let roi_file_path := join temp_dir roi_file_name in
    let slice_location :=
      mag_slice_loop temp_dir inversion_3d_dir slice_number content None in
    let rec :=
      {| roi_file_path := roi_file_path; storage_path := [];
         loss_path := []; attenuation_path := [];
         slice_location := slice_location |} in
    {| sc_slice_data := dict_set (sc_slice_data st) slice_number rec;
       sc_mag_series := sc_mag_series st;
       sc_log :=
         if negb (truthy slice_location) then
           sc_log st ++
           [lit "WARNING get_mmdi3d_slice_data(): no SliceLocation found for slice_number="
            ++ slice_number ++ lit " in alc2_digest " ++ alc2_digest]
         else sc_log st |}
  else if str_eqb key1 (lit "mre.mag.seriesNumber") then
    {| sc_slice_data := sc_slice_data st;
       sc_mag_series := Some val1;
       sc_log := sc_log st |}
  else st.

(** [mag_series.startswith(prefix)]: the variable has to be bound. *)
Definition mag_series_startswith (mag_series : option str) (prefix : str)
  : outcome bool :=
  match mag_series with
  | Some ms => Returned (startswith ms prefix)
  | None => Raised UnboundLocalError
  end.

(** "Get contrasts parent directory" *)
Fixpoint find_parent_dir (mag_series : option str) (inversion_3d_dir : str)
    (folders : list str) : outcome str :=
  match folders with
  | [] => Returned inversion_3d_dir
  | folder :: rest =>
      hit <- mag_series_startswith mag_series folder ;;
      if hit then Returned (join inversion_3d_dir folder)
      else find_parent_dir mag_series inversion_3d_dir rest
  end.

(** "Finding contrast file path from SliceLocation": the first file of
    the directory with the location of the slice. *)
Fixpoint find_contrast_file (target : option Q) (files : list str)
  : option str :=
  match files with
  | [] => None
  | contrast_file_path :: rest =>
      match w_dicom w contrast_file_path with
      | None => find_contrast_file target rest
      | Some dcm_contrast =>
          if location_eqb (SliceLocation dcm_contrast) target
          then Some contrast_file_path
          else find_contrast_file target rest
      end
  end.

(** "Finding contrast directory": the loop over the folders of
    [contrast_parent_dir], with [path] the value of
    [slice_data[slice_number][contrast+'_path']]. *)
Fixpoint contrast_dir_loop (mag_series : option str)
    (contrast_parent_dir code : str) (target : option Q)
    (folders : list str) (path : str) : outcome str :=
  match folders with
  | [] => Returned path
  | folder :: rest =>
      if startswith folder (lit "s") && endswith folder code then
        hit <- mag_series_startswith mag_series (slice_1_m2 folder) ;;
        if hit then
          let contrast_dir := join contrast_parent_dir folder in
          let path :=
            match find_contrast_file target
                    (dir_file_list w contrast_dir true) with
            | Some contrast_file_path => contrast_file_path
            | None => path
            end in
          if negb (is_empty path) then Returned path
          else contrast_dir_loop mag_series contrast_parent_dir code target
                 rest path
        else contrast_dir_loop mag_series contrast_parent_dir code target
               rest path
      else contrast_dir_loop mag_series contrast_parent_dir code target
             rest path
  end.

(** The loop over the contrasts, for one slice. *)
Fixpoint contrasts_loop (mag_series : option str) (contrast_parent_dir : str)
    (contrasts : list contrast) (rec : slice_rec) : outcome slice_rec :=
  match contrasts with
  | [] => Returned rec
  | c :: rest =>
      if negb (is_empty (CONTRASTS c)) then
        path <- contrast_dir_loop mag_series contrast_parent_dir
                  (CONTRASTS c) (slice_location rec)
                  (dir_folder_list w contrast_parent_dir) (get_path rec c) ;;
        contrasts_loop mag_series contrast_parent_dir rest
          (set_path rec c path)
      else contrasts_loop mag_series contrast_parent_dir rest rec
  end.

(** "Adding contrast file paths when SliceLocation is valid": the loop
    over the slices; a value is changed in place. *)
Fixpoint slices_loop (mag_series : option str) (contrast_parent_dir : str)
    (slices : dict slice_rec) : outcome (dict slice_rec) :=
  match slices with
  | [] => Returned []
  | (slice_number, rec) :: rest =>
      rec' <- (if truthy (slice_location rec)
               then contrasts_loop mag_series contrast_parent_dir
                      contrast_keys rec
               else Returned rec) ;;
      rest' <- slices_loop mag_series contrast_parent_dir rest ;;
      Returned ((slice_number, rec') :: rest')
  end.

(** [get_mmdi3d_slice_data] once the digest, [temp_dir] and
    [inversion_3d_dir] are settled. *)
Definition locate_slices (alc2_digest temp_dir inversion_3d_dir : str)
    (content : dict str) (log : list str)
  : outcome (dict slice_rec) * list str :=
  let st :=
    fold_left (scrape_key alc2_digest temp_dir inversion_3d_dir content)
      content
      {| sc_slice_data := []; sc_mag_series := None; sc_log := log |} in
  (contrast_parent_dir <-
     find_parent_dir (sc_mag_series st) inversion_3d_dir
       (dir_folder_list w inversion_3d_dir) ;;
   slices_loop (sc_mag_series st) contrast_parent_dir (sc_slice_data st),
   sc_log st).

(** The first directory of the list that exists. *)
Fixpoint first_dir (candidates : list str) : option str :=
  match candidates with
  | [] => None
  | candidate_dir :: rest =>
      if w_exists w candidate_dir && w_isdir w candidate_dir
      then Some candidate_dir else first_dir rest
  end.

(** [get_mmdi3d_slice_data(alc2_digest, temp_dir, inversion_3d_dir)]: what
    it returns or raises, and what it logs. *)
Definition get_mmdi3d_slice_data (alc2_digest temp_dir inversion_3d_dir : str)
  : outcome (dict slice_rec) * list str :=
  if negb (endswith (lower alc2_digest) (lit ".alc2")) then
    (Returned [],
     [lit "ERROR get_mmdi3d_slice_data(): alc2_digest " ++ alc2_digest
      ++ lit " does not have .alc2 extension, returning empty dict"])
  else if negb (w_exists w alc2_digest) then
    (Returned [],
     [lit "ERROR get_mmdi3d_slice_data(): alc2_digest " ++ alc2_digest
      ++ lit " does not exist, returning empty dict"])
  else if negb (w_isfile w alc2_digest) then
    (Returned [],
     [lit "ERROR get_mmdi3d_slice_data(): alc2_digest " ++ alc2_digest
      ++ lit " invalid, returning empty dict"])
  else
    match parse_digest w alc2_digest with
    | Raised e => (Raised e, [])
    | Returned (content, comments) =>
        let after_temp_dir (temp_dir : str) :=
          if str_eqb inversion_3d_dir default then
            match first_dir
                    [ join (fst (path_split (w_conv w) alc2_digest 3))
                        (lit "3dmmdi");
                      join (fst (path_split (w_conv w) alc2_digest 2))
                        (lit "3dmmdi") ] with
            | Some candidate_dir =>
                locate_slices alc2_digest temp_dir candidate_dir content []
            | None =>
                (Returned [],
                 [lit "ERROR get_mmdi3d_slice_data(): no default candidate found for inversion_3d_dir, returning empty dict"])
            end
          else if negb (w_exists w inversion_3d_dir) then
            (Returned [],
             [lit "ERROR get_mmdi3d_slice_data(): inversion_3d_dir "
              ++ inversion_3d_dir
              ++ lit " does not exist, returning empty dict"])
          else if negb (w_isdir w inversion_3d_dir) then
            (Returned [],
             [lit "ERROR get_mmdi3d_slice_data(): inversion_3d_dir "
              ++ inversion_3d_dir ++ lit " invalid, returning empty dict"])
          else locate_slices alc2_digest temp_dir inversion_3d_dir content []
        in
        if str_eqb temp_dir default then after_temp_dir (dirname alc2_digest)
        else if negb (w_exists w temp_dir) then
          (Returned [],
           [lit "ERROR get_mmdi3d_slice_data(): temp_dir " ++ temp_dir
            ++ lit " does not exist, returning empty dict"])
        else if negb (w_isdir w temp_dir) then
          (Returned [],
           [lit "ERROR get_mmdi3d_slice_data(): temp_dir " ++ temp_dir
            ++ lit " invalid, returning empty dict"])
        else after_temp_dir temp_dir
    end.

End WithWorld.

End Locator.

Import Locator.

(* ================================================================== *)
(** * mmdi3d_utils.py: the ROI statistics engine *)
(* ================================================================== *)

Module RoiStats.

Local Open Scope Q_scope.

(** ** numpy on exact rationals *)

Definition Qsum (l : list Q) : Q := fold_left Qplus l 0.

(** [numpy.mean] *)
Definition np_mean (l : list Q) : Q :=
  Qsum l / inject_Z (Z.of_nat (length l)).

(** Rounding to the nearest integer, a tie going to the even one. *)
Definition round_half_even (q : Q) : Z :=
  let f := Qfloor q in
  match Qcompare (q - inject_Z f) (1 # 2) with
  | Lt => f
  | Gt => (f + 1)%Z
  | Eq => if Z.even f then f else (f + 1)%Z
  end.

(** [numpy.round(q, 2)] of the exact value [q]: to the nearest
    multiple of 0.01, a tie going to the even one. The source rounds the
    binary64 value it has computed, so for a value that is a tie here
    and is not one in binary64 (285 times 1e-3) it can give the other
    neighbour. *)
Definition np_round2 (q : Q) : Q :=
  Qred (Qmake (round_half_even (q * 100)) 100).

(** The square root of [v >= 0], rounded to the nearest integer as
    above. *)
Definition sqrt_round (v : Q) : Z :=
  let m := Z.sqrt (Qfloor v) in
  match Qcompare v (inject_Z (m * m + m) + (1 # 4)) with
  | Lt => m
  | Gt => (m + 1)%Z
  | Eq => if Z.even m then m else (m + 1)%Z
  end.

(** [numpy.round(numpy.std(l), 2)]: the population standard deviation,
    whose square root is only taken rounded. *)
Definition np_std_round2 (l : list Q) : Q :=
  let m := np_mean l in
  let variance := np_mean (map (fun x => (x - m) * (x - m)) l) in
  Qred (Qmake (sqrt_round (variance * 10000)) 100).

Fixpoint insert_sorted (x : Q) (l : list Q) : list Q :=
  match l with
  | [] => [x]
  | y :: l' => if Qle_bool x y then x :: l else y :: insert_sorted x l'
  end.

Definition sort (l : list Q) : list Q := fold_right insert_sorted [] l.

(** [numpy.percentile(l, p)], by linear interpolation between the two
    nearest ranks. *)
Definition np_percentile (l : list Q) (p : Q) : Q :=
  let sorted := sort l in
  let pos := inject_Z (Z.of_nat (length l) - 1) * p / 100 in
  let lo := Qfloor pos in
  let frac := pos - inject_Z lo in
  let a := nth (Z.to_nat lo) sorted 0 in
  let b := nth (Nat.min (Z.to_nat lo + 1) (length l - 1)) sorted 0 in
  a + frac * (b - a).

(** [numpy.median] *)
Definition np_median (l : list Q) : Q := np_percentile l 50.

(** ** The image stacks *)

(** The array [read_images] builds: its first two dimensions and one
    image per path. *)
Record stack : Type := {
  st_rows : nat;
  st_cols : nat;
  st_images : list (list (list Q))
}.

Definition image_shape (img : list (list Q)) : nat * nat :=
  (length img, length (hd [] img)).

Definition stack_shape (st : stack) : nat * nat * nat :=
  (st_rows st, st_cols st, length (st_images st)).

Definition shape_eqb (a b : nat * nat * nat) : bool :=
  let '(r1, c1, n1) := a in
  let '(r2, c2, n2) := b in
  (r1 =? r2)%nat && (c1 =? c2)%nat && (n1 =? n2)%nat.

(** The elements of a stack in the order a boolean mask selects them:
    by row, then column, then image. *)
Definition stack_values (st : stack) : list Q :=
  flat_map
    (fun r =>
       flat_map
         (fun c => map (fun img => nth c (nth r img []) 0) (st_images st))
         (seq 0 (st_cols st)))
    (seq 0 (st_rows st)).

(** numpy's broadcasting of a two-dimensional array into a slice of
    [fst shape] rows and [snd shape] columns: a dimension of the array
    has to be that of the slice, or 1, and then its one row or one
    column is repeated. [None] is the [ValueError] of an array that
    cannot be broadcast. *)
Definition broadcast (shape : nat * nat) (pixels : list (list Q))
  : option (list (list Q)) :=
  let rows := fst (image_shape pixels) in
  let cols := snd (image_shape pixels) in
  if (((rows =? fst shape)%nat || (rows =? 1)%nat)
      && ((cols =? snd shape)%nat || (cols =? 1)%nat))%bool
  then
    let widened :=
      if (cols =? snd shape)%nat then pixels
      else map (fun row => repeat (hd 0 row) (snd shape)) pixels in
    Some (if (rows =? fst shape)%nat then widened
          else repeat (hd [] widened) (fst shape))
  else None.

Section WithWorld.

Variable w : world.

(** [pydicom.read_file(path).pixel_array] *)
Definition read_pixels (path : str) : outcome (list (list Q)) :=
  match w_dicom w path with
  | None => Raised InvalidDicomError
  | Some ds =>
      match pixel_array ds with
      | None => Raised AttributeError
      | Some pixels => Returned pixels
      end
  end.

(** The images after the first one: [images[:,:,i] = array] with no
    test of the shape, so numpy broadcasts the array into the slice or
    raises [ValueError]. *)
Fixpoint read_more (shape : nat * nat) (paths : list str)
  : outcome (list (list (list Q))) :=
  match paths with
  | [] => Returned []
  | path :: rest =>
      pixels <- read_pixels path ;;
      match broadcast shape pixels with
      | Some image =>
          images <- read_more shape rest ;; Returned (image :: images)
      | None => Raised ValueError
      end
  end.

(** [read_images(paths)] of dicom_and_file_utils.py *)
Definition read_images (paths : list str) : outcome stack :=
  match paths with
  | [] => Raised UnboundLocalError
  | path :: rest =>
      pixels <- read_pixels path ;;
      images <- read_more (image_shape pixels) rest ;;
      Returned {| st_rows := fst (image_shape pixels);
                  st_cols := snd (image_shape pixels);
                  st_images := pixels :: images |}
  end.

(** ** The statistics *)

(** The four values of a contrast; [None] is the empty text [''] they
    start with, [Some] the text of a number (of two for the range). *)
Record stats : Type := {
  mean : option Q;
  stddev : option Q;
  median : option Q;
  range : option (Q * Q)
}.

Definition no_stats : stats :=
  {| mean := None; stddev := None; median := None; range := None |}.

(** "Computing statistical values" *)
Definition summarize (pixel_values : list Q) : stats :=
  {| mean := Some (np_round2 (np_mean pixel_values));
     stddev := Some (np_std_round2 pixel_values);
     median := Some (np_round2 (np_median pixel_values));
     range := Some (np_round2 (np_percentile pixel_values 25),
                    np_round2 (np_percentile pixel_values 75)) |}.

Definition no_pixels_warning (c : contrast) : str :=
  lit "WARNING apply_rois_to_mmdi3d_contrasts(): no valid pixels for "
  ++ contrast_name c ++ lit ", returning null output".

Definition no_paths_warning (c : contrast) : str :=
  lit "WARNING apply_rois_to_mmdi3d_contrasts(): no slices have all required image paths for "
  ++ contrast_name c ++ lit ", returning null output".

(** "Get valid slice paths" of a direct contrast *)
Definition direct_paths (slice_data : dict slice_rec) (c : contrast)
  : list (str * str) :=
  map (fun item => (roi_file_path (snd item), get_path (snd item) c))
    (filter (fun item => negb (is_empty (roi_file_path (snd item)))
                         && negb (is_empty (get_path (snd item) c)))
       slice_data).

(** "Computing pixel values" of a direct contrast: [pixel_values]. *)
Definition direct_pixels (exclude_negative_pixels : bool)
    (roi_stack contrast_stack : stack) : outcome (list Q) :=
  if shape_eqb (stack_shape roi_stack) (stack_shape contrast_stack) then
    let pairs := combine (stack_values roi_stack)
                         (stack_values contrast_stack) in
    let pairs :=
      if exclude_negative_pixels
      then filter (fun rc => Qle_bool 0 (snd rc)) pairs else pairs in
    Returned (map snd (filter (fun rc => negb (Qle_bool (fst rc) 0)) pairs))
  else Raised IndexError.

(** "Rescaling units" *)
Definition rescale (c : contrast) (pixel_values : list Q) : list Q :=
  match c with
  | storage | loss => map (Qmult (1 # 1000)) pixel_values
  | attenuation => map (Qmult (1 # 10000)) pixel_values
  | _ => pixel_values
  end.

(** [numpy.divide(a, b, where=(b != 0))] with no [out]: the result is a
    fresh array, written only where the condition holds; elsewhere it
    keeps what the memory held, [buffer]. *)
Fixpoint divide_where (buffer : list (option Q)) (a b : list Q)
  : list (option Q) :=
  match a, b with
  | x :: a', y :: b' =>
      (if negb (Qeq_bool y 0) then Some (x / y) else hd None buffer)
      :: divide_where (tl buffer) a' b'
  | _, _ => []
  end.

(** "Get valid slice paths" of the damping ratio *)
Definition damping_paths (slice_data : dict slice_rec)
  : list (str * (str * str)) :=
  map (fun item => (roi_file_path (snd item),
                    (storage_path (snd item), loss_path (snd item))))
    (filter (fun item => negb (is_empty (roi_file_path (snd item)))
                         && negb (is_empty (storage_path (snd item)))
                         && negb (is_empty (loss_path (snd item))))
       slice_data).

(** "Computing pixel values" of the damping ratio: [pixel_values]. *)
Definition damping_pixels (exclude_negative_pixels : bool)
    (roi_stack storage_stack loss_stack : stack) : outcome (list Q) :=
  if negb (shape_eqb (stack_shape storage_stack) (stack_shape loss_stack))
  then Raised ValueError
  else if negb (shape_eqb (stack_shape roi_stack)
                  (stack_shape storage_stack))
  then Raised IndexError
  else
    let triples :=
      combine (stack_values roi_stack)
        (combine (stack_values storage_stack) (stack_values loss_stack)) in
    let triples :=
      if exclude_negative_pixels
      then filter (fun t => Qle_bool 0 (fst (snd t))
                            && Qle_bool 0 (snd (snd t))) triples
      else triples in
    let roi := map fst triples in
    let storage_values := map (fun t => fst (snd t)) triples in
    let loss_values := map (fun t => snd (snd t)) triples in
    let damping_ratio_stack :=
      map (option_map (Qmult (1 # 2)))
        (divide_where (w_empty w (length triples))
           loss_values storage_values) in
    Returned
      (flat_map
         (fun rd => match snd rd with
                    | Some d => if negb (Qle_bool (fst rd) 0) then [d] else []
                    | None => []
                    end)
         (combine roi damping_ratio_stack)).

(** The body of the loop of [apply_rois_to_mmdi3d_contrasts] for one
    contrast: its statistics and the messages it logs. *)
Definition measure_contrast (slice_data : dict slice_rec)
    (exclude_negative_pixels : bool) (c : contrast)
  : outcome (stats * list str) :=
  match c with
  | damping_ratio =>
      let paths := damping_paths slice_data in
      if (0 <? length paths)%nat then
        roi_stack <- read_images (map fst paths) ;;
        storage_stack <- read_images (map (fun p => fst (snd p)) paths) ;;
        loss_stack <- read_images (map (fun p => snd (snd p)) paths) ;;
        pixel_values <- damping_pixels exclude_negative_pixels roi_stack
                          storage_stack loss_stack ;;
        if (0 <? length pixel_values)%nat
        then Returned (summarize pixel_values, [])
        else Returned (no_stats, [no_pixels_warning c])
      else Returned (no_stats, [no_paths_warning c])
  | volumetric_strain => Returned (no_stats, [])
  | _ =>
      let paths := direct_paths slice_data c in
      if (0 <? length paths)%nat then
        roi_stack <- read_images (map fst paths) ;;
        contrast_stack <- read_images (map snd paths) ;;
        pixel_values <- direct_pixels exclude_negative_pixels roi_stack
                          contrast_stack ;;
        if (0 <? length pixel_values)%nat
        then Returned (summarize (rescale c pixel_values), [])
        else Returned (no_stats, [no_pixels_warning c])
      else Returned (no_stats, [no_paths_warning c])
  end.

(** The loop over the contrasts. *)
Fixpoint measure_contrasts (slice_data : dict slice_rec)
    (exclude_negative_pixels : bool) (contrasts : list contrast)
  : outcome (list (contrast * stats) * list str) :=
  match contrasts with
  | [] => Returned ([], [])
  | c :: rest =>
      r <- measure_contrast slice_data exclude_negative_pixels c ;;
      rs <- measure_contrasts slice_data exclude_negative_pixels rest ;;
      Returned ((c, fst r) :: fst rs, (snd r ++ snd rs)%list)
  end.

(** [apply_rois_to_mmdi3d_contrasts(slice_data, exclude_negative_pixels)]:
    [contrast_data] by contrast, and the log. *)
Definition apply_rois_to_mmdi3d_contrasts (slice_data : dict slice_rec)
    (exclude_negative_pixels : bool)
  : outcome (list (contrast * stats) * list str) :=
  measure_contrasts slice_data exclude_negative_pixels contrast_keys.

(** [contrast_data[c]] *)
Fixpoint stats_of (contrast_data : list (contrast * stats)) (c : contrast)
  : option stats :=
  match contrast_data with
  | [] => None
  | (c', st) :: rest =>
      if contrast_eqb c' c then Some st else stats_of rest c
  end.

End WithWorld.

End RoiStats.

Import RoiStats.

(* ================================================================== *)
(** * Concrete worlds for the examples *)
(* ================================================================== *)

Module Examples.

(** The name of the [k]-th file of a folder. *)
Definition file_name (k : nat) : str :=
  lit "i" ++ lit (NilEmpty.string_of_uint (Nat.to_uint k)) ++ lit ".dcm".

(** The tags of the files of a series. *)
Definition series (desc manu : string) (number : Z) (sequence : option str)
  : dicom :=
  {| SeriesDescription := Some (lit desc);
     Manufacturer := Some (lit manu);
     SequenceName := sequence;
     SeriesNumber := Some number;
     SliceLocation := None;
     pixel_array := None |}.

(** A scan root [top] with the given folders, each with a number of
    files that all parse to the same tags. *)
Definition scan_world (top : str) (folders : list (str * (nat * dicom)))
  : world :=
  {| w_conv := backslash_to_sep;
     w_exists := fun _ => true;
     w_isfile := fun _ => false;
     w_isdir := fun _ => true;
     w_folders := fun dir => if str_eqb dir top then map fst folders else [];
     w_files := fun dir =>
       match find (fun f => str_eqb dir (join top (fst f))) folders with
       | Some (_, (count, _)) => map file_name (seq 0 count)
       | None => []
       end;
     w_text := fun _ => None;
     w_dicom := fun path =>
       match find (fun f => startswith path (join top (fst f) ++ [sep]))
               folders with
       | Some (_, (_, dcm)) => Some dcm
       | None => None
       end;
     w_empty := fun n => repeat None n |}.

Definition top : str := lit "/top".

Definition start : data3d :=
  {| top_dir := top; manufacturer := []; data := [] |}.

Definition ge_series : dicom :=
  series "MRE something" "GE MEDICAL SYSTEMS" 5 None.

Definition ge_world (count : nat) : world :=
  scan_world top [(lit "A", (count, ge_series))].

(** A GE folder that is itself the output of the 3D inversion. *)
Definition ge_output_world : world :=
  scan_world top
    [(lit "A", (850, series "MRE something" "GE MEDICAL SYSTEMS" 5
                       (Some (lit "3d-mmdi"))))].

Definition siemens_mag_12 : dicom := series "928 3D mag" "Siemens" 12 None.
Definition siemens_phase_13 : dicom := series "928 3D p_p" "Siemens" 13 None.
Definition siemens_mag_20 : dicom := series "928 3D mag" "Siemens" 20 None.
Definition siemens_phase_21 : dicom := series "928 3D p_p" "Siemens" 21 None.

(** The pair of the specification: magnitude 12, then phase 13. *)
Definition siemens_pair_world : world :=
  scan_world top
    [(lit "A", (900, siemens_mag_12)); (lit "B", (900, siemens_phase_13))].

(** Two acquisitions: magnitude 12 and phase 13, then magnitude 20 and
    phase 21. *)
Definition siemens_two_world : world :=
  scan_world top
    [(lit "A", (900, siemens_mag_12)); (lit "B", (900, siemens_phase_13));
     (lit "C", (900, siemens_mag_20)); (lit "D", (900, siemens_phase_21))].

(** Two magnitude folders with no phase folder. *)
Definition siemens_mags_world : world :=
  scan_world top
    [(lit "A", (900, siemens_mag_12)); (lit "C", (900, siemens_mag_20))].

(** A file that holds only a pixel array. *)
Definition image_file (pixels : list (list Q)) : dicom :=
  {| SeriesDescription := None; Manufacturer := None; SequenceName := None;
     SeriesNumber := None; SliceLocation := None;
     pixel_array := Some pixels |}.

(** A world of image files, with [buffer] what fresh arrays hold. *)
Definition image_world (files : list (str * list (list Q)))
    (buffer : nat -> list (option Q)) : world :=
  {| w_conv := backslash_to_sep;
     w_exists := fun _ => true;
     w_isfile := fun _ => true;
     w_isdir := fun _ => false;
     w_folders := fun _ => [];
     w_files := fun _ => [];
     w_text := fun _ => None;
     w_dicom := fun path =>
       match find (fun f => str_eqb path (fst f)) files with
       | Some (_, pixels) => Some (image_file pixels)
       | None => None
       end;
     w_empty := buffer |}.

(** The 2x2x1 example: the mask [[0,1],[0,1]] and the contrast values
    [[10,20],[30,40]], read as storage and as loss. *)
Definition mask_world : world :=
  image_world
    [(lit "roi.dcm", [[0; 1]; [0; 1]]%Q);
     (lit "contrast.dcm", [[10; 20]; [30; 40]]%Q)]
    (fun n => repeat None n).

Definition mask_slices : dict slice_rec :=
  [(lit "1",
    {| roi_file_path := lit "roi.dcm"; storage_path := lit "contrast.dcm";
       loss_path := lit "contrast.dcm"; attenuation_path := [];
       slice_location := Some 1%Q |})].

(** The damping example: storage [2,0], loss [1,5], a mask that is true
    everywhere; [garbage] is what the memory of the fresh result of
    [numpy.divide] holds at index 1. *)
Definition damping_world (garbage : option Q) : world :=
  image_world
    [(lit "roi.dcm", [[1; 1]]%Q);
     (lit "storage.dcm", [[2; 0]]%Q);
     (lit "loss.dcm", [[1; 5]]%Q)]
    (fun n => repeat garbage n).

Definition damping_slices : dict slice_rec :=
  [(lit "1",
    {| roi_file_path := lit "roi.dcm"; storage_path := lit "storage.dcm";
       loss_path := lit "loss.dcm"; attenuation_path := [];
       slice_location := Some 1%Q |})].

(** The text of the example: four lines, the third one empty. *)
Definition example_digest : str :=
  lit "a = 1 % note" ++ [ascii_of_nat 10] ++ lit "b=2" ++ [ascii_of_nat 10]
  ++ [ascii_of_nat 10] ++ lit "badline" ++ [ascii_of_nat 10].

(** A digest with one ROI slice and no ['mre.mag.seriesNumber'] key, and
    an inversion directory with one folder. *)
Definition digest_without_series : str :=
  lit "mre.roi.slice.1 = roi1.dcm" ++ [ascii_of_nat 10].

(** The same digest with the key. *)
Definition digest_with_series : str :=
  lit "mre.roi.slice.1 = roi1.dcm" ++ [ascii_of_nat 10]
  ++ lit "mre.mag.seriesNumber = 7" ++ [ascii_of_nat 10].

Definition digest_world (text : str) : world :=
  {| w_conv := backslash_to_sep;
     w_exists := fun _ => true;
     w_isfile := fun path => str_eqb path (lit "/case/temp/x.alc2");
     w_isdir := fun path => negb (str_eqb path (lit "/case/temp/x.alc2"));
     w_folders := fun dir =>
       if str_eqb dir (lit "/case/3dmmdi") then [lit "7"] else [];
     w_files := fun _ => [];
     w_text := fun path =>
       if str_eqb path (lit "/case/temp/x.alc2") then Some text else None;
     w_dicom := fun _ => None;
     w_empty := fun n => repeat None n |}.



(** A conversion that leaves a backslash in its result, as pathlib's
    does before Python 3.12 for a path with a drive: [C:\a\b] becomes
    [C:\/a/b], the drive with its own backslash being one component.
    The backslashes of any other path become separators. *)
Definition drive_to_posix (path : str) : str :=
  let fix skip_seps (s : str) : str :=
    match s with
    | [] => []
    | c :: s' => if is_sep c then skip_seps s' else s
    end in
  match path with
  | d :: c :: b :: rest =>
      if Ascii.eqb c ":"%char && Ascii.eqb b backslash
      then d :: c :: b :: sep :: skip_seps (backslash_to_sep rest)
      else backslash_to_sep path
  | _ => backslash_to_sep path
  end.

End Examples.

Import Examples.

(* ================================================================== *)
(** * The vocabulary of the properties *)
(* ================================================================== *)

Module PathShape.

(** A string with no separator in it. *)
Definition no_sep (c : str) : bool := forallb (fun x => negb (is_sep x)) c.

(** A path component: not empty, no separator. *)
Definition good_comp (c : str) : bool := negb (is_empty c) && no_sep c.

(** The text of a path: a separator when it is absolute, then the
    components joined by separators. *)
Definition root (abs : bool) : str := if abs then [sep] else [].

Definition render (abs : bool) (cs : list str) : str :=
  root abs ++ join_char sep cs.

Definition good_comps (cs : list str) : bool := forallb good_comp cs.

(** A non-empty string whose last character is no separator. *)
Definition ends_plain (s : str) : Prop :=
  exists s' x, s = s' ++ [x] /\ is_sep x = false.

Definition not_dot (c : str) : bool := negb (str_eqb c dot).
Definition not_dd (c : str) : bool := negb (str_eqb c dotdot).
Definition is_dd (c : str) : bool := str_eqb c dotdot.

(** [..] components come first. *)
Fixpoint lead_dd (cs : list str) : bool :=
  match cs with
  | [] => true
  | c :: cs' => if is_dd c then lead_dd cs' else forallb not_dd cs'
  end.

(** The component lists [normpath] produces: proper components, none of
    them [.]; no [..] in an absolute path, and only leading ones in a
    relative path. *)
Definition tidy (abs : bool) (cs : list str) : bool :=
  good_comps cs && forallb not_dot cs &&
  (if abs then forallb not_dd cs else lead_dd cs).

(** What a cleaned path looks like: the text of a tidy component list,
    or [.] alone. *)
Definition clean_shape (abs : bool) (cs : list str) : Prop :=
  (tidy abs cs = true /\ (abs = true \/ cs <> [])) \/
  (abs = false /\ cs = [dot]).

Section Candidates.

Variable conv : str -> str.
Variable ex : str -> bool.

(** The candidate that joins the head of [path_1] without its last [i]
    components and the last [j] components of [path_2]. *)
Definition candidate (path_1 path_2 : str) (j i : Z) : str :=
  join (fst (path_split conv path_1 i)) (snd (path_split conv path_2 j)).

(** The candidates in the order the loops try them. *)
Definition composite_candidates (path_1 path_2 : str) : list str :=
  flat_map
    (fun j => map (candidate path_1 path_2 j)
                (py_range 1 (num_path_elems conv path_1 + 1)))
    (py_range 1 (num_path_elems conv path_2 + 1)).

(** The order of the specification, word for word: the tails of
    [path_2] by ascending length in the outer loop, and in the inner loop
    the heads of [path_1] by ascending length, from the head of no
    element (all the [n1] elements split off) to the whole path (none
    split off). *)
Definition spec_order_candidates (path_1 path_2 : str) : list str :=
  flat_map
    (fun j =>
       map (fun head_length =>
              candidate path_1 path_2 j
                (num_path_elems conv path_1 - head_length))
         (py_range 0 (num_path_elems conv path_1 + 1)))
    (py_range 1 (num_path_elems conv path_2 + 1)).

(** [FindExistingComposite] as the specification words it. *)
Definition find_existing_spec_order (path_1 path_2 : str) : str :=
  let path_1 := os_clean_path conv path_1 in
  let path_2 := os_clean_path conv path_2 in
  match find ex (spec_order_candidates path_1 path_2) with
  | Some candidate_path => candidate_path
  | None => lit "None"
  end.

End Candidates.

End PathShape.

Import PathShape.

Module Properties.

(** The key and the value a line assigns, if it holds a [=] before any
    [%]: the two sides of the first [=], trimmed. *)
Definition assignment (line : str) : option (str * str) :=
  let before := fst (split_once "%"%char line) in
  match snd (split_once "="%char before) with
  | Some after => Some (strip (fst (split_once "="%char before)), strip after)
  | None => None
  end.






End Properties.

Import Properties.

(* ================================================================== *)
(** * mmdi3d_utils.py: locating and measuring in one call *)
(* ================================================================== *)

Module Measure.

(** [measure_mmdi3d_contrasts_in_rois(alc2_digest, temp_dir,
    inversion_3d_dir, exclude_negative_pixels)]: the pair it returns and
    what the two calls log. *)
Definition measure_mmdi3d_contrasts_in_rois (w : world)
    (alc2_digest temp_dir inversion_3d_dir : str)
    (exclude_negative_pixels : bool)
  : outcome ((dict slice_rec * list (contrast * stats)) * list str) :=
  let located :=
    get_mmdi3d_slice_data w alc2_digest temp_dir inversion_3d_dir in
  slice_data <- fst located ;;
  measured <- apply_rois_to_mmdi3d_contrasts w slice_data
                exclude_negative_pixels ;;
  Returned ((slice_data, fst measured), snd located ++ snd measured).

End Measure.

Import Measure.

(* ================================================================== *)
(** * dicom_and_file_utils.py: the series in a digest name, and the
      DICOM paths of a digest *)
(* ================================================================== *)

Module DigestTools.

(** [s.split(pat)[0]] for a non-empty [pat]: the text before the first
    match, all of [s] when there is none. *)
Fixpoint before_first (pat s : str) : str :=
  match s with
  | [] => []
  | c :: s' => if startswith s pat then [] else c :: before_first pat s'
  end.

(** [get_alc_digest_series(digest_path)] *)
Definition get_alc_digest_series (conv : str -> str) (digest_path : str)
  : str :=
  let file := basename (os_clean_path conv digest_path) in
  if negb (contains file (lit ".alc")) then []
  else
    before_first (lit ".alc")
      (join_char "_"%char (skipn 4 (split_char "_"%char file))).

(** How a call ends that can also raise [KeyError] or
    [ZeroDivisionError], or leave through [sys.exit]. *)
Inductive ended (A : Type) : Type :=
| Finished (a : A)
| Exception (e : exn)
| KeyError (key : str)
| ZeroDivisionError
| SystemExit (message : str).

Arguments Finished {A} a.
Arguments Exception {A} e.
Arguments KeyError {A} key.
Arguments ZeroDivisionError {A}.
Arguments SystemExit {A} message.

Definition lift {A} (m : outcome A) : ended A :=
  match m with
  | Returned a => Finished a
  | Raised e => Exception e
  end.

Definition and_then {A B} (m : ended A) (f : A -> ended B) : ended B :=
  match m with
  | Finished a => f a
  | Exception e => Exception e
  | KeyError key => KeyError key
  | ZeroDivisionError => ZeroDivisionError
  | SystemExit message => SystemExit message
  end.

(** "Scraping digest for DICOM paths": the loop over the keys of
    [content], the items standing for the keys and their values; [inl]
    is the message of [sys.exit]. *)
Fixpoint dcm_paths_loop (w : world) (digest_path key_start : str)
    (items : list (str * str)) (dcm_paths_dict : dict str)
  : str + dict str :=
  match items with
  | [] => inr dcm_paths_dict
  | (key, val) :: rest =>
      if startswith key key_start && endswith (lower val) (lit ".dcm") then
        let dcm_path := val in
        let composite_path :=
          find_existing_composite_path (w_conv w) (w_exists w)
            digest_path dcm_path in
        if negb (str_eqb composite_path (lit "None")) then
          dcm_paths_loop w digest_path key_start rest
            (dict_set dcm_paths_dict key composite_path)
        else
          inl (lit "ERROR get_dcm_paths_from_digest(): unable to find existing location for DICOM file "
               ++ dcm_path ++ lit " listed in digest " ++ digest_path)
      else dcm_paths_loop w digest_path key_start rest dcm_paths_dict
  end.

(** [get_dcm_paths_from_digest(digest_path, key_start)] *)
Definition get_dcm_paths_from_digest (w : world)
    (digest_path key_start : str) : ended (dict str) :=
  match parse_digest w digest_path with
  | Raised e => Exception e
  | Returned (content, comments) =>
      match dcm_paths_loop w digest_path key_start content [] with
      | inr dcm_paths_dict => Finished dcm_paths_dict
      | inl message => SystemExit message
      end
  end.

End DigestTools.

Import DigestTools.

(* ================================================================== *)
(** * dicom_and_file_utils.py: the images of a digest *)
(* ================================================================== *)

Module PixelData.

Local Open Scope Q_scope.

(** One slice of [numpy.zeros((rows, cols, n))] *)
Definition zeros (rows cols : nat) : list (list Q) :=
  repeat (repeat 0 cols) rows.

Definition different_dimension_warning (path first : str) : str :=
  lit "WARNING get_dcm_pixel_data(): DICOM image at " ++ path
  ++ lit " of different dimension than baseline at " ++ first
  ++ lit ", skipping".

(** "Getting pixel data": the loop over the paths, with the slices of
    [image] it leaves and what it prints. *)
Fixpoint pixel_loop (w : world) (first : str) (N_rows N_cols : nat)
    (dcm_paths : list str) : outcome (list (list (list Q)) * list str) :=
  match dcm_paths with
  | [] => Returned ([], [])
  | path :: rest =>
      pixels <- read_pixels w path ;;
      r <- pixel_loop w first N_rows N_cols rest ;;
      if (negb (fst (image_shape pixels) =? N_rows)%nat
          || negb (snd (image_shape pixels) =? N_cols)%nat)%bool
      then Returned (zeros N_rows N_cols :: fst r,
                     different_dimension_warning path first :: snd r)
      else Returned (pixels :: fst r, snd r)
  end.

(** [get_dcm_pixel_data(dcm_paths)]: the array and what is printed. *)
Definition get_dcm_pixel_data (w : world) (dcm_paths : list str)
  : outcome (stack * list str) :=
  match dcm_paths with
  | [] => Raised IndexError
  | first :: _ =>
      pixels <- read_pixels w first ;;
      let N_rows := fst (image_shape pixels) in
      let N_cols := snd (image_shape pixels) in
      r <- pixel_loop w first N_rows N_cols dcm_paths ;;
      Returned ({| st_rows := N_rows; st_cols := N_cols;
                   st_images := fst r |}, snd r)
  end.

(** "Getting paired ROI and elastogram paths": for each key of the first
    dictionary, the key of the second one with the same ending. *)
Definition pair_paths (key_a key_b : str) (a_paths_dict b_paths_dict : dict str)
  : list (str * str) :=
  flat_map
    (fun item =>
       let key_ending := split_last key_a (fst item) in
       let b_key := key_b ++ key_ending in
       match dict_get b_paths_dict b_key with
       | Some b_path => [(snd item, b_path)]
       | None => []
       end)
    a_paths_dict.

(** [(image != 0).astype(int)] *)
Definition as_mask (st : stack) : stack :=
  {| st_rows := st_rows st; st_cols := st_cols st;
     st_images :=
       map (map (map (fun x => if Qeq_bool x 0 then 0 else 1)))
         (st_images st) |}.

Definition not_all_paired_warning : str :=
  lit "WARNING get_roi_and_elastogram_images_from_digest(): not all ROI DICOM paths paired with an elastogram DICOM path".

(** [get_roi_and_elastogram_images_from_digest(digest_path)]: the two
    images and what is printed. *)
Definition get_roi_and_elastogram_images_from_digest (w : world)
    (digest_path : str) : ended ((stack * stack) * list str) :=
  and_then (get_dcm_paths_from_digest w digest_path (lit "mre.roi."))
    (fun roi_paths_dict =>
  and_then (get_dcm_paths_from_digest w digest_path (lit "mre.stiff."))
    (fun elastogram_paths_dict =>
  let pairs := pair_paths (lit "mre.roi.") (lit "mre.stiff.")
                 roi_paths_dict elastogram_paths_dict in
  let roi_paths := map fst pairs in
  let elastogram_paths := map snd pairs in
  let log :=
    if (length roi_paths <? length roi_paths_dict)%nat
    then [not_all_paired_warning] else [] in
  and_then (lift (get_dcm_pixel_data w roi_paths)) (fun roi =>
  and_then (lift (get_dcm_pixel_data w elastogram_paths)) (fun elastogram =>
  Finished ((as_mask (fst roi), fst elastogram),
            (log ++ snd roi ++ snd elastogram)%list))))).

(** The tags [get_roi_and_ffrac_images_from_digest] looks up in a fat
    fraction file, each [None] when the file does not have it. *)
Record rescale_tags : Type := {
  RescaleSlope : option Q;
  RescaleIntercept : option Q;
  ImageComments : option str
}.

(** [float(x)] for a tag that is a true value *)
Definition tag_value (x : option Q) : Q :=
  match x with
  | Some q => q
  | None => 0
  end.

Definition is_gray_value_comment (comment : option str) : bool :=
  match comment with
  | Some text => str_eqb text (lit "Gray value 1 equals 0.1%")
  | None => false
  end.

(** The body of "Rescaling fat fraction values" for one slice. The
    branches that only print leave the slice as it is. *)
Definition rescale_slice (tags : rescale_tags) (slice : list (list Q))
  : list (list Q) :=
  let slope := RescaleSlope tags in
  let intercept := RescaleIntercept tags in
  if (truthy slope && truthy intercept)%bool then
    map (map (fun x => tag_value slope * x + tag_value intercept)) slice
  else if (negb (truthy slope) && truthy intercept)%bool then slice
  else if (negb (truthy intercept) && truthy slope)%bool then slice
  else if is_gray_value_comment (ImageComments tags) then
    map (map (fun x => (1 # 10) * x)) slice
  else slice.

(** "Rescaling fat fraction values": the loop over the paths, with
    [read_header path] the tags of
    [pydicom.read_file(path, stop_before_pixels=True)], [None] when it
    raises. *)
Fixpoint rescale_loop (read_header : str -> option rescale_tags)
    (ffrac_paths : list str) (slices : list (list (list Q)))
  : outcome (list (list (list Q))) :=
  match ffrac_paths with
  | [] => Returned slices
  | path :: rest =>
      match read_header path with
      | None => Raised InvalidDicomError
      | Some tags =>
          match slices with
          | [] => Raised IndexError
          | slice :: slices' =>
              r <- rescale_loop read_header rest slices' ;;
              Returned (rescale_slice tags slice :: r)
          end
      end
  end.

(** [numpy.repeat(numpy.repeat(image, zoom, axis=0), zoom, axis=1)] on
    one slice *)
Definition zoom_slice (zoom : nat) (slice : list (list Q)) : list (list Q) :=
  flat_map (fun row => repeat (flat_map (fun x => repeat x zoom) row) zoom)
    slice.

(** "Upscaling" *)
Definition upscale (roi_image ffrac_image : stack) : ended stack :=
  let r0 := st_rows roi_image in
  let r1 := st_cols roi_image in
  let f0 := st_rows ffrac_image in
  let f1 := st_cols ffrac_image in
  if (f0 <? r0)%nat then
    if (f0 =? 0)%nat then ZeroDivisionError
    else if (r0 mod f0 =? 0)%nat then
      if (f1 =? 0)%nat then ZeroDivisionError
      else if Qeq_bool (inject_Z (Z.of_nat r0) / inject_Z (Z.of_nat f0))
                       (inject_Z (Z.of_nat r1) / inject_Z (Z.of_nat f1))
      then
        let zoom := (r0 / f0)%nat in
        Finished {| st_rows := (f0 * zoom)%nat; st_cols := (f1 * zoom)%nat;
                    st_images := map (zoom_slice zoom)
                                   (st_images ffrac_image) |}
      else Finished ffrac_image
    else Finished ffrac_image
  else Finished ffrac_image.

(** [get_roi_and_ffrac_images_from_digest(digest_path)]; what it prints
    is left out. *)
Definition get_roi_and_ffrac_images_from_digest (w : world)
    (read_header : str -> option rescale_tags) (digest_path : str)
  : ended (stack * stack) :=
  and_then (get_dcm_paths_from_digest w digest_path (lit "fw.roi."))
    (fun roi_paths_dict =>
  and_then (get_dcm_paths_from_digest w digest_path (lit "fw.ffrac."))
    (fun ffrac_paths_dict =>
  let pairs := pair_paths (lit "fw.roi.") (lit "fw.ffrac.")
                 roi_paths_dict ffrac_paths_dict in
  let roi_paths := map fst pairs in
  let ffrac_paths := map snd pairs in
  and_then (lift (get_dcm_pixel_data w roi_paths)) (fun roi =>
  and_then (lift (get_dcm_pixel_data w ffrac_paths)) (fun ffrac =>
  and_then (lift (rescale_loop read_header ffrac_paths
                    (st_images (fst ffrac)))) (fun slices =>
  let roi_image := as_mask (fst roi) in
  let ffrac_image :=
    {| st_rows := st_rows (fst ffrac); st_cols := st_cols (fst ffrac);
       st_images := slices |} in
  and_then (upscale roi_image ffrac_image) (fun ffrac_image =>
  Finished (roi_image, ffrac_image))))))).

End PixelData.

Import PixelData.

(* ================================================================== *)
(** * mmdi3d_utils.py: the frequency of a dataset and the inversion
      runs *)
(* ================================================================== *)

Module Inversion.

(** [c.isnumeric()] on code points below 256: the digits, the
    superscripts 2, 3 and 1, and the fractions 1/4, 1/2 and 3/4. *)
Definition is_numeric_char (c : ascii) : bool :=
  let n := nat_of_ascii c in
  ((48 <=? n) && (n <=? 57)) || (n =? 178) || (n =? 179) || (n =? 185)
  || ((188 <=? n) && (n <=? 190)).

(** [s.isnumeric()] *)
Definition isnumeric (s : str) : bool :=
  negb (is_empty s) && forallb is_numeric_char s.

(** [s.replace(c, '')] for a one-character [c] *)
Definition remove_char (c : ascii) (s : str) : str :=
  filter (fun d => negb (Ascii.eqb d c)) s.

(** [s[-i:]] for [i >= 1] *)
Definition last_chars (i : nat) (s : str) : str := skipn (length s - i) s.

(** [s[-i+1:]] for [i >= 1]: all of [s] when [i] is 1, since [-1+1]
    is 0. *)
Definition after_minus (i : nat) (s : str) : str :=
  if i =? 1 then s else last_chars (i - 1) s.

(** "Reading in first available DICOM": the path and the content of the
    first file that reads. *)
Fixpoint first_readable (w : world) (mag_dir : str) (files : list str)
  : option (str * dicom) :=
  match files with
  | [] => None
  | file :: rest =>
      let file_path := join mag_dir file in
      match w_dicom w file_path with
      | None => first_readable w mag_dir rest
      | Some dcm => Some (file_path, dcm)
      end
  end.

(** [str(dcm.get('SeriesDescription','')).lower().replace('-','')
    .replace('_','')] *)
Definition plain_description (dcm : dicom) : str :=
  remove_char "_"%char
    (remove_char "-"%char
       (lower (match SeriesDescription dcm with
               | Some s => s
               | None => []
               end))).

(** The loop over [i], with the values still to run; [Some] is the
    [break]. *)
Fixpoint freq_loop (series_desc : str) (i_todo : list nat) : option str :=
  match i_todo with
  | [] => None
  | i :: rest =>
      if negb (isnumeric (strip (last_chars i series_desc)))
      then Some (strip (after_minus i series_desc))
      else freq_loop series_desc rest
  end.

(** What is left of [get_mmdi3d_freq(mag_dir)] once the names of the
    files of the folder are known: the frequency and what is logged. *)
Definition freq_of_files (w : world) (mag_dir : str) (files : list str)
  : str * list str :=
  match first_readable w mag_dir files with
  | None =>
      (lit "60",
       [lit "WARNING get_mmdi3d_freq(): could not determine mmdi3d frequency from directory "
        ++ mag_dir ++ lit ", assuming 60Hz"])
  | Some (file_path, dcm) =>
      let series_desc := plain_description dcm in
      let found :=
        if contains series_desc (lit "hz") then
          let series_desc :=
            lit "mre" ++ strip (before_first (lit "hz") series_desc) in
          freq_loop series_desc (seq 1 (length series_desc))
        else None in
      match found with
      | Some freq =>
          (freq,
           [lit "get_mmdi3d_freq(): Found mmdi3d frequency " ++ freq
            ++ lit "Hz"])
      | None =>
          (lit "60",
           [lit "WARNING get_mmdi3d_freq(): could not determine mmdi3d frequency from SeriesDescription of "
            ++ file_path ++ lit ", assuming 60Hz"])
      end
  end.

(** [get_mmdi3d_freq(mag_dir)]: the frequency and what is logged.
    [walk_files dir] is [next(os.walk(dir))[2]]: the names of the files
    of [dir], and [None] when [os.walk] yields nothing (a folder that is
    missing or cannot be listed), where [next] raises
    [StopIteration]. *)
Definition get_mmdi3d_freq (w : world)
    (walk_files : str -> option (list str)) (mag_dir : str)
  : outcome (str * list str) :=
  match walk_files mag_dir with
  | None => Raised StopIteration
  | Some files => Returned (freq_of_files w mag_dir files)
  end.

(** [dataset[key]], then the rest of the call. *)
Definition with_key {A B} (value : option A) (key : str)
    (rest : A -> ended B) : ended B :=
  match value with
  | Some a => rest a
  | None => KeyError key
  end.

(** [str(n)] for an integer *)
Definition str_of_int (n : Z) : str :=
  lit (NilZero.string_of_int (Z.to_int n)).

(** [run_mmdi3d_series(exe_mmdi3d, manufacturer, top_dir, dataset,
    series_dir)], with [run_cmd] the call of [run_cmd_with_logging] on
    the command and the working directory: the exit code of the
    process, or what [subprocess.Popen] or the decoding of its output
    raises. The messages logged are left out. *)
Definition run_mmdi3d_series (w : world)
    (walk_files : str -> option (list str))
    (run_cmd : str -> str -> outcome Z)
    (exe_mmdi3d manufacturer top_dir : str) (dataset : entry)
    (series_dir : str) : ended Z :=
  let args_mmdi3d :=
    lit "+liver +dicom +mag-out +pdif-out +save-checker +save-div +save-atten +verbosity 2 +max-threads 3 +file-indir "
    ++ top_dir in
  let after_format (args_mmdi3d : str) : ended Z :=
    let args_mmdi3d :=
      args_mmdi3d ++ lit " +log-dir " ++ series_dir
      ++ lit " +log-file mmdi3d.log" in
    with_key (mag dataset) (lit "mag") (fun mag_folder =>
      and_then
        (lift (get_mmdi3d_freq w walk_files (join top_dir mag_folder)))
        (fun found =>
      let freq := fst found in
      let args_mmdi3d :=
        if negb (str_eqb freq (lit "60"))
        then args_mmdi3d ++ lit " +hz " ++ freq else args_mmdi3d in
      let cmd := exe_mmdi3d ++ lit " " ++ args_mmdi3d in
      lift (run_cmd cmd (dirname exe_mmdi3d)))) in
  if str_eqb manufacturer (lit "GE") then
    with_key (mag dataset) (lit "mag") (fun mag_folder =>
      after_format (args_mmdi3d ++ lit " +iq-dir " ++ mag_folder))
  else if str_eqb manufacturer (lit "Philips") then
    with_key (mag dataset) (lit "mag") (fun mag_folder =>
      after_format
        (args_mmdi3d ++ lit " +time-direction 1 +mp-dir " ++ mag_folder))
  else if str_eqb manufacturer (lit "Siemens") then
    with_key (mag dataset) (lit "mag") (fun mag_folder =>
    with_key (phase dataset) (lit "phase") (fun phase_folder =>
      after_format
        (args_mmdi3d ++ lit " +time-direction 1 +mag-time-dir "
         ++ mag_folder ++ lit " +phs-dir " ++ phase_folder)))
  else after_format args_mmdi3d.

(** "Running mmdi3d on found data": the loop over the datasets, with
    [run_cmd call] the [call]-th run of a command. *)
Fixpoint run_datasets (w : world) (walk_files : str -> option (list str))
    (run_cmd : nat -> str -> str -> outcome Z)
    (exe_mmdi3d inversion_3d_dir : str) (d : data3d) (call : nat)
    (datasets : list entry) : ended (list str) :=
  match datasets with
  | [] => Finished []
  | dataset :: rest =>
      with_key (mag_series dataset) (lit "mag_series") (fun n =>
        let series_dir := join inversion_3d_dir (str_of_int n) in
        and_then
          (run_mmdi3d_series w walk_files (run_cmd call) exe_mmdi3d
             (manufacturer d) (top_dir d) dataset series_dir)
          (fun exit_code =>
        and_then
          (run_datasets w walk_files run_cmd exe_mmdi3d inversion_3d_dir d
             (S call) rest)
          (fun series_dirs =>
        Finished (if (exit_code =? 0)%Z then series_dir :: series_dirs
                  else series_dirs))))
  end.

(** [run_mmdi3d_case(exe_mmdi3d, inversion_3d_dir, data3d)] *)
Definition run_mmdi3d_case (w : world)
    (walk_files : str -> option (list str))
    (run_cmd : nat -> str -> str -> outcome Z)
    (exe_mmdi3d inversion_3d_dir : str) (d : data3d) : ended (list str) :=
  if no_items (data d) then Finished []
  else
    run_datasets w walk_files run_cmd exe_mmdi3d inversion_3d_dir d 0
      (data d).

End Inversion.

Import Inversion.
(* ================================================================== *)
(** * dicom_and_file_utils.py: the series of a directory tree *)
(* ================================================================== *)

Module DicomScan.

(** [x in l] for a list of strings *)
Definition str_in (x : str) (l : list str) : bool := existsb (str_eqb x) l.

Section Walk.

(** [pydicom.dcmread(path, stop_before_pixels=True)] followed by
    [dcm.get('SeriesInstanceUID')]: [None] when the read raises,
    [Some None] when the file has no such tag. *)
Variable read_uid : str -> option (option str).

(** The loop over the files of one directory. *)
Fixpoint uids_of_files (dir : str) (files : list str)
    (series_uids : list str) : outcome (list str) :=
  match files with
  | [] => Returned series_uids
  | file :: rest =>
      if endswith file (lit ".dcm") then
        let file_path := join dir file in
        match read_uid file_path with
        | None => Raised InvalidDicomError
        | Some tag =>
            let series_uid := match tag with Some uid => uid | None => [] end in
            if negb (str_in series_uid series_uids)
               && negb (str_eqb series_uid [])
            then uids_of_files dir rest (series_uids ++ [series_uid])
            else uids_of_files dir rest series_uids
        end
      else uids_of_files dir rest series_uids
  end.

(** The loop over what [os.walk(top_dir)] yields: the directories with
    their files. *)
Fixpoint uids_of_dirs (dirs : list (str * list str)) (series_uids : list str)
  : outcome (list str) :=
  match dirs with
  | [] => Returned series_uids
  | (dir, files) :: rest =>
      series_uids <- uids_of_files dir files series_uids ;;
      uids_of_dirs rest series_uids
  end.

(** [get_series_uids(top_dir)], with [walk top_dir] what
    [os.walk(top_dir)] yields. *)
Definition get_series_uids (walk : str -> list (str * list str))
    (top_dir : str) : outcome (list str) :=
  uids_of_dirs (walk top_dir) [].

End Walk.

End DicomScan.

Import DicomScan.

(* ================================================================== *)
(** * dicom_and_file_utils.py: the original version of a digest *)
(* ================================================================== *)

Module Originals.

(** [a < b] on strings: the order of the code points. *)
Fixpoint str_ltb (a b : str) : bool :=
  match a, b with
  | _, [] => false
  | [], _ :: _ => true
  | x :: a', y :: b' =>
      if nat_of_ascii x <? nat_of_ascii y then true
      else if nat_of_ascii x =? nat_of_ascii y then str_ltb a' b'
      else false
  end.

Fixpoint insert_str (x : str) (l : list str) : list str :=
  match l with
  | [] => [x]
  | y :: l' => if str_ltb x y then x :: l else y :: insert_str x l'
  end.

(** [l.sort()] on a list of strings *)
Definition sort_str (l : list str) : list str := fold_right insert_str [] l.

(** [get_original_alc2_digest(digest_path)], with [listdir dir] the
    names [os.listdir(dir)] returns, [None] when it raises. *)
Definition get_original_alc2_digest (listdir : str -> option (list str))
    (digest_path : str) : outcome str :=
  if negb (endswith (lower digest_path) (lit ".alc2"))
  then Returned (lit "ERROR")
  else
    let digest_dir := dirname digest_path in
    let digest_file := basename digest_path in
    match listdir digest_dir with
    | None => Raised OSError
    | Some names =>
        let files := filter (fun x => startswith x digest_file) names in
        if str_in (digest_file ++ lit "_01") files then
          Returned (join digest_dir (digest_file ++ lit "_01"))
        else
          let files_timestamped :=
            filter (fun x => length x =? length digest_file + 16) files in
          if 0 <? length files_timestamped then
            Returned (join digest_dir (hd [] (sort_str files_timestamped)))
          else Returned digest_path
    end.

End Originals.

Import Originals.

(* ================================================================== *)
(** * Further concrete worlds *)
(* ================================================================== *)

Module MoreExamples.

Definition newline : str := [ascii_of_nat 10].

(** A file that holds only a slice location. *)
Definition located_file (location : Q) : dicom :=
  {| SeriesDescription := None; Manufacturer := None; SequenceName := None;
     SeriesNumber := None; SliceLocation := Some location;
     pixel_array := None |}.

(** A digest with one ROI slice, its magnitude image and the series
    number 7. *)
Definition located_digest : str :=
  lit "mre.roi.slice.1 = roi1.dcm" ++ newline
  ++ lit "mre.mag.slice.1 = /scan/7/s700/i025.dcm" ++ newline
  ++ lit "mre.mag.seriesNumber = 7" ++ newline.

(** The case of that digest: the magnitude image at location 5 under
    [/inv/7/s700], and the storage folder [/inv/7/s726] with one image
    at location 4 and one at location 5. *)
Definition located_world : world :=
  {| w_conv := backslash_to_sep;
     w_exists := fun _ => true;
     w_isfile := fun path => str_eqb path (lit "/case/temp/x.alc2");
     w_isdir := fun path => negb (str_eqb path (lit "/case/temp/x.alc2"));
     w_folders := fun dir =>
       if str_eqb dir (lit "/inv") then [lit "7"]
       else if str_eqb dir (lit "/inv/7") then [lit "s700"; lit "s726"]
       else [];
     w_files := fun dir =>
       if str_eqb dir (lit "/inv/7/s726") then [lit "a.dcm"; lit "b.dcm"]
       else [];
     w_text := fun path =>
       if str_eqb path (lit "/case/temp/x.alc2") then Some located_digest
       else None;
     w_dicom := fun path =>
       if str_eqb path (lit "/inv/7/s700/i025.dcm")
       then Some (located_file 5)
       else if str_eqb path (lit "/inv/7/s726/a.dcm")
       then Some (located_file 4)
       else if str_eqb path (lit "/inv/7/s726/b.dcm")
       then Some (located_file 5)
       else None;
     w_empty := fun n => repeat None n |}.

(** A digest that records an ROI image and a stiffness image under the
    directory of another machine. *)
Definition paired_digest : str :=
  lit "mre.roi.slice.1 = /old/temp/roi1.dcm" ++ newline
  ++ lit "mre.stiff.slice.1 = /old/temp/stiff1.dcm" ++ newline
  ++ lit "mre.mag.seriesNumber = 7" ++ newline.

(** The case of that digest: the two images lie beside the digest. *)
Definition paired_world : world :=
  {| w_conv := backslash_to_sep;
     w_exists := fun path =>
       str_eqb path (lit "/case/temp/roi1.dcm")
       || str_eqb path (lit "/case/temp/stiff1.dcm");
     w_isfile := fun _ => true;
     w_isdir := fun _ => false;
     w_folders := fun _ => [];
     w_files := fun _ => [];
     w_text := fun path =>
       if str_eqb path (lit "/case/temp/x.alc2") then Some paired_digest
       else None;
     w_dicom := fun path =>
       if str_eqb path (lit "/case/temp/roi1.dcm")
       then Some (image_file [[0; 3]; [0; 2]]%Q)
       else if str_eqb path (lit "/case/temp/stiff1.dcm")
       then Some (image_file [[10; 20]; [30; 40]]%Q)
       else None;
     w_empty := fun n => repeat None n |}.

(** The same case with the stiffness image missing. *)
Definition unpaired_world : world :=
  {| w_conv := backslash_to_sep;
     w_exists := fun path => str_eqb path (lit "/case/temp/roi1.dcm");
     w_isfile := fun _ => true;
     w_isdir := fun _ => false;
     w_folders := fun _ => [];
     w_files := fun _ => [];
     w_text := fun path =>
       if str_eqb path (lit "/case/temp/x.alc2") then Some paired_digest
       else None;
     w_dicom := fun _ => None;
     w_empty := fun n => repeat None n |}.

(** A digest that records an ROI image and a fat fraction image. *)
Definition fat_digest : str :=
  lit "fw.roi.slice.1 = /old/temp/roi1.dcm" ++ newline
  ++ lit "fw.ffrac.slice.1 = /old/temp/ff1.dcm" ++ newline.

(** The case of that digest: a 2x2 ROI image and a 1x1 fat fraction
    image beside the digest. *)
Definition fat_world : world :=
  {| w_conv := backslash_to_sep;
     w_exists := fun path =>
       str_eqb path (lit "/case/temp/roi1.dcm")
       || str_eqb path (lit "/case/temp/ff1.dcm");
     w_isfile := fun _ => true;
     w_isdir := fun _ => false;
     w_folders := fun _ => [];
     w_files := fun _ => [];
     w_text := fun path =>
       if str_eqb path (lit "/case/temp/x.alc2") then Some fat_digest
       else None;
     w_dicom := fun path =>
       if str_eqb path (lit "/case/temp/roi1.dcm")
       then Some (image_file [[0; 3]; [0; 2]]%Q)
       else if str_eqb path (lit "/case/temp/ff1.dcm")
       then Some (image_file [[50]]%Q)
       else None;
     w_empty := fun n => repeat None n |}.

(** Every header has the slope 2 and the intercept 0. *)
Definition slope_only_header (path : str) : option rescale_tags :=
  Some {| RescaleSlope := Some 2%Q; RescaleIntercept := Some 0%Q;
          ImageComments := None |}.

(** A tree of two directories: two files of the series [1.2], a text
    file, and one file without series. *)
Definition uid_walk (top_dir : str) : list (str * list str) :=
  [(top_dir, [lit "a.dcm"; lit "notes.txt"]);
   (join top_dir (lit "sub"), [lit "b.dcm"; lit "c.dcm"])].

Definition uid_of_file (path : str) : option (option str) :=
  if str_eqb path (lit "/top/sub/c.dcm") then Some None
  else Some (Some (lit "1.2")).

(** A directory with a digest and two earlier versions of it. *)
Definition versions_listdir (dir : str) : option (list str) :=
  if str_eqb dir (lit "/case/temp")
  then Some [lit "x.alc2"; lit "x.alc2_20240102_030405";
             lit "x.alc2_20230102_030405"; lit "y.alc2"]
  else None.

(** Every folder can be listed: [next(os.walk(dir))[2]] is the list of
    files of the world. *)
Definition listed (w : world) (dir : str) : option (list str) :=
  Some (w_files w dir).

(** No folder can be listed. *)
Definition unlisted (dir : str) : option (list str) := None.

(** A scan with one GE dataset, in folder [A], of series 5. *)
Definition one_dataset : data3d :=
  {| top_dir := lit "/top"; manufacturer := lit "GE";
     data := [ {| mag := Some (lit "A"); mag_series := Some 5%Z;
                  phase := None; phase_series := None |} ] |}.

(** Every run of a command ends with the exit code 0. *)
Definition run_ok (call : nat) (cmd cwd : str) : outcome Z := Returned 0%Z.

(** Two image files: a 2x2 image and a 1x2 image. *)
Definition row_world : world :=
  image_world
    [(lit "a.dcm", [[1; 2]; [3; 4]]%Q); (lit "b.dcm", [[5; 6]]%Q)]
    (fun n => repeat None n).

End MoreExamples.

Import MoreExamples.

(* ================================================================== *)
(** * The vocabulary of the further properties *)
(* ================================================================== *)

Module Invariants.

(** A text that is empty or starts with no white space. *)
Definition starts_solid (s : str) : Prop :=
  match s with
  | [] => True
  | x :: _ => is_space x = false
  end.

(** What every item of a parsed content satisfies: key and value are
    trimmed, the key holds neither [=] nor [%], the value no [%]. *)
Definition well_formed_item (item : str * str) : Prop :=
  strip (fst item) = fst item /\ strip (snd item) = snd item /\
  has_char "="%char (fst item) = false /\
  has_char "%"%char (fst item) = false /\
  has_char "%"%char (snd item) = false.

(** What every entry of a scan satisfies: a folder comes with its series
    number, at least one half is there, and two halves are paired by
    [phase_series = mag_series + 1]. *)
Definition entry_ok (e : entry) : Prop :=
  has (mag e) = has (mag_series e) /\
  has (phase e) = has (phase_series e) /\
  has (mag e) || has (phase e) = true /\
  (forall m p, mag_series e = Some m -> phase_series e = Some p ->
               p = (m + 1)%Z).

(** A contrast path of a slice: not set, or the path of a file that
    reads as a DICOM with the location of the slice, which is a true
    value. *)
Definition path_ok (w : world) (r : slice_rec) (c : contrast) : Prop :=
  get_path r c = [] \/
  (truthy (slice_location r) = true /\
   exists dcm, w_dicom w (get_path r c) = Some dcm /\
               location_eqb (SliceLocation dcm) (slice_location r) = true).

(** The items [get_dcm_paths_from_digest] takes from the content of a
    digest, and what it makes of one. *)
Definition dcm_selected (key_start : str) (item : str * str) : bool :=
  startswith (fst item) key_start && endswith (lower (snd item)) (lit ".dcm").

Definition dcm_located (w : world) (digest_path : str) (item : str * str)
  : str * str :=
  (fst item,
   find_existing_composite_path (w_conv w) (w_exists w) digest_path
     (snd item)).

(** A dataset that has every key [run_mmdi3d_case] reads: the magnitude
    series and folder, and the phase folder for Siemens data. *)
Definition runnable (manufacturer : str) (e : entry) : bool :=
  has (mag_series e) && has (mag e)
  && (negb (str_eqb manufacturer (lit "Siemens")) || has (phase e)).

End Invariants.

Import Invariants.
(* ================================================================== *)
(** * Facts about strings and POSIX paths *)
(* ================================================================== *)

#[local] Arguments Ascii.eqb : simpl never.

Section StrFacts.

Lemma str_eqb_refl (a : str) : str_eqb a a = true.
Proof. induction a; simpl; [ | rewrite Ascii.eqb_refl ]; auto. Qed.

Lemma str_eqb_eq (a b : str) : str_eqb a b = true <-> a = b.
Proof.
  split.
  - revert b; induction a as [ | c a IH ]; destruct b as [ | d b ];
      simpl; try discriminate; auto.
    intros H. apply andb_prop in H as [H1 H2].
    apply Ascii.eqb_eq in H1. subst d. f_equal. auto.
  - intros ->. apply str_eqb_refl.
Qed.

Lemma str_eqb_neq (a b : str) : str_eqb a b = false <-> a <> b.
Proof.
  rewrite <- str_eqb_eq. destruct (str_eqb a b); split; congruence.
Qed.

Lemma rfind1_no_sep (c : str) : no_sep c = true -> rfind1 c = 0.
Proof.
  induction c as [ | x c IH ]; simpl; auto.
  intros H. apply andb_prop in H as [Hx Hc].
  rewrite (IH Hc). destruct (is_sep x); [ discriminate | reflexivity ].
Qed.

Lemma rfind1_app_sep (p c : str) :
  no_sep c = true -> rfind1 (p ++ sep :: c) = S (length p).
Proof.
  intros Hc. induction p as [ | x p IH ]; simpl.
  - rewrite (rfind1_no_sep c Hc). reflexivity.
  - rewrite IH. reflexivity.
Qed.

Lemma rfind1_le (p : str) : rfind1 p <= length p.
Proof.
  induction p as [ | x p IH ]; simpl; auto.
  destruct (rfind1 p); [ destruct (is_sep x) | ]; lia.
Qed.

Lemma rstrip_sep_prefix (p : str) : exists t, p = rstrip_sep p ++ t.
Proof.
  induction p as [ | x p [t Ht] ]; simpl.
  - exists []; reflexivity.
  - destruct (rstrip_sep p) as [ | y r ] eqn:E.
    + destruct (is_sep x).
      * exists (x :: p); reflexivity.
      * exists p. simpl. simpl in Ht. congruence.
    + exists t. simpl. f_equal. exact Ht.
Qed.

Lemma rstrip_sep_snoc_sep (p : str) : rstrip_sep (p ++ [sep]) = rstrip_sep p.
Proof.
  induction p as [ | x p IH ]; simpl; auto.
  rewrite IH. reflexivity.
Qed.

Lemma rstrip_sep_snoc_other (p : str) (x : ascii) :
  is_sep x = false -> rstrip_sep (p ++ [x]) = p ++ [x].
Proof.
  intros Hx. induction p as [ | y p IH ]; simpl.
  - rewrite Hx. reflexivity.
  - rewrite IH. destruct (p ++ [x]) eqn:E; [ | reflexivity ].
    destruct p; discriminate.
Qed.

End StrFacts.

Section DirnameShrinks.

Lemma head_of_prefix (p : str) : exists t, p = head_of p ++ t.
Proof.
  unfold head_of.
  destruct (negb (is_empty (firstn (rfind1 p) p)) &&
            negb (forallb is_sep (firstn (rfind1 p) p))).
  - destruct (rstrip_sep_prefix (firstn (rfind1 p) p)) as [t Ht].
    exists (t ++ skipn (rfind1 p) p).
    rewrite app_assoc, <- Ht. symmetry. apply firstn_skipn.
  - exists (skipn (rfind1 p) p). symmetry. apply firstn_skipn.
Qed.

Lemma dirname_length_le (p : str) : length (dirname p) <= length p.
Proof.
  destruct (head_of_prefix p) as [t Ht]. unfold dirname.
  rewrite Ht at 2. rewrite length_app. lia.
Qed.

(** The loop of [num_path_elems] strictly shrinks the path. *)
Lemma dirname_shrinks (p : str) :
  dirname p <> p -> length (dirname p) < length p.
Proof.
  intros Hne. destruct (head_of_prefix p) as [t Ht]. unfold dirname in *.
  destruct t as [ | x t ].
  - rewrite app_nil_r in Ht. congruence.
  - rewrite Ht at 2. rewrite length_app. simpl. lia.
Qed.

End DirnameShrinks.

Section CountLoop.

Variable conv : str -> str.

(** Enough fuel: the loop of [num_path_elems] ends, after at most as many
    turns as the path has characters. *)
Lemma num_path_elems_loop_ends (fuel : nat) :
  forall (p : str) (c : Z),
    length p < fuel ->
    exists r, num_path_elems_loop fuel p c = Some r /\
              (c <= r <= c + Z.of_nat (length p))%Z.
Proof.
  induction fuel as [ | fuel IH ]; intros p c Hlt; [ lia | ].
  simpl. destruct (str_eqb p (dirname p)) eqn:E; simpl.
  - exists c. split; [ reflexivity | lia ].
  - apply str_eqb_neq in E.
    assert (Hs : length (dirname p) < length p)
      by (apply dirname_shrinks; congruence).
    destruct (IH (dirname p) (c + 1)%Z) as [r [Hr Hb]]; [ lia | ].
    exists r. split; [ exact Hr | lia ].
Qed.

(** The result does not depend on the fuel that is left over. *)
Lemma num_path_elems_loop_fuel (f1 : nat) :
  forall (f2 : nat) (p : str) (c r : Z),
    num_path_elems_loop f1 p c = Some r -> f1 <= f2 ->
    num_path_elems_loop f2 p c = Some r.
Proof.
  induction f1 as [ | f1 IH ]; intros f2 p c r H Hle; [ discriminate | ].
  destruct f2 as [ | f2 ]; [ lia | ].
  simpl in *. destruct (negb (str_eqb p (dirname p))); auto.
  apply IH; [ exact H | lia ].
Qed.

Lemma num_path_elems_loop_shift (fuel : nat) :
  forall (p : str) (c d r : Z),
    num_path_elems_loop fuel p c = Some r ->
    num_path_elems_loop fuel p (c + d) = Some (r + d)%Z.
Proof.
  induction fuel as [ | fuel IH ]; intros p c d r H; [ discriminate | ].
  simpl in *. destruct (negb (str_eqb p (dirname p))).
  - replace (c + d + 1)%Z with (c + 1 + d)%Z by lia. apply IH. exact H.
  - inversion H. reflexivity.
Qed.

(** [num_path_elems(path, clean_path_first=False)] obeys the equation of
    its loop. *)
Lemma num_path_elems_unfold (p : str) :
  num_path_elems_from conv false p =
  if str_eqb p (dirname p) then 0%Z
  else (num_path_elems_from conv false (dirname p) + 1)%Z.
Proof.
  unfold num_path_elems_from.
  change (num_path_elems_loop (S (length p)) p 0)
    with (if negb (str_eqb p (dirname p))
          then num_path_elems_loop (length p) (dirname p) (0 + 1)
          else Some 0%Z).
  destruct (str_eqb p (dirname p)) eqn:E; cbn [negb]; [ reflexivity | ].
  apply str_eqb_neq in E.
  assert (Hs : length (dirname p) < length p)
    by (apply dirname_shrinks; congruence).
  destruct (num_path_elems_loop_ends (S (length (dirname p))) (dirname p) 0%Z)
    as [r [Hr _]]; [ lia | ].
  rewrite Hr.
  apply num_path_elems_loop_fuel with (f2 := length p) in Hr; [ | lia ].
  apply num_path_elems_loop_shift with (d := 1%Z) in Hr.
  rewrite Hr. reflexivity.
Qed.

Lemma num_path_elems_true (path : str) :
  num_path_elems conv path =
  num_path_elems_from conv false (os_clean_path conv path).
Proof. reflexivity. Qed.

End CountLoop.

(** ** Paths as component lists *)

Section Components.

Lemma join_char_snoc (cs : list str) (c : str) :
  cs <> [] -> join_char sep (cs ++ [c]) = join_char sep cs ++ sep :: c.
Proof.
  induction cs as [ | a cs IH ]; intros Hne; [ congruence | ].
  destruct cs as [ | b cs ]; [ reflexivity | ].
  change (join_char sep ((a :: b :: cs) ++ [c]))
    with (a ++ sep :: join_char sep ((b :: cs) ++ [c])).
  rewrite IH by discriminate.
  change (join_char sep (a :: b :: cs))
    with (a ++ sep :: join_char sep (b :: cs)).
  rewrite <- app_assoc. reflexivity.
Qed.

Lemma join_char_app (cs ts : list str) :
  cs <> [] -> ts <> [] ->
  join_char sep (cs ++ ts) = join_char sep cs ++ sep :: join_char sep ts.
Proof.
  intros Hc Ht. induction cs as [ | a cs IH ]; [ congruence | ].
  destruct cs as [ | b cs ].
  - destruct ts; [ congruence | reflexivity ].
  - change (join_char sep ((a :: b :: cs) ++ ts))
      with (a ++ sep :: join_char sep ((b :: cs) ++ ts)).
    rewrite IH by discriminate.
    change (join_char sep (a :: b :: cs))
      with (a ++ sep :: join_char sep (b :: cs)).
    rewrite <- app_assoc. reflexivity.
Qed.

Lemma good_comp_ends_plain (c : str) : good_comp c = true -> ends_plain c.
Proof.
  unfold good_comp. intros H. apply andb_prop in H as [Hne Hns].
  destruct (exists_last (l := c)) as [s' [x Hx]].
  { destruct c; [ discriminate | discriminate ]. }
  exists s', x. split; [ exact Hx | ].
  subst c. unfold no_sep in Hns. rewrite forallb_app in Hns.
  apply andb_prop in Hns as [_ Hns]. simpl in Hns.
  destruct (is_sep x); [ discriminate | reflexivity ].
Qed.

Lemma ends_plain_app (a b : str) : ends_plain b -> ends_plain (a ++ b).
Proof.
  intros [s' [x [-> Hx]]]. exists (a ++ s'), x.
  rewrite app_assoc. auto.
Qed.

Lemma join_ends_plain (cs : list str) :
  cs <> [] -> good_comps cs = true -> ends_plain (join_char sep cs).
Proof.
  induction cs as [ | a cs IH ]; intros Hne Hg; [ congruence | ].
  simpl in Hg. apply andb_prop in Hg as [Ha Hcs].
  destruct cs as [ | b cs ].
  - apply good_comp_ends_plain. exact Ha.
  - change (join_char sep (a :: b :: cs))
      with (a ++ sep :: join_char sep (b :: cs)).
    apply ends_plain_app. apply (ends_plain_app [sep]).
    apply IH; [ discriminate | exact Hcs ].
Qed.

Lemma ends_plain_not_all_sep (s : str) :
  ends_plain s -> forallb is_sep s = false.
Proof.
  intros [s' [x [-> Hx]]]. rewrite forallb_app. simpl. rewrite Hx.
  rewrite andb_false_r. reflexivity.
Qed.

Lemma ends_plain_rstrip (s : str) : ends_plain s -> rstrip_sep s = s.
Proof.
  intros [s' [x [-> Hx]]]. apply rstrip_sep_snoc_other. exact Hx.
Qed.

Lemma ends_plain_endswith (s : str) : ends_plain s -> endswith s [sep] = false.
Proof.
  intros [s' [x [-> Hx]]]. unfold endswith. rewrite rev_app_distr. simpl.
  unfold is_sep in Hx. rewrite Ascii.eqb_sym, Hx. reflexivity.
Qed.

Lemma ends_plain_nonempty (s : str) : ends_plain s -> is_empty s = false.
Proof. intros [s' [x [-> _]]]. destruct s'; reflexivity. Qed.

Lemma good_comp_no_sep (c : str) : good_comp c = true -> no_sep c = true.
Proof. unfold good_comp. intros H. apply andb_prop in H. tauto. Qed.

Lemma good_comp_starts_plain (c t : str) :
  good_comp c = true -> startswith (c ++ t) [sep] = false.
Proof.
  unfold good_comp, no_sep. destruct c as [ | x c ]; [ discriminate | ].
  simpl. unfold is_sep. intros H. rewrite Ascii.eqb_sym.
  destruct (Ascii.eqb x sep); [ discriminate | reflexivity ].
Qed.

Lemma join_starts_plain (ts : list str) :
  good_comps ts = true -> startswith (join_char sep ts) [sep] = false.
Proof.
  destruct ts as [ | a ts ]; [ reflexivity | ].
  simpl. intros H. apply andb_prop in H as [Ha _].
  destruct ts.
  - rewrite <- (app_nil_r a). apply good_comp_starts_plain. exact Ha.
  - apply good_comp_starts_plain. exact Ha.
Qed.

(** [split] takes the last component off. *)
Lemma split_render (abs : bool) (cs : list str) (c : str) :
  good_comps cs = true -> good_comp c = true ->
  split (render abs (cs ++ [c])) = (render abs cs, c).
Proof.
  intros Hcs Hc. pose proof (good_comp_no_sep c Hc) as Hns.
  unfold split, head_of, render.
  destruct cs as [ | a cs ].
  - destruct abs; simpl root; simpl join_char.
    + change ([sep] ++ c) with ([] ++ sep :: c).
      rewrite rfind1_app_sep by exact Hns. reflexivity.
    + simpl. rewrite rfind1_no_sep by exact Hns. reflexivity.
  - rewrite join_char_snoc by discriminate.
    rewrite app_assoc. rewrite rfind1_app_sep by exact Hns.
    set (q := root abs ++ join_char sep (a :: cs)).
    assert (Hq : ends_plain q).
    { apply ends_plain_app. apply join_ends_plain; [ discriminate | exact Hcs ]. }
    replace (firstn (S (length q)) (q ++ sep :: c)) with (q ++ [sep]).
    2:{ change (q ++ sep :: c) with (q ++ [sep] ++ c). rewrite app_assoc.
        rewrite firstn_app.
        replace (S (length q)) with (length (q ++ [sep]))
          by (rewrite length_app; simpl; lia).
        rewrite firstn_all, Nat.sub_diag. simpl. rewrite app_nil_r.
        reflexivity. }
    replace (skipn (S (length q)) (q ++ sep :: c)) with c.
    2:{ change (q ++ sep :: c) with (q ++ [sep] ++ c). rewrite app_assoc.
        rewrite skipn_app.
        replace (S (length q)) with (length (q ++ [sep]))
          by (rewrite length_app; simpl; lia).
        rewrite skipn_all, Nat.sub_diag. reflexivity. }
    rewrite forallb_app, (ends_plain_not_all_sep q Hq). 
    replace (is_empty (q ++ [sep])) with false by (destruct q; reflexivity).
    simpl. rewrite rstrip_sep_snoc_sep, (ends_plain_rstrip q Hq).
    reflexivity.
Qed.

Lemma dirname_render (abs : bool) (cs : list str) (c : str) :
  good_comps cs = true -> good_comp c = true ->
  dirname (render abs (cs ++ [c])) = render abs cs.
Proof.
  intros Hcs Hc. pose proof (split_render abs cs c Hcs Hc) as H.
  unfold split in H. inversion H. reflexivity.
Qed.

Lemma dirname_root (abs : bool) : dirname (root abs) = root abs.
Proof. destruct abs; reflexivity. Qed.

(** [join] puts components back. *)
Lemma join_render (abs : bool) (cs ts : list str) :
  good_comps cs = true -> good_comps ts = true -> ts <> [] ->
  join (render abs cs) (join_char sep ts) = render abs (cs ++ ts).
Proof.
  intros Hcs Hts Hne. unfold join.
  rewrite (join_starts_plain ts Hts).
  destruct cs as [ | a cs ].
  - unfold render. simpl join_char. rewrite app_nil_r.
    destruct abs; reflexivity.
  - unfold render.
    assert (Hq : ends_plain (root abs ++ join_char sep (a :: cs))).
    { apply ends_plain_app. apply join_ends_plain; [ discriminate | exact Hcs ]. }
    rewrite (ends_plain_nonempty _ Hq), (ends_plain_endswith _ Hq).
    simpl orb. cbv iota.
    rewrite join_char_app by (discriminate || exact Hne).
    rewrite <- app_assoc. reflexivity.
Qed.

Lemma join_comp (c : str) (ts : list str) :
  good_comp c = true -> good_comps ts = true -> ts <> [] ->
  join c (join_char sep ts) = join_char sep (c :: ts).
Proof.
  intros Hc Hts Hne.
  pose proof (join_render false [c] ts) as H. unfold render in H.
  simpl root in H. simpl app in H. simpl join_char at 1 in H.
  rewrite H; auto. simpl. rewrite Hc. reflexivity.
Qed.

Lemma render_snoc_neq (abs : bool) (cs : list str) (c : str) :
  good_comp c = true -> render abs (cs ++ [c]) <> render abs cs.
Proof.
  intros Hc E. apply (f_equal (@length ascii)) in E. unfold render in E.
  rewrite !length_app in E.
  assert (Hl : 0 < length c).
  { unfold good_comp in Hc. destruct c; [ discriminate | simpl; lia ]. }
  destruct cs as [ | a cs ].
  - simpl in E. lia.
  - rewrite join_char_snoc in E by discriminate.
    rewrite length_app in E. simpl in E. lia.
Qed.

Variable conv : str -> str.

(** The element count of a path is the number of its components. *)
Lemma num_path_elems_render (abs : bool) (cs : list str) :
  good_comps cs = true ->
  num_path_elems_from conv false (render abs cs) = Z.of_nat (length cs).
Proof.
  induction cs as [ | c cs IH ] using rev_ind; intros Hg.
  - rewrite num_path_elems_unfold. unfold render. simpl join_char.
    rewrite app_nil_r, dirname_root, str_eqb_refl. reflexivity.
  - unfold good_comps in Hg. rewrite forallb_app in Hg.
    apply andb_prop in Hg as [Hcs Hc]. simpl in Hc. rewrite andb_true_r in Hc.
    rewrite num_path_elems_unfold, dirname_render by assumption.
    destruct (str_eqb (render abs (cs ++ [c])) (render abs cs)) eqn:E.
    + apply str_eqb_eq in E. exfalso. revert E. apply render_snoc_neq. exact Hc.
    + rewrite IH by exact Hcs. rewrite length_app. simpl. lia.
Qed.

(** [k] turns of the loop of [path_split] move [k] components from the
    head to the tail. *)
Lemma path_split_loop_render (abs : bool) (cs1 cs2 : list str) :
  forall ts : list str,
    good_comps (cs1 ++ cs2) = true -> good_comps ts = true -> ts <> [] ->
    path_split_loop (length cs2) (render abs (cs1 ++ cs2))
      (join_char sep ts)
    = (render abs cs1, join_char sep (cs2 ++ ts)).
Proof.
  induction cs2 as [ | c cs2 IH ] using rev_ind; intros ts Hg Hts Hne.
  - rewrite app_nil_r. reflexivity.
  - rewrite length_app, Nat.add_comm. cbn [length Nat.add path_split_loop].
    unfold good_comps in Hg. rewrite app_assoc, forallb_app in Hg.
    apply andb_prop in Hg as [Hcs Hc]. simpl in Hc. rewrite andb_true_r in Hc.
    rewrite app_assoc, split_render by assumption.
    rewrite join_comp by assumption.
    rewrite IH; [ | exact Hcs | simpl; rewrite Hc; exact Hts | discriminate ].
    rewrite <- app_assoc. reflexivity.
Qed.

(** [path_split] without cleaning, on a path given by its components. *)
Lemma path_split_render (abs : bool) (cs1 cs2 : list str) :
  good_comps (cs1 ++ cs2) = true -> cs2 <> [] ->
  path_split_from conv false (render abs (cs1 ++ cs2))
    (Z.of_nat (length cs2))
  = (render abs cs1, join_char sep cs2).
Proof.
  intros Hg Hne. unfold path_split_from.
  destruct (exists_last Hne) as [cs2' [c ->]].
  assert (Hn : (Z.of_nat (length (cs2' ++ [c])) <? 1)%Z = false).
  { rewrite length_app. simpl. apply Z.ltb_ge. lia. }
  rewrite Hn.
  unfold good_comps in Hg. rewrite app_assoc, forallb_app in Hg.
  apply andb_prop in Hg as [Hcs Hc]. simpl in Hc. rewrite andb_true_r in Hc.
  rewrite app_assoc, split_render by assumption.
  assert (Hr : length (py_range 1 (Z.of_nat (length (cs2' ++ [c]))))
               = length cs2').
  { unfold py_range. rewrite length_map, length_seq, length_app. simpl. lia. }
  rewrite Hr.
  pose proof (path_split_loop_render abs cs1 cs2' [c]) as H.
  simpl join_char at 1 in H. rewrite H; auto; [ | discriminate ].
  simpl. rewrite Hc. reflexivity.
Qed.

End Components.

(** ** The normal form of a cleaned path *)

Section NormalForm.

Lemma lead_dd_app_l (cs1 cs2 : list str) :
  lead_dd (cs1 ++ cs2) = true -> lead_dd cs1 = true.
Proof.
  induction cs1 as [ | a cs1 IH ]; simpl; auto.
  destruct (is_dd a); auto.
  rewrite forallb_app. intros H. apply andb_prop in H. tauto.
Qed.

Lemma tidy_app_l (abs : bool) (cs1 cs2 : list str) :
  tidy abs (cs1 ++ cs2) = true -> tidy abs cs1 = true.
Proof.
  unfold tidy, good_comps. rewrite !forallb_app. intros H.
  apply andb_prop in H as [H H3]. apply andb_prop in H as [H1 H2].
  apply andb_prop in H1 as [H1 _]. apply andb_prop in H2 as [H2 _].
  rewrite H1, H2. simpl. destruct abs.
  - apply andb_prop in H3. tauto.
  - eapply lead_dd_app_l. exact H3.
Qed.

Lemma tidy_good (abs : bool) (cs : list str) :
  tidy abs cs = true -> good_comps cs = true.
Proof.
  unfold tidy. intros H. apply andb_prop in H as [H _].
  apply andb_prop in H. tauto.
Qed.

Lemma tidy_removelast (abs : bool) (cs : list str) :
  tidy abs cs = true -> tidy abs (removelast cs) = true.
Proof.
  intros H. destruct cs as [ | a cs ]; [ exact H | ].
  rewrite (app_removelast_last [] (l := a :: cs)) in H by discriminate.
  eapply tidy_app_l. exact H.
Qed.

Lemma forallb_last {A} (P : A -> bool) (l : list A) (d : A) :
  forallb P l = true -> l <> [] -> P (last l d) = true.
Proof.
  intros H Hne.
  rewrite (app_removelast_last d Hne), forallb_app in H.
  apply andb_prop in H as [_ H]. simpl in H. rewrite andb_true_r in H.
  exact H.
Qed.

Lemma lead_dd_snoc_plain (cs : list str) (c : str) :
  lead_dd cs = true -> not_dd c = true -> lead_dd (cs ++ [c]) = true.
Proof.
  intros H Hc. induction cs as [ | a cs IH ]; simpl.
  - unfold is_dd. unfold not_dd in Hc.
    destruct (str_eqb c dotdot); [ discriminate | reflexivity ].
  - simpl in H. destruct (is_dd a); auto.
    rewrite forallb_app, H. simpl. rewrite Hc. reflexivity.
Qed.

Lemma lead_dd_last_dd (cs : list str) :
  lead_dd cs = true -> cs <> [] -> is_dd (last cs []) = true ->
  forallb is_dd cs = true.
Proof.
  induction cs as [ | a cs IH ]; intros H Hne Hl; [ congruence | ].
  simpl in H. cbn [forallb]. destruct (is_dd a) eqn:Ea.
  - destruct cs as [ | b cs ]; [ reflexivity | ].
    apply IH; [ exact H | discriminate | exact Hl ].
  - exfalso. destruct cs as [ | b cs ].
    + simpl in Hl. congruence.
    + assert (Hn : not_dd (last (b :: cs) []) = true)
        by (apply forallb_last; [ exact H | discriminate ]).
      change (last (a :: b :: cs) []) with (last (b :: cs) []) in Hl.
      unfold not_dd, is_dd in *. rewrite Hl in Hn. discriminate.
Qed.

Lemma all_dd_lead (cs : list str) (ts : list str) :
  forallb is_dd cs = true -> lead_dd ts = true -> lead_dd (cs ++ ts) = true.
Proof.
  induction cs as [ | a cs IH ]; simpl; auto.
  intros H Ht. apply andb_prop in H as [Ha Hcs]. rewrite Ha. auto.
Qed.

Lemma lead_dd_before_dd (cs ts : list str) :
  lead_dd (cs ++ dotdot :: ts) = true -> forallb is_dd cs = true.
Proof.
  induction cs as [ | a cs IH ]; simpl; auto.
  destruct (is_dd a); simpl; auto.
  rewrite forallb_app. simpl. intros H. apply andb_prop in H as [_ H].
  discriminate.
Qed.

Lemma split_char_no_sep (s : str) :
  forallb no_sep (split_char sep s) = true.
Proof.
  induction s as [ | x s IH ]; [ reflexivity | ].
  cbn [split_char]. destruct (Ascii.eqb x sep) eqn:E.
  - simpl. exact IH.
  - destruct (split_char sep s) as [ | w ws ].
    + simpl. unfold is_sep. rewrite E. reflexivity.
    + simpl in IH |- *. unfold is_sep at 1. rewrite E. exact IH.
Qed.

(** One turn of the loop of [normpath] keeps the list tidy. *)
Lemma norm_step_tidy (n : nat) (acc : list str) (comp : str) :
  no_sep comp = true ->
  tidy (negb (n =? 0)) acc = true ->
  tidy (negb (n =? 0)) (norm_step n acc comp) = true.
Proof.
  intros Hns Hacc. unfold norm_step.
  destruct (is_empty comp) eqn:Ee; [ exact Hacc | ].
  destruct (str_eqb comp dot) eqn:Ed; [ exact Hacc | ].
  cbn [orb].
  destruct (negb (str_eqb comp dotdot)
            || (n =? 0) && no_items acc
            || negb (no_items acc) && str_eqb (last acc []) dotdot) eqn:Ec.
  2:{ apply tidy_removelast. exact Hacc. }
  unfold tidy, good_comps in *. rewrite !forallb_app.
  apply andb_prop in Hacc as [Hacc H3]. apply andb_prop in Hacc as [H1 H2].
  rewrite H1, H2. cbn [forallb]. unfold good_comp, not_dot.
  rewrite Ee, Hns, Ed. cbn [negb andb].
  destruct (n =? 0) eqn:En; cbn [negb] in *.
  - (* relative *)
    destruct (str_eqb comp dotdot) eqn:Edd; cbn [negb orb andb] in Ec.
    + apply str_eqb_eq in Edd. subst comp.
      destruct acc as [ | a acc ]; [ reflexivity | ].
      cbn [no_items negb andb orb] in Ec.
      apply all_dd_lead; [ | reflexivity ].
      apply lead_dd_last_dd; [ exact H3 | discriminate | exact Ec ].
    + apply lead_dd_snoc_plain; [ exact H3 | ].
      unfold not_dd. rewrite Edd. reflexivity.
  - (* absolute *)
    rewrite H3. cbn [forallb andb]. rewrite andb_true_r.
    unfold not_dd. destruct (str_eqb comp dotdot) eqn:Edd; [ | reflexivity ].
    cbn [negb orb andb] in Ec. exfalso.
    destruct acc as [ | a acc ]; [ discriminate | ].
    cbn [no_items negb andb] in Ec.
    assert (Hn : not_dd (last (a :: acc) []) = true)
      by (apply forallb_last; [ exact H3 | discriminate ]).
    unfold not_dd in Hn. rewrite Ec in Hn. discriminate.
Qed.

Lemma norm_fold_tidy (n : nat) (comps : list str) :
  forall acc : list str,
    forallb no_sep comps = true ->
    tidy (negb (n =? 0)) acc = true ->
    tidy (negb (n =? 0)) (fold_left (norm_step n) comps acc) = true.
Proof.
  induction comps as [ | c comps IH ]; intros acc Hc Hacc; [ exact Hacc | ].
  simpl in Hc |- *. apply andb_prop in Hc as [Hc1 Hc2].
  apply IH; [ exact Hc2 | ]. apply norm_step_tidy; assumption.
Qed.

Lemma clean_shape_good (abs : bool) (cs : list str) :
  clean_shape abs cs -> good_comps cs = true.
Proof.
  intros [[H _] | [_ ->]]; [ eapply tidy_good; exact H | reflexivity ].
Qed.

Lemma clean_shape_nonempty (abs : bool) (cs : list str) :
  clean_shape abs cs -> abs = true \/ cs <> [].
Proof. intros [[_ H] | [_ ->]]; [ exact H | right; discriminate ]. Qed.

Variable conv : str -> str.

Lemma os_clean_path_shape (path : str) :
  exists abs cs,
    os_clean_path conv path = render abs cs /\ clean_shape abs cs.
Proof.
  unfold os_clean_path.
  set (q := if has_char backslash path then conv path else path).
  clearbody q. unfold normpath.
  destruct (is_empty q) eqn:Eq.
  { exists false, [dot]. split; [ reflexivity | right; auto ]. }
  set (n := if startswith q [sep]
            then if startswith q [sep; sep] &&
                    negb (startswith q [sep; sep; sep]) then 2 else 1
            else 0).
  assert (Hn : n = 0 \/ n = 1 \/ n = 2).
  { subst n. destruct (startswith q [sep]); auto.
    destruct (startswith q [sep; sep] && negb (startswith q [sep; sep; sep]));
      auto. }
  clearbody n.
  set (new := fold_left (norm_step n) (split_char sep q) []).
  assert (Ht : tidy (negb (n =? 0)) new = true).
  { apply norm_fold_tidy; [ apply split_char_no_sep | ].
    destruct (n =? 0); reflexivity. }
  clearbody new.
  pose proof (join_starts_plain new (tidy_good _ _ Ht)) as Hs.
  destruct Hn as [-> | [-> | ->]]; cbn [repeat app Nat.eqb negb] in *.
  - destruct new as [ | a new ].
    + exists false, [dot]. split; [ reflexivity | right; auto ].
    + exists false, (a :: new).
      assert (He : is_empty (join_char sep (a :: new)) = false).
      { apply ends_plain_nonempty, join_ends_plain;
          [ discriminate | eapply tidy_good; exact Ht ]. }
      rewrite He.
      assert (Hd : startswith (join_char sep (a :: new)) [sep; sep] = false).
      { destruct (join_char sep (a :: new)) as [ | x r ]; [ reflexivity | ].
        cbn [startswith] in Hs |- *.
        destruct (Ascii.eqb sep x); [ discriminate | reflexivity ]. }
      rewrite Hd. split; [ reflexivity | left; split; auto ].
      right; discriminate.
  - exists true, new. cbn [is_empty].
    assert (Hd : startswith (sep :: join_char sep new) [sep; sep] = false).
    { cbn [startswith]. rewrite Ascii.eqb_refl. cbn [andb].
      destruct (join_char sep new) as [ | x r ]; [ reflexivity | ].
      cbn [startswith] in Hs |- *.
      destruct (Ascii.eqb sep x); [ discriminate | reflexivity ]. }
    rewrite Hd. split; [ reflexivity | left; split; auto ].
  - exists true, new. cbn [is_empty].
    assert (Hd : startswith (sep :: sep :: join_char sep new) [sep; sep]
                 = true).
    { cbn [startswith]. rewrite Ascii.eqb_refl. reflexivity. }
    rewrite Hd. split; [ reflexivity | left; split; auto ].
Qed.

Lemma split_char_plain (a : str) :
  no_sep a = true -> split_char sep a = [a].
Proof.
  induction a as [ | x a IH ]; [ reflexivity | ].
  simpl. intros H. apply andb_prop in H as [Hx Ha].
  unfold is_sep in Hx. destruct (Ascii.eqb x sep); [ discriminate | ].
  rewrite (IH Ha). reflexivity.
Qed.

Lemma split_char_app_sep (a r : str) :
  no_sep a = true -> split_char sep (a ++ sep :: r) = a :: split_char sep r.
Proof.
  induction a as [ | x a IH ]; intros H.
  - cbn [app split_char]. rewrite Ascii.eqb_refl. reflexivity.
  - simpl in H. apply andb_prop in H as [Hx Ha].
    cbn [app split_char].
    unfold is_sep in Hx. destruct (Ascii.eqb x sep); [ discriminate | ].
    rewrite (IH Ha). reflexivity.
Qed.

Lemma split_char_join (cs : list str) :
  good_comps cs = true -> cs <> [] ->
  split_char sep (join_char sep cs) = cs.
Proof.
  induction cs as [ | a cs IH ]; intros Hg Hne; [ congruence | ].
  simpl in Hg. apply andb_prop in Hg as [Ha Hcs].
  destruct cs as [ | b cs ].
  - apply split_char_plain, good_comp_no_sep, Ha.
  - change (join_char sep (a :: b :: cs))
      with (a ++ sep :: join_char sep (b :: cs)).
    rewrite split_char_app_sep by (apply good_comp_no_sep, Ha).
    rewrite IH; [ reflexivity | exact Hcs | discriminate ].
Qed.

(** On a tidy list the loop of [normpath] keeps every component. *)
Lemma norm_fold_keeps (abs : bool) (n : nat) (cs : list str) :
  (n =? 0) = negb abs ->
  forall acc : list str,
    tidy abs (acc ++ cs) = true ->
    fold_left (norm_step n) cs acc = acc ++ cs.
Proof.
  intros Hn. induction cs as [ | c cs IH ]; intros acc Ht.
  - rewrite app_nil_r. reflexivity.
  - cbn [fold_left].
    replace (norm_step n acc c) with (acc ++ [c]).
    { rewrite IH; rewrite <- app_assoc; [ reflexivity | exact Ht ]. }
    unfold norm_step.
    unfold tidy, good_comps in Ht. rewrite !forallb_app in Ht.
    cbn [forallb] in Ht.
    apply andb_prop in Ht as [Ht H3]. apply andb_prop in Ht as [H1 H2].
    apply andb_prop in H1 as [_ H1]. apply andb_prop in H1 as [H1 _].
    apply andb_prop in H2 as [_ H2]. apply andb_prop in H2 as [H2 _].
    unfold good_comp in H1. apply andb_prop in H1 as [H1 _].
    unfold not_dot in H2.
    destruct (is_empty c); [ discriminate | ].
    destruct (str_eqb c dot); [ discriminate | ].
    cbn [orb].
    destruct (str_eqb c dotdot) eqn:Edd; [ | reflexivity ].
    cbn [negb orb]. apply str_eqb_eq in Edd. subst c.
    destruct abs; cbn [negb] in Hn; rewrite Hn.
    + apply andb_prop in H3 as [_ H3]. discriminate.
    + apply lead_dd_before_dd in H3.
      destruct acc as [ | a acc ]; [ reflexivity | ].
      cbn [no_items negb andb orb].
      assert (Hl : is_dd (last (a :: acc) []) = true)
        by (apply forallb_last; [ exact H3 | discriminate ]).
      unfold is_dd in Hl. rewrite Hl. reflexivity.
Qed.

(** [normpath] leaves the text of a tidy list as it is. *)
Lemma normpath_render (abs : bool) (cs : list str) :
  tidy abs cs = true -> abs = true \/ cs <> [] ->
  normpath (render abs cs) = render abs cs.
Proof.
  intros Ht Hne. pose proof (tidy_good _ _ Ht) as Hg.
  pose proof (join_starts_plain cs Hg) as Hs.
  unfold normpath, render. destruct abs; cbn [root app].
  - assert (E1 : startswith (sep :: join_char sep cs) [sep] = true)
      by (cbn [startswith]; rewrite Ascii.eqb_refl; reflexivity).
    assert (E2 : startswith (sep :: join_char sep cs) [sep; sep] = false).
    { change (Ascii.eqb sep sep && startswith (join_char sep cs) [sep]
              = false).
      rewrite Hs, andb_false_r. reflexivity. }
    cbn [is_empty]. rewrite E1, E2. cbn [andb repeat app split_char].
    rewrite Ascii.eqb_refl. cbn [fold_left].
    change (norm_step 1 [] []) with (@nil str).
    destruct cs as [ | a cs ].
    + reflexivity.
    + rewrite split_char_join by (exact Hg || discriminate).
      rewrite (norm_fold_keeps true 1 (a :: cs) eq_refl []) by exact Ht.
      reflexivity.
  - destruct Hne as [Hne | Hne]; [ discriminate | ].
    assert (He : is_empty (join_char sep cs) = false)
      by (apply ends_plain_nonempty, join_ends_plain; assumption).
    rewrite He, Hs. cbn [repeat app].
    rewrite split_char_join by assumption.
    rewrite (norm_fold_keeps false 0 cs eq_refl []) by exact Ht.
    cbn [app]. rewrite He. reflexivity.
Qed.

(** Cleaning a cleaned path that holds no backslash changes nothing. *)
Lemma os_clean_path_render (abs : bool) (cs : list str) :
  tidy abs cs = true -> abs = true \/ cs <> [] ->
  has_char backslash (render abs cs) = false ->
  os_clean_path conv (render abs cs) = render abs cs.
Proof.
  intros Ht Hne Hb. unfold os_clean_path. rewrite Hb.
  rewrite normpath_render by assumption.
  pose proof (join_starts_plain cs (tidy_good _ _ Ht)) as Hs.
  unfold render. destruct abs; cbn [root app].
  - cbn [startswith] in Hs |- *. rewrite Ascii.eqb_refl. cbn [andb].
    destruct (join_char sep cs) as [ | x r ]; [ reflexivity | ].
    destruct (Ascii.eqb sep x); [ discriminate | reflexivity ].
  - destruct (join_char sep cs) as [ | x r ]; [ reflexivity | ].
    cbn [startswith] in Hs |- *.
    destruct (Ascii.eqb sep x); [ discriminate | reflexivity ].
Qed.

End NormalForm.

(** ** Ranges and the loops of the search *)

Section Ranges.

Lemma py_range_empty (lo hi : Z) : (hi <= lo)%Z -> py_range lo hi = [].
Proof.
  intros H. unfold py_range.
  replace (Z.to_nat (hi - lo)) with 0 by lia. reflexivity.
Qed.

Lemma py_range_cons (lo hi : Z) :
  (lo < hi)%Z -> py_range lo hi = lo :: py_range (lo + 1) hi.
Proof.
  intros H. unfold py_range.
  replace (Z.to_nat (hi - lo)) with (S (Z.to_nat (hi - (lo + 1)))) by lia.
  cbn [seq map]. f_equal; [ lia | ].
  rewrite <- seq_shift, map_map. apply map_ext. intros k. lia.
Qed.

Lemma py_range_split (k : nat) :
  forall lo m hi : Z,
    Z.to_nat (m - lo) = k -> (lo <= m < hi)%Z ->
    py_range lo hi = py_range lo m ++ m :: py_range (m + 1) hi.
Proof.
  induction k as [ | k IH ]; intros lo m hi Hk Hm.
  - assert (m = lo) by lia. subst m.
    rewrite (py_range_empty lo lo) by lia. apply py_range_cons. lia.
  - rewrite (py_range_cons lo hi), (py_range_cons lo m) by lia.
    cbn [app]. f_equal. apply IH; lia.
Qed.

Lemma In_py_range (lo hi y : Z) :
  In y (py_range lo hi) <-> (lo <= y < hi)%Z.
Proof.
  unfold py_range. rewrite in_map_iff. split.
  - intros [k [<- Hk]]. apply in_seq in Hk. lia.
  - intros H. exists (Z.to_nat (y - lo)). split; [ lia | ].
    apply in_seq. lia.
Qed.

End Ranges.

Section SearchLoops.

Variable conv : str -> str.
Variable ex : str -> bool.

Lemma search_heads_step (path_1 tail_2 : str) (i : Z) (rest : list Z) :
  search_heads conv ex path_1 tail_2 (i :: rest) =
  if ex (join (fst (path_split conv path_1 i)) tail_2)
  then Some (join (fst (path_split conv path_1 i)) tail_2)
  else search_heads conv ex path_1 tail_2 rest.
Proof.
  cbn [search_heads]. destruct (path_split conv path_1 i). reflexivity.
Qed.

Lemma search_tails_step (path_1 path_2 : str) (j : Z) (rest : list Z) :
  search_tails conv ex path_1 path_2 (j :: rest) =
  match search_heads conv ex path_1 (snd (path_split conv path_2 j))
          (py_range 1 (num_path_elems conv path_1 + 1)) with
  | Some c => Some c
  | None => search_tails conv ex path_1 path_2 rest
  end.
Proof.
  cbn [search_tails]. destruct (path_split conv path_2 j). reflexivity.
Qed.

Lemma search_heads_miss (path_1 tail_2 : str) (l : list Z) :
  (forall i, In i l -> ex (join (fst (path_split conv path_1 i)) tail_2)
                       = false) ->
  search_heads conv ex path_1 tail_2 l = None.
Proof.
  induction l as [ | i l IH ]; intros H; [ reflexivity | ].
  rewrite search_heads_step, (H i) by (left; reflexivity).
  apply IH. intros i' Hi'. apply H. right. exact Hi'.
Qed.

Lemma search_heads_hit (path_1 tail_2 : str) (l1 l2 : list Z) (i : Z) :
  (forall i', In i' l1 ->
     ex (join (fst (path_split conv path_1 i')) tail_2) = false) ->
  ex (join (fst (path_split conv path_1 i)) tail_2) = true ->
  search_heads conv ex path_1 tail_2 (l1 ++ i :: l2) =
  Some (join (fst (path_split conv path_1 i)) tail_2).
Proof.
  intros H Hi. induction l1 as [ | a l1 IH ]; cbn [app].
  - rewrite search_heads_step, Hi. reflexivity.
  - rewrite search_heads_step, (H a) by (left; reflexivity).
    apply IH. intros i' Hi'. apply H. right. exact Hi'.
Qed.

Lemma search_tails_miss (path_1 path_2 : str) (l : list Z) :
  (forall j i, In j l ->
     (1 <= i <= num_path_elems conv path_1)%Z ->
     ex (candidate conv path_1 path_2 j i) = false) ->
  search_tails conv ex path_1 path_2 l = None.
Proof.
  induction l as [ | j l IH ]; intros H; [ reflexivity | ].
  rewrite search_tails_step, search_heads_miss.
  - apply IH. intros j' i Hj' Hi. apply H; [ right; exact Hj' | exact Hi ].
  - intros i Hi. apply In_py_range in Hi.
    apply (H j i); [ left; reflexivity | lia ].
Qed.

Lemma search_tails_hit (path_1 path_2 : str) (l1 l2 : list Z) (j i : Z) :
  (forall j' i', In j' l1 ->
     (1 <= i' <= num_path_elems conv path_1)%Z ->
     ex (candidate conv path_1 path_2 j' i') = false) ->
  (forall i', (1 <= i' < i)%Z -> ex (candidate conv path_1 path_2 j i') = false) ->
  (1 <= i <= num_path_elems conv path_1)%Z ->
  ex (candidate conv path_1 path_2 j i) = true ->
  search_tails conv ex path_1 path_2 (l1 ++ j :: l2) =
  Some (candidate conv path_1 path_2 j i).
Proof.
  intros H1 H2 Hi Hex. induction l1 as [ | a l1 IH ]; cbn [app].
  - rewrite search_tails_step.
    rewrite (py_range_split (Z.to_nat (i - 1)) 1 i) by lia.
    rewrite search_heads_hit; [ reflexivity | | exact Hex ].
    intros i' Hi'. apply In_py_range in Hi'. apply H2. lia.
  - rewrite search_tails_step, search_heads_miss.
    + apply IH. intros j' i' Hj' Hi'. apply H1; [ right; exact Hj' | exact Hi' ].
    + intros i' Hi'. apply In_py_range in Hi'.
      apply (H1 a i'); [ left; reflexivity | lia ].
Qed.

Lemma search_heads_find (path_1 path_2 : str) (j : Z) (l : list Z) :
  search_heads conv ex path_1 (snd (path_split conv path_2 j)) l =
  find ex (map (candidate conv path_1 path_2 j) l).
Proof.
  induction l as [ | i l IH ]; [ reflexivity | ].
  rewrite search_heads_step. cbn [map find]. unfold candidate at 1 2.
  destruct (ex (join (fst (path_split conv path_1 i))
                  (snd (path_split conv path_2 j)))); [ reflexivity | ].
  exact IH.
Qed.

Lemma find_app {A} (f : A -> bool) (l1 l2 : list A) :
  find f (l1 ++ l2) =
  match find f l1 with Some x => Some x | None => find f l2 end.
Proof.
  induction l1 as [ | a l1 IH ]; [ reflexivity | ].
  cbn [app find]. destruct (f a); [ reflexivity | exact IH ].
Qed.

Lemma search_tails_find (path_1 path_2 : str) (l : list Z) :
  search_tails conv ex path_1 path_2 l =
  find ex
    (flat_map
       (fun j => map (candidate conv path_1 path_2 j)
                   (py_range 1 (num_path_elems conv path_1 + 1))) l).
Proof.
  induction l as [ | j l IH ]; [ reflexivity | ].
  rewrite search_tails_step, search_heads_find. cbn [flat_map].
  rewrite find_app, IH. reflexivity.
Qed.

Lemma composite_search_find (path_1 path_2 : str) :
  composite_search conv ex path_1 path_2 =
  find ex (composite_candidates conv path_1 path_2).
Proof. apply search_tails_find. Qed.

Lemma length_py_range (lo hi : Z) :
  length (py_range lo hi) = Z.to_nat (hi - lo).
Proof. unfold py_range. rewrite length_map, length_seq. reflexivity. Qed.

Lemma length_composite_candidates (path_1 path_2 : str) :
  length (composite_candidates conv path_1 path_2) =
  Z.to_nat (num_path_elems conv path_2) * Z.to_nat (num_path_elems conv path_1).
Proof.
  unfold composite_candidates.
  assert (H : forall l : list Z,
             length (flat_map
                       (fun j => map (candidate conv path_1 path_2 j)
                          (py_range 1 (num_path_elems conv path_1 + 1))) l)
             = length l * Z.to_nat (num_path_elems conv path_1)).
  { induction l as [ | j l IH ]; [ reflexivity | ].
    cbn [flat_map length]. rewrite length_app, IH, length_map, length_py_range.
    lia. }
  rewrite H, length_py_range. f_equal. lia.
Qed.

End SearchLoops.

(** ** [path_split] on a cleaned path *)

Section SplitFacts.

Variable conv : str -> str.

(** A path split at one of its elements: the cleaned path is the text of
    [cs1 ++ cs2], the head the text of [cs1], the tail that of [cs2]. *)
Lemma path_split_decomp (path : str) (n : Z) :
  (1 <= n <= num_path_elems conv path)%Z ->
  exists abs cs1 cs2,
    os_clean_path conv path = render abs (cs1 ++ cs2) /\
    clean_shape abs (cs1 ++ cs2) /\
    cs2 <> [] /\
    Z.of_nat (length cs2) = n /\
    path_split conv path n = (render abs cs1, join_char sep cs2) /\
    num_path_elems conv path = (Z.of_nat (length cs1) + n)%Z.
Proof.
  intros Hn.
  destruct (os_clean_path_shape conv path) as [abs [cs [Hp Hs]]].
  pose proof (clean_shape_good _ _ Hs) as Hg.
  assert (Hc : num_path_elems conv path = Z.of_nat (length cs)).
  { rewrite num_path_elems_true, Hp. apply num_path_elems_render. exact Hg. }
  rewrite Hc in Hn.
  set (k := length cs - Z.to_nat n).
  assert (Hl : length (skipn k cs) = Z.to_nat n)
    by (rewrite length_skipn; subst k; lia).
  assert (E : cs = firstn k cs ++ skipn k cs)
    by (symmetry; apply firstn_skipn).
  revert Hl E. generalize (firstn k cs) (skipn k cs). clear k.
  intros cs1 cs2 Hl ->.
  assert (Hne : cs2 <> []).
  { intros E. rewrite E in Hl. simpl in Hl. lia. }
  exists abs, cs1, cs2. repeat split.
  - exact Hp.
  - exact Hs.
  - exact Hne.
  - lia.
  - unfold path_split, path_split_from. rewrite Hp.
    replace n with (Z.of_nat (length cs2)) by lia.
    apply (path_split_render conv abs cs1 cs2 Hg Hne).
  - rewrite Hc, length_app. lia.
Qed.

(** The element count of a head that is not empty and holds no
    backslash. *)
Lemma head_count (abs : bool) (cs1 cs2 : list str) :
  clean_shape abs (cs1 ++ cs2) -> cs2 <> [] ->
  render abs cs1 <> [] ->
  has_char backslash (render abs cs1) = false ->
  num_path_elems conv (render abs cs1) = Z.of_nat (length cs1).
Proof.
  intros Hs Hne Hh Hb.
  assert (Ht : tidy abs cs1 = true /\ (abs = true \/ cs1 <> [])).
  { destruct Hs as [[Ht _] | [-> Hd]].
    - split; [ eapply tidy_app_l; exact Ht | ].
      destruct abs; [ left; reflexivity | right ].
      intros ->. apply Hh. reflexivity.
    - exfalso. destruct cs1 as [ | a cs1 ].
      + apply Hh. reflexivity.
      + destruct cs1; [ | destruct cs1; discriminate ].
        destruct cs2; [ congruence | discriminate ]. }
  destruct Ht as [Ht Hr].
  rewrite num_path_elems_true, os_clean_path_render by assumption.
  apply num_path_elems_render. eapply tidy_good. exact Ht.
Qed.

(** The head of a split counts [n] elements less than the path. *)
Lemma path_split_head_count (path : str) (n : Z) :
  (1 <= n <= num_path_elems conv path)%Z ->
  fst (path_split conv path n) <> [] ->
  has_char backslash (fst (path_split conv path n)) = false ->
  (num_path_elems conv (fst (path_split conv path n)) + n
   = num_path_elems conv path)%Z.
Proof.
  intros Hn.
  destruct (path_split_decomp path n Hn)
    as [abs [cs1 [cs2 [Hp [Hs [Hne [Hl [Hsplit Hc]]]]]]]].
  rewrite Hsplit. cbn [fst]. intros Hh Hb. rewrite Hc.
  rewrite (head_count abs cs1 cs2); auto.
Qed.

(** The element count of a head that cleaning leaves as it is. *)
Lemma clean_head_count (abs : bool) (cs1 cs2 : list str) :
  clean_shape abs (cs1 ++ cs2) ->
  os_clean_path conv (render abs cs1) = render abs cs1 ->
  num_path_elems conv (render abs cs1) = Z.of_nat (length cs1).
Proof.
  intros Hs Hclean. rewrite num_path_elems_true, Hclean.
  apply num_path_elems_render.
  pose proof (clean_shape_good _ _ Hs) as Hg.
  unfold good_comps in *. rewrite forallb_app in Hg.
  apply andb_prop in Hg. apply Hg.
Qed.

(** A head that is not empty and holds no backslash is one that
    cleaning leaves as it is. *)
Lemma plain_head_clean (abs : bool) (cs1 cs2 : list str) :
  clean_shape abs (cs1 ++ cs2) -> cs2 <> [] ->
  render abs cs1 <> [] ->
  has_char backslash (render abs cs1) = false ->
  os_clean_path conv (render abs cs1) = render abs cs1.
Proof.
  intros Hs Hne Hh Hb.
  assert (Ht : tidy abs cs1 = true /\ (abs = true \/ cs1 <> [])).
  { destruct Hs as [[Ht _] | [-> Hd]].
    - split; [ eapply tidy_app_l; exact Ht | ].
      destruct abs; [ left; reflexivity | right ].
      intros ->. apply Hh. reflexivity.
    - exfalso. destruct cs1 as [ | a cs1 ].
      + apply Hh. reflexivity.
      + destruct cs1; [ | destruct cs1; discriminate ].
        destruct cs2; [ congruence | discriminate ]. }
  destruct Ht as [Ht Hr]. apply os_clean_path_render; assumption.
Qed.

(** The empty head is the head of no element of a relative path. *)
Lemma empty_head (abs : bool) (cs1 cs2 : list str) :
  clean_shape abs (cs1 ++ cs2) -> render abs cs1 = [] -> cs1 = [].
Proof.
  intros Hs E. pose proof (clean_shape_good _ _ Hs) as Hg.
  unfold good_comps in Hg. rewrite forallb_app in Hg.
  apply andb_prop in Hg as [Hg _].
  destruct cs1 as [ | c cs1 ]; [ reflexivity | exfalso ].
  cbn [forallb] in Hg. apply andb_prop in Hg as [Hc _].
  unfold good_comp in Hc. apply andb_prop in Hc as [Hc _].
  unfold render in E. apply app_eq_nil in E as [_ E].
  destruct c as [ | x c ]; [ discriminate | ].
  destruct cs1; discriminate.
Qed.

(** The empty string counts one element: it cleans to [.]. *)
Lemma num_path_elems_empty : num_path_elems conv [] = 1%Z.
Proof. reflexivity. Qed.

End SplitFacts.

Section PlainPaths.

(** The paths without a backslash, for a conversion that leaves none, as
    pathlib's does from Python 3.12 on. *)
Variable conv : str -> str.

Hypothesis conv_plain : forall path, has_char backslash (conv path) = false.

Lemma has_char_app (c : ascii) (a b : str) :
  has_char c (a ++ b) = has_char c a || has_char c b.
Proof. apply existsb_app. Qed.

Lemma split_char_plain_comps (s : str) :
  has_char backslash s = false ->
  forallb (fun c => negb (has_char backslash c)) (split_char sep s) = true.
Proof.
  unfold has_char.
  induction s as [ | d s IH ]; intros H; [ reflexivity | ].
  cbn [existsb] in H. apply orb_false_elim in H as [Hd Hs].
  specialize (IH Hs). cbn [split_char].
  destruct (Ascii.eqb d sep); [ cbn [forallb existsb negb andb]; exact IH | ].
  destruct (split_char sep s) as [ | c cs ].
  - cbn [forallb existsb]. rewrite Hd. reflexivity.
  - cbn [forallb existsb] in IH |- *. rewrite Hd. exact IH.
Qed.

Lemma forallb_removelast {A} (P : A -> bool) (l : list A) :
  forallb P l = true -> forallb P (removelast l) = true.
Proof.
  induction l as [ | x l IH ]; intros H; [ reflexivity | ].
  cbn [forallb] in H. apply andb_prop in H as [Hx Hl].
  destruct l as [ | y l ]; [ reflexivity | ].
  cbn [removelast forallb]. rewrite Hx. exact (IH Hl).
Qed.

Lemma norm_step_plain (n : nat) (acc : list str) (comp : str) :
  forallb (fun c => negb (has_char backslash c)) acc = true ->
  has_char backslash comp = false ->
  forallb (fun c => negb (has_char backslash c)) (norm_step n acc comp)
  = true.
Proof.
  intros Ha Hc. unfold norm_step.
  destruct (is_empty comp || str_eqb comp dot); [ exact Ha | ].
  match goal with
  | |- context [if ?b then _ else _] => destruct b
  end.
  - rewrite forallb_app, Ha. cbn [forallb]. rewrite Hc. reflexivity.
  - apply forallb_removelast. exact Ha.
Qed.

Lemma norm_fold_plain (n : nat) (comps : list str) :
  forall acc,
    forallb (fun c => negb (has_char backslash c)) acc = true ->
    forallb (fun c => negb (has_char backslash c)) comps = true ->
    forallb (fun c => negb (has_char backslash c))
      (fold_left (norm_step n) comps acc) = true.
Proof.
  induction comps as [ | comp comps IH ]; intros acc Ha Hc; [ exact Ha | ].
  cbn [forallb] in Hc. apply andb_prop in Hc as [Hc Hcs].
  cbn [fold_left]. apply IH; [ | exact Hcs ].
  apply norm_step_plain; [ exact Ha | ].
  destruct (has_char backslash comp); [ discriminate | reflexivity ].
Qed.

Lemma join_char_plain (cs : list str) :
  has_char backslash (join_char sep cs) = false <->
  forallb (fun c => negb (has_char backslash c)) cs = true.
Proof.
  induction cs as [ | c cs IH ]; [ split; reflexivity | ].
  destruct cs as [ | c' cs ].
  - cbn [join_char forallb]. rewrite andb_true_r.
    destruct (has_char backslash c); split; intros H;
      reflexivity || discriminate.
  - change (join_char sep (c :: c' :: cs))
      with (c ++ sep :: join_char sep (c' :: cs)).
    rewrite has_char_app.
    change (has_char backslash (sep :: join_char sep (c' :: cs)))
      with (Ascii.eqb backslash sep
            || has_char backslash (join_char sep (c' :: cs))).
    replace (Ascii.eqb backslash sep) with false by reflexivity.
    cbn [orb]. change (forallb ?P (c :: ?l))
      with (P c && forallb P l). cbn beta.
    destruct (has_char backslash c); cbn [orb negb andb].
    + split; discriminate.
    + exact IH.
Qed.

Lemma repeat_sep_plain (n : nat) : has_char backslash (repeat sep n) = false.
Proof. induction n as [ | n IH ]; [ reflexivity | exact IH ]. Qed.

Lemma normpath_plain (path : str) :
  has_char backslash path = false ->
  has_char backslash (normpath path) = false.
Proof.
  intros H. unfold normpath.
  destruct (is_empty path); [ reflexivity | ].
  match goal with
  | |- context [repeat sep ?n ++ join_char sep ?cs] =>
      assert (Hp : has_char backslash (repeat sep n ++ join_char sep cs)
                   = false)
  end.
  { rewrite has_char_app, repeat_sep_plain. cbn [orb].
    apply join_char_plain. apply norm_fold_plain; [ reflexivity | ].
    apply split_char_plain_comps. exact H. }
  match goal with
  | |- context [if ?b then _ else _] => destruct b
  end; [ reflexivity | exact Hp ].
Qed.

Lemma skipn_plain (n : nat) (s : str) :
  has_char backslash s = false -> has_char backslash (skipn n s) = false.
Proof.
  intros H. rewrite <- (firstn_skipn n s), has_char_app in H.
  apply orb_false_elim in H. apply H.
Qed.

(** A cleaned path holds no backslash. *)
Lemma os_clean_path_plain (path : str) :
  has_char backslash (os_clean_path conv path) = false.
Proof.
  unfold os_clean_path.
  assert (H : has_char backslash
                (normpath (if has_char backslash path
                           then conv path else path)) = false).
  { apply normpath_plain. destruct (has_char backslash path) eqn:E;
      [ apply conv_plain | exact E ]. }
  match goal with
  | |- context [if ?b then _ else _] => destruct b
  end; [ apply skipn_plain | ]; exact H.
Qed.

Lemma render_head_plain (abs : bool) (cs1 cs2 : list str) :
  has_char backslash (render abs (cs1 ++ cs2)) = false ->
  has_char backslash (render abs cs1) = false.
Proof.
  unfold render. rewrite !has_char_app. intros H.
  apply orb_false_elim in H as [Hr Hj]. rewrite Hr. cbn [orb].
  apply join_char_plain. apply join_char_plain in Hj.
  rewrite forallb_app in Hj. apply andb_prop in Hj. apply Hj.
Qed.

(** So the head of a split holds none either. *)
Lemma path_split_head_plain (path : str) (n : Z) :
  (1 <= n <= num_path_elems conv path)%Z ->
  has_char backslash (fst (path_split conv path n)) = false.
Proof.
  intros Hn.
  destruct (path_split_decomp conv path n Hn)
    as [abs [cs1 [cs2 [Hp [_ [_ [_ [Hsplit _]]]]]]]].
  rewrite Hsplit. cbn [fst]. apply (render_head_plain abs cs1 cs2).
  rewrite <- Hp. apply os_clean_path_plain.
Qed.

End PlainPaths.

(** The conversion of Python 3.12 leaves no backslash. *)
Lemma backslash_to_sep_plain (path : str) :
  has_char backslash (backslash_to_sep path) = false.
Proof.
  unfold has_char, backslash_to_sep.
  induction path as [ | c path IH ]; [ reflexivity | ].
  cbn [map existsb]. rewrite IH, orb_false_r.
  destruct (Ascii.eqb c backslash) eqn:E; [ reflexivity | ].
  rewrite Ascii.eqb_sym. exact E.
Qed.

(* ================================================================== *)
(** * The path resolver: properties *)
(* ================================================================== *)

(** C8, as amended. For every path and every [n] with
    [1 <= n <= CountElements(path)], [SplitTail(path, n) = (head, tail)]
    satisfies [join(head, tail) == Normalize(path)]; and
    [CountElements(head) + n == CountElements(path)] holds whenever
    cleaning [head] gives [head] back. That is so for every [head] that
    is not empty and holds no backslash; for a [head] with a backslash
    it is so when pathlib's conversion, followed by the normalization,
    returns it. With a conversion that leaves no backslash, as pathlib's
    from Python 3.12 on, the counts add up for every [head] that is not
    empty. For the empty [head] (a relative path split at its first
    element) the counts never add up: the empty string counts one
    element. *)
Theorem path_split_rejoins_and_counts (conv : str -> str) (path : str)
    (n : Z) :
  (1 <= n <= num_path_elems conv path)%Z ->
  join (fst (path_split conv path n)) (snd (path_split conv path n))
  = os_clean_path conv path /\
  (os_clean_path conv (fst (path_split conv path n))
   = fst (path_split conv path n) ->
   (num_path_elems conv (fst (path_split conv path n)) + n
    = num_path_elems conv path)%Z) /\
  (fst (path_split conv path n) <> [] ->
   has_char backslash (fst (path_split conv path n)) = false ->
   os_clean_path conv (fst (path_split conv path n))
   = fst (path_split conv path n)) /\
  ((forall p, has_char backslash (conv p) = false) ->
   fst (path_split conv path n) <> [] ->
   (num_path_elems conv (fst (path_split conv path n)) + n
    = num_path_elems conv path)%Z) /\
  (fst (path_split conv path n) = [] ->
   (num_path_elems conv (fst (path_split conv path n)) + n
    <> num_path_elems conv path)%Z).
Proof.
  intros Hn.
  pose proof (fun H => path_split_head_plain conv H path n Hn) as Hplain.
  destruct (path_split_decomp conv path n Hn)
    as [abs [cs1 [cs2 [Hp [Hs [Hne [Hl [Hsplit Hc]]]]]]]].
  rewrite Hsplit in *. cbn [fst snd] in *.
  split; [ | split; [ | split; [ | split ] ] ].
  - rewrite Hp. pose proof (clean_shape_good _ _ Hs) as Hg.
    unfold good_comps in Hg. rewrite forallb_app in Hg.
    apply andb_prop in Hg as [Hg1 Hg2].
    apply join_render; assumption.
  - intros Hclean. rewrite Hc.
    rewrite (clean_head_count conv abs cs1 cs2 Hs Hclean). reflexivity.
  - intros Hh Hb. apply (plain_head_clean conv abs cs1 cs2); assumption.
  - intros Hconv Hh. rewrite Hc.
    rewrite (clean_head_count conv abs cs1 cs2 Hs); [ reflexivity | ].
    apply (plain_head_clean conv abs cs1 cs2); auto.
  - intros E. rewrite E, num_path_elems_empty, Hc.
    rewrite (empty_head abs cs1 cs2 Hs E). cbn [length Z.of_nat]. lia.
Qed.

(** C8, witness: with a conversion that keeps the backslash of the
    drive, the path [C:\a\b\c] split at its last element has the head
    [C:\/a/b], which holds a backslash and which cleaning gives back:
    3 + 1 = 4. With the conversion that leaves no backslash the head is
    [C:/a/b], and again 3 + 1 = 4. *)
Lemma path_split_rejoins_and_counts_witness :
  path_split drive_to_posix (lit "C:\a\b\c") 1
  = (lit "C:\/a/b", lit "c") /\
  has_char backslash (lit "C:\/a/b") = true /\
  join (lit "C:\/a/b") (lit "c") = lit "C:\/a/b/c" /\
  (num_path_elems drive_to_posix (lit "C:\/a/b") + 1
   = num_path_elems drive_to_posix (lit "C:\a\b\c"))%Z /\
  path_split backslash_to_sep (lit "C:\a\b\c") 1
  = (lit "C:/a/b", lit "c") /\
  (num_path_elems backslash_to_sep (lit "C:/a/b") + 1
   = num_path_elems backslash_to_sep (lit "C:\a\b\c"))%Z.
Proof.
  destruct (path_split_rejoins_and_counts drive_to_posix (lit "C:\a\b\c") 1)
    as [H1 [H2 _]]; [ vm_compute; split; discriminate | ].
  destruct (path_split_rejoins_and_counts backslash_to_sep
              (lit "C:\a\b\c") 1)
    as [_ [_ [_ [H4 _]]]]; [ vm_compute; split; discriminate | ].
  split; [ reflexivity | ]. split; [ reflexivity | ].
  split; [ exact H1 | ]. split; [ apply H2; reflexivity | ].
  split; [ reflexivity | ].
  apply H4; [ apply backslash_to_sep_plain | discriminate ].
Defined.

(** C8, counterexample: the relative path ["a"] has one element; split
    at [n = 1] its head is the empty string, which counts one element
    (it cleans to ["."]), so the counts do not add up. *)
Lemma path_split_count_fails_on_relative_path :
  (1 <= 1 <= num_path_elems backslash_to_sep (lit "a"))%Z /\
  path_split backslash_to_sep (lit "a") 1 = ([], lit "a") /\
  (num_path_elems backslash_to_sep
     (fst (path_split backslash_to_sep (lit "a") 1)) + 1
   <> num_path_elems backslash_to_sep (lit "a"))%Z.
Proof.
  vm_compute. repeat split; discriminate.
Qed.

(** C10. For every input, the loop of [num_path_elems] ends: a turn
    strictly shrinks the path, so with more fuel than the cleaned path has
    characters the loop returns, and it returns the count
    [num_path_elems] gives, which is at most the length of the cleaned
    path. The loops of [path_split] and of
    [find_existing_composite_path] run over ranges bounded by these
    counts: the search has as many candidates as the product of the two
    element counts. *)
Theorem path_loops_terminate (conv : str -> str) (path_1 path_2 : str) :
  (forall p : str, dirname p <> p -> length (dirname p) < length p) /\
  (forall fuel : nat,
     length (os_clean_path conv path_1) < fuel ->
     num_path_elems_loop fuel (os_clean_path conv path_1) 0
     = Some (num_path_elems conv path_1)) /\
  (0 <= num_path_elems conv path_1
   <= Z.of_nat (length (os_clean_path conv path_1)))%Z /\
  (forall n_elem : Z,
     length (py_range 1 n_elem) = Z.to_nat (n_elem - 1)) /\
  length (composite_candidates conv path_1 path_2)
  = Z.to_nat (num_path_elems conv path_2)
    * Z.to_nat (num_path_elems conv path_1).
Proof.
  assert (Hloop : forall fuel : nat,
            length (os_clean_path conv path_1) < fuel ->
            num_path_elems_loop fuel (os_clean_path conv path_1) 0
            = Some (num_path_elems conv path_1)).
  { intros fuel Hf.
    destruct (num_path_elems_loop_ends (S (length (os_clean_path conv path_1)))
                (os_clean_path conv path_1) 0%Z) as [r [Hr _]]; [ lia | ].
    unfold num_path_elems, num_path_elems_from. rewrite Hr.
    eapply num_path_elems_loop_fuel; [ exact Hr | lia ]. }
  repeat split.
  - apply dirname_shrinks.
  - exact Hloop.
  - destruct (num_path_elems_loop_ends
                (S (length (os_clean_path conv path_1)))
                (os_clean_path conv path_1) 0%Z) as [r [Hr Hb]]; [ lia | ].
    rewrite Hloop in Hr by lia. inversion Hr. lia.
  - destruct (num_path_elems_loop_ends
                (S (length (os_clean_path conv path_1)))
                (os_clean_path conv path_1) 0%Z) as [r [Hr Hb]]; [ lia | ].
    rewrite Hloop in Hr by lia. inversion Hr. lia.
  - intros n_elem. apply length_py_range.
  - apply length_composite_candidates.
Qed.

(** C10, witness: a turn of the loop takes ["/a/b"] to the shorter
    ["/a"], and on ["/a/b/c"] the loop ends with the count 3 when given 7
    units of fuel. *)
Lemma path_loops_terminate_witness :
  length (dirname (lit "/a/b")) < length (lit "/a/b") /\
  num_path_elems_loop 7 (lit "/a/b/c") 0 = Some 3%Z.
Proof.
  destruct (path_loops_terminate backslash_to_sep (lit "/a/b/c") (lit "/x"))
    as [H1 [H2 _]].
  split.
  - apply H1. discriminate.
  - apply (H2 7). vm_compute. lia.
Defined.

(** C1, as amended. For every pair of input paths,
    [find_existing_composite_path] tries the candidates
    [join(head_i, tail_j)], where [tail_j] is the last [j] elements of
    the cleaned [pathB] and [head_i] is what is left of the cleaned
    [pathA] once its last [i] elements are split off; [j] ascends from 1
    to [CountElements(pathB)] in the outer loop and [i] ascends from 1 to
    [CountElements(pathA)] in the inner loop, so the heads of [pathA] are
    tried from the longest to the shortest ([head_i] has
    [CountElements(pathA) - i] elements). It returns the first candidate
    that exists on disk, and the text ['None'] when none exists. *)
Theorem find_existing_composite_first_match (conv : str -> str)
    (ex : str -> bool) (path_A path_B : str) :
  let a := os_clean_path conv path_A in
  let b := os_clean_path conv path_B in
  (forall j i : Z,
     (1 <= j <= num_path_elems conv b)%Z ->
     (1 <= i <= num_path_elems conv a)%Z ->
     ex (candidate conv a b j i) = true ->
     (forall j' i' : Z,
        (1 <= j' <= num_path_elems conv b)%Z ->
        (1 <= i' <= num_path_elems conv a)%Z ->
        (j' < j \/ (j' = j /\ i' < i))%Z ->
        ex (candidate conv a b j' i') = false) ->
     find_existing_composite_path conv ex path_A path_B
     = candidate conv a b j i) /\
  ((forall j i : Z,
      (1 <= j <= num_path_elems conv b)%Z ->
      (1 <= i <= num_path_elems conv a)%Z ->
      ex (candidate conv a b j i) = false) ->
   find_existing_composite_path conv ex path_A path_B = lit "None") /\
  (forall i : Z,
     (1 <= i <= num_path_elems conv a)%Z ->
     fst (path_split conv a i) <> [] ->
     has_char backslash (fst (path_split conv a i)) = false ->
     num_path_elems conv (fst (path_split conv a i))
     = (num_path_elems conv a - i)%Z).
Proof.
  intros a b. unfold find_existing_composite_path, composite_search.
  fold a b. repeat split.
  - intros j i Hj Hi Hex Hfirst.
    rewrite (py_range_split (Z.to_nat (j - 1)) 1 j) by lia.
    rewrite (search_tails_hit conv ex a b _ _ j i); auto.
    + intros j' i' Hj' Hi'. apply In_py_range in Hj'.
      apply Hfirst; lia.
    + intros i' Hi'. apply Hfirst; lia.
  - intros Hnone. rewrite search_tails_miss; [ reflexivity | ].
    intros j i Hj Hi. apply In_py_range in Hj. apply Hnone; lia.
  - intros i Hi Hh Hb.
    pose proof (path_split_head_count conv a i Hi Hh Hb). lia.
Qed.

(** C1, witness: with only ["/a/b/c"] on disk, ["/a/b/c"] and
    ["/x/y/c"] give ["/a/b/c"], found at [j = 1], [i = 1] (the head
    ["/a/b"] of two elements and the tail ["c"]); with nothing on disk
    they give ['None']. *)
Lemma find_existing_composite_first_match_witness :
  find_existing_composite_path backslash_to_sep
    (fun p => str_eqb p (lit "/a/b/c")) (lit "/a/b/c") (lit "/x/y/c")
  = lit "/a/b/c" /\
  find_existing_composite_path backslash_to_sep
    (fun _ => false) (lit "/a/b/c") (lit "/x/y/c")
  = lit "None" /\
  num_path_elems backslash_to_sep (lit "/a/b") = (3 - 1)%Z.
Proof.
  destruct (find_existing_composite_first_match backslash_to_sep
              (fun p => str_eqb p (lit "/a/b/c")) (lit "/a/b/c")
              (lit "/x/y/c")) as [Hfirst [_ Hhead]].
  destruct (find_existing_composite_first_match backslash_to_sep
              (fun _ => false) (lit "/a/b/c") (lit "/x/y/c"))
    as [_ [Hnone _]].
  split; [ | split ].
  - rewrite (Hfirst 1%Z 1%Z).
    + reflexivity.
    + vm_compute. split; discriminate.
    + vm_compute. split; discriminate.
    + reflexivity.
    + intros j' i' Hj' Hi' Hlt. exfalso. lia.
  - apply Hnone. intros j i _ _. reflexivity.
  - apply (Hhead 1%Z).
    + vm_compute. split; discriminate.
    + discriminate.
    + reflexivity.
Defined.

(** C1, counterexample: with ["/a/b/c"] and ["/a/c"] both on disk, the
    code returns ["/a/b/c"], the candidate of the longer head ["/a/b"]
    (two elements); a search by ascending head length returns ["/a/c"],
    the candidate of the head ["/a"] (one element). *)
Lemma find_existing_composite_not_by_ascending_heads :
  find_existing_composite_path backslash_to_sep
    (fun p => str_eqb p (lit "/a/b/c") || str_eqb p (lit "/a/c"))
    (lit "/a/b/c") (lit "/x/y/c")
  = lit "/a/b/c" /\
  find_existing_spec_order backslash_to_sep
    (fun p => str_eqb p (lit "/a/b/c") || str_eqb p (lit "/a/c"))
    (lit "/a/b/c") (lit "/x/y/c")
  = lit "/a/c" /\
  find_existing_composite_path backslash_to_sep
    (fun p => str_eqb p (lit "/a/b/c") || str_eqb p (lit "/a/c"))
    (lit "/a/b/c") (lit "/x/y/c")
  <> find_existing_spec_order backslash_to_sep
       (fun p => str_eqb p (lit "/a/b/c") || str_eqb p (lit "/a/c"))
       (lit "/a/b/c") (lit "/x/y/c").
Proof.
  vm_compute. repeat split; discriminate.
Qed.

(* ================================================================== *)
(** * The digest parser: properties *)
(* ================================================================== *)

Section DictFacts.

Context {V : Type}.

Lemma dict_get_set_same (d : dict V) (k : str) (v : V) :
  dict_get (dict_set d k v) k = Some v.
Proof.
  induction d as [ | [k' v'] d IH ]; simpl.
  - rewrite str_eqb_refl. reflexivity.
  - destruct (str_eqb k' k) eqn:E; simpl; rewrite E; auto.
Qed.

Lemma dict_get_set_other (d : dict V) (k k0 : str) (v : V) :
  k0 <> k -> dict_get (dict_set d k v) k0 = dict_get d k0.
Proof.
  intros Hne. induction d as [ | [k' v'] d IH ]; simpl.
  - apply str_eqb_neq in Hne. destruct (str_eqb k k0) eqn:E; auto.
    apply str_eqb_eq in E. subst. rewrite str_eqb_refl in Hne. discriminate.
  - destruct (str_eqb k' k) eqn:E; simpl.
    + apply str_eqb_eq in E. subst k'.
      destruct (str_eqb k k0) eqn:E0; auto.
      apply str_eqb_eq in E0. congruence.
    + rewrite IH. reflexivity.
Qed.

End DictFacts.

Section ParseFacts.

(** [split_once] cuts at the first occurrence. *)
Lemma split_once_first (c : ascii) (s : str) :
  match snd (split_once c s) with
  | Some after =>
      s = fst (split_once c s) ++ c :: after /\
      has_char c (fst (split_once c s)) = false
  | None => s = fst (split_once c s) /\ has_char c s = false
  end.
Proof.
  induction s as [ | d s IH ]; [ simpl; auto | ].
  cbn [split_once]. destruct (Ascii.eqb d c) eqn:E.
  - apply Ascii.eqb_eq in E. subst d. simpl. auto.
  - destruct (split_once c s) as [a [b | ]]; cbn [fst snd] in *;
      unfold has_char in *; cbn [existsb app];
      rewrite (Ascii.eqb_sym c d), E; cbn [orb];
      destruct IH as [IH1 IH2]; split; auto; congruence.
Qed.

(** A line without [=] changes no key. *)
Lemma parse_line_without_assignment (content : dict str)
    (comments : list comment) (line : str) :
  assignment line = None ->
  fst (parse_line (content, comments) line) = content.
Proof.
  unfold assignment, parse_line.
  destruct (snd (split_once "=" (fst (split_once "%" line))));
    [ discriminate | ].
  destruct (snd (split_once "%" line)); reflexivity.
Qed.

(** A line with [=] sets its key, over any value the key had. *)
Lemma parse_line_with_assignment (content : dict str)
    (comments : list comment) (line key val : str) :
  assignment line = Some (key, val) ->
  fst (parse_line (content, comments) line) = dict_set content key val.
Proof.
  unfold assignment, parse_line.
  destruct (snd (split_once "=" (fst (split_once "%" line))));
    [ | discriminate ].
  intros H. inversion H.
  destruct (snd (split_once "%" line)); reflexivity.
Qed.

(** The later value of a repeated key is the one that stays. *)
Lemma parse_later_value_wins (lines : list str) (line key val : str)
    (st : dict str * list comment) :
  assignment line = Some (key, val) ->
  dict_get (fst (fold_left parse_line (lines ++ [line]) st)) key = Some val.
Proof.
  intros H. rewrite fold_left_app. cbn [fold_left].
  destruct (fold_left parse_line lines st) as [content comments].
  rewrite (parse_line_with_assignment _ _ _ _ _ H).
  apply dict_get_set_same.
Qed.

End ParseFacts.

(** C2, the code on the text of the example. The content is
    [{"a": "1", "b": "2"}] and [badline] adds no key; but [comments]
    holds the method [strip] bound to [" note"], and no text: the
    trimmed fragment ["note"] is only what calling that method would
    give. *)
Theorem parse_digest_example :
  fst (parse_text example_digest)
  = [(lit "a", lit "1"); (lit "b", lit "2")] /\
  dict_get (fst (parse_text example_digest)) (lit "badline") = None /\
  snd (parse_text example_digest) = [StripMethod (lit " note")] /\
  ~ In (Text (lit "note")) (snd (parse_text example_digest)) /\
  map call_comment (snd (parse_text example_digest)) = [lit "note"].
Proof.
  assert (H : parse_text example_digest
              = ([(lit "a", lit "1"); (lit "b", lit "2")],
                 [StripMethod (lit " note")])) by (vm_compute; reflexivity).
  rewrite H. cbn [fst snd]. repeat split.
  intros [E | []]. discriminate.
Qed.

(* ================================================================== *)
(** * The dataset matcher: properties *)
(* ================================================================== *)

Section MatcherFacts.





End MatcherFacts.




(** The two examples of C4 on the whole scan, in both modes. *)
Lemma ge_examples (rapid : bool) :
  find_mmdi3d_datasets (ge_world 850) top rapid
  = Returned {| top_dir := top; manufacturer := lit "GE";
                data := [{| mag := Some (lit "A"); mag_series := Some 5%Z;
                            phase := None; phase_series := None |}] |} /\
  find_mmdi3d_datasets (ge_world 700) top rapid
  = Returned {| top_dir := top; manufacturer := lit "GE"; data := [] |}.
Proof. destruct rapid; split; vm_compute; reflexivity. Qed.

(** A GE folder of 850 files that is 3D-MMDI output is skipped before it
    is classified: no entry, and no manufacturer. *)
Lemma ge_output_folder_skipped :
  find_mmdi3d_datasets ge_output_world top false
  = Returned {| top_dir := top; manufacturer := []; data := [] |}.
Proof. vm_compute. reflexivity. Qed.

Section SiemensFacts.

Variables (folder : str) (dcm : dicom) (n : Z).

Hypothesis number : SeriesNumber dcm = Some n.

Lemma set_nth_middle {A} (l1 l2 : list A) (x y : A) :
  set_nth (length l1) y (l1 ++ x :: l2) = l1 ++ y :: l2.
Proof. induction l1 as [ | a l1 IH ]; simpl; [ | rewrite IH ]; reflexivity. Qed.

(** The loop of the magnitude branch passes over the entries that do not
    hold the phase series [n + 1]. *)
Lemma mag_loop_skip (entries : list entry) (rest : list nat) :
  forall (len start : nat) (i_last : option nat),
    start + len <= length entries ->
    (forall k, start <= k < start + len ->
       phase_series (nth k entries no_entry) <> Some (n + 1)%Z) ->
    mag_loop folder dcm entries (seq start len ++ rest) i_last
    = mag_loop folder dcm entries rest
        (match len with
         | O => i_last
         | S _ => Some (start + len - 1)
         end).
Proof.
  induction len as [ | len IH ]; intros start i_last Hlen Hno;
    [ reflexivity | ].
  cbn [seq app mag_loop].
  assert (Hrest : mag_loop folder dcm entries (seq (S start) len ++ rest)
                    (Some start)
                  = mag_loop folder dcm entries rest
                      (Some (start + S len - 1))).
  { rewrite IH; [ | lia | intros k Hk; apply Hno; lia ].
    destruct len; do 2 f_equal; lia. }
  specialize (Hno start ltac:(lia)).
  destruct (phase_series (nth start entries no_entry)) as [ ps | ].
  - unfold series_number. rewrite number. cbn [bind].
    destruct (ps =? n + 1)%Z eqn:E; [ | exact Hrest ].
    apply Z.eqb_eq in E. congruence.
  - exact Hrest.
Qed.

(** When an entry holds the phase series [n + 1], the magnitude folder
    is attached to the first such entry, and no entry is added. *)
Lemma siemens_mag_attaches (l1 l2 : list entry) (e : entry) :
  (forall x, In x l1 -> phase_series x <> Some (n + 1)%Z) ->
  phase_series e = Some (n + 1)%Z ->
  siemens_mag folder dcm (l1 ++ e :: l2)
  = Returned (l1 ++ {| mag := Some folder; mag_series := Some n;
                       phase := phase e;
                       phase_series := phase_series e |} :: l2).
Proof.
  intros Hno He. unfold siemens_mag.
  rewrite length_app. cbn [length].
  replace (length l1 + S (length l2)) with (length l1 + (1 + length l2))
    by lia.
  rewrite seq_app, mag_loop_skip.
  - cbn [Nat.add seq mag_loop].
    rewrite nth_middle, He. unfold series_number. rewrite number.
    cbn [bind]. rewrite Z.eqb_refl, set_nth_middle. cbn [bind].
    unfold starts_new_entry. rewrite nth_middle. cbn [mag has negb].
    rewrite andb_false_r, orb_false_r.
    rewrite length_app. cbn [length].
    replace (length l1 + S (length l2) =? 0) with false
      by (symmetry; apply Nat.eqb_neq; lia).
    reflexivity.
  - rewrite length_app. cbn [length]. lia.
  - intros k Hk. rewrite app_nth1 by lia. apply Hno, nth_In. lia.
Qed.

(** When no entry holds the phase series [n + 1], the loop changes
    nothing and leaves [i] at the last index. *)
Lemma mag_loop_no_match (entries : list entry) :
  (forall e, In e entries -> phase_series e <> Some (n + 1)%Z) ->
  mag_loop folder dcm entries (seq 0 (length entries)) None
  = Returned (entries,
              match length entries with
              | O => None
              | S _ => Some (length entries - 1)
              end).
Proof.
  intros Hno.
  rewrite <- (app_nil_r (seq 0 (length entries))), mag_loop_skip.
  - cbn [mag_loop Nat.add]. reflexivity.
  - lia.
  - intros k Hk. apply Hno, nth_In. lia.
Qed.

(** What the magnitude branch does when no complementary phase entry is
    there: it starts a new entry only if the list is empty or its last
    entry has no ['mag'] key; otherwise the folder is dropped. *)
Lemma siemens_mag_no_match (entries : list entry) :
  (forall e, In e entries -> phase_series e <> Some (n + 1)%Z) ->
  siemens_mag folder dcm entries
  = Returned
      (if (length entries =? 0)
          || negb (has (mag (nth (length entries - 1) entries no_entry)))
       then entries ++ [{| mag := Some folder; mag_series := Some n;
                           phase := None; phase_series := None |}]
       else entries).
Proof.
  intros Hno. unfold siemens_mag.
  rewrite (mag_loop_no_match entries Hno).
  cbn [bind]. unfold starts_new_entry, series_number. rewrite number.
  destruct entries as [ | e entries' ]; [ reflexivity | ].
  cbn [length Nat.eqb orb Nat.add].
  rewrite Nat.eqb_refl. cbn [andb bind].
  destruct (negb (has (mag (nth (S (length entries') - 1) (e :: entries')
                              no_entry)))); reflexivity.
Qed.

(** The same for the phase branch, which looks for the magnitude series
    [n - 1]. *)
Lemma phase_loop_skip (entries : list entry) (rest : list nat) :
  forall (len start : nat) (i_last : option nat),
    start + len <= length entries ->
    (forall k, start <= k < start + len ->
       mag_series (nth k entries no_entry) <> Some (n - 1)%Z) ->
    phase_loop folder dcm entries (seq start len ++ rest) i_last
    = phase_loop folder dcm entries rest
        (match len with
         | O => i_last
         | S _ => Some (start + len - 1)
         end).
Proof.
  induction len as [ | len IH ]; intros start i_last Hlen Hno;
    [ reflexivity | ].
  cbn [seq app phase_loop].
  assert (Hrest : phase_loop folder dcm entries (seq (S start) len ++ rest)
                    (Some start)
                  = phase_loop folder dcm entries rest
                      (Some (start + S len - 1))).
  { rewrite IH; [ | lia | intros k Hk; apply Hno; lia ].
    destruct len; do 2 f_equal; lia. }
  specialize (Hno start ltac:(lia)).
  destruct (mag_series (nth start entries no_entry)) as [ ms | ].
  - unfold series_number. rewrite number. cbn [bind].
    destruct (ms =? n - 1)%Z eqn:E; [ | exact Hrest ].
    apply Z.eqb_eq in E. congruence.
  - exact Hrest.
Qed.

Lemma siemens_phase_attaches (l1 l2 : list entry) (e : entry) :
  (forall x, In x l1 -> mag_series x <> Some (n - 1)%Z) ->
  mag_series e = Some (n - 1)%Z ->
  siemens_phase folder dcm (l1 ++ e :: l2)
  = Returned (l1 ++ {| mag := mag e; mag_series := mag_series e;
                       phase := Some folder;
                       phase_series := Some n |} :: l2).
Proof.
  intros Hno He. unfold siemens_phase.
  rewrite length_app. cbn [length].
  replace (length l1 + S (length l2)) with (length l1 + (1 + length l2))
    by lia.
  rewrite seq_app, phase_loop_skip.
  - cbn [Nat.add seq phase_loop].
    rewrite nth_middle, He. unfold series_number. rewrite number.
    cbn [bind]. rewrite Z.eqb_refl, set_nth_middle. cbn [bind].
    unfold starts_new_entry. rewrite nth_middle. cbn [phase has negb].
    rewrite andb_false_r, orb_false_r.
    rewrite length_app. cbn [length].
    replace (length l1 + S (length l2) =? 0) with false
      by (symmetry; apply Nat.eqb_neq; lia).
    reflexivity.
  - rewrite length_app. cbn [length]. lia.
  - intros k Hk. rewrite app_nth1 by lia. apply Hno, nth_In. lia.
Qed.

Lemma siemens_phase_no_match (entries : list entry) :
  (forall e, In e entries -> mag_series e <> Some (n - 1)%Z) ->
  siemens_phase folder dcm entries
  = Returned
      (if (length entries =? 0)
          || negb (has (phase (nth (length entries - 1) entries no_entry)))
       then entries ++ [{| mag := None; mag_series := None;
                           phase := Some folder; phase_series := Some n |}]
       else entries).
Proof.
  intros Hno. unfold siemens_phase.
  rewrite <- (app_nil_r (seq 0 (length entries))), phase_loop_skip;
    [ | lia | intros k Hk; apply Hno, nth_In; lia ].
  cbn [phase_loop Nat.add bind].
  unfold starts_new_entry, series_number. rewrite number.
  destruct entries as [ | e entries' ]; [ reflexivity | ].
  cbn [length Nat.eqb orb Nat.add].
  rewrite Nat.eqb_refl. cbn [andb bind].
  destruct (negb (has (phase (nth (S (length entries') - 1) (e :: entries')
                                no_entry)))); reflexivity.
Qed.

End SiemensFacts.

(** The example of C3: magnitude 12 then phase 13, 900 files each, give
    one entry with [mag_series = 12] and [phase_series = 13]. *)
Lemma siemens_pair_example :
  find_mmdi3d_datasets siemens_pair_world top false
  = Returned
      {| top_dir := top; manufacturer := lit "Siemens";
         data := [{| mag := Some (lit "A"); mag_series := Some 12%Z;
                     phase := Some (lit "B");
                     phase_series := Some 13%Z |}] |}.
Proof. vm_compute. reflexivity. Qed.

(** C3, the code on a scan of two acquisitions (magnitude 12, phase 13,
    magnitude 20, phase 21): the magnitude folder 20 finds no phase
    series 21 among the entries, and yet no new entry is started, because
    the last entry already has a ['mag'] key; the phase folder 21 is
    dropped the same way. One entry is returned instead of two. *)
Theorem siemens_second_acquisition_dropped :
  find_mmdi3d_datasets siemens_two_world top false
  = Returned
      {| top_dir := top; manufacturer := lit "Siemens";
         data := [{| mag := Some (lit "A"); mag_series := Some 12%Z;
                     phase := Some (lit "B");
                     phase_series := Some 13%Z |}] |} /\
  find_mmdi3d_datasets siemens_mags_world top false
  = Returned
      {| top_dir := top; manufacturer := lit "Siemens";
         data := [{| mag := Some (lit "A"); mag_series := Some 12%Z;
                     phase := None; phase_series := None |}] |}.
Proof. split; vm_compute; reflexivity. Qed.

(* ================================================================== *)
(** * The ROI statistics engine: properties *)
(* ================================================================== *)

Section StatsFacts.

Variable w : world.


(** What the body of the loop can return for a contrast: nothing and no
    message (volumetric strain), nothing and one of the two warnings, or
    the four values of at least one pixel and no message. *)
Lemma measure_contrast_cases (slice_data : dict slice_rec) (excl : bool)
    (c : contrast) (st : stats) (msgs : list str) :
  measure_contrast w slice_data excl c = Returned (st, msgs) ->
  (st = no_stats /\ c = volumetric_strain /\ msgs = []) \/
  (st = no_stats /\ msgs = [no_paths_warning c]) \/
  (st = no_stats /\ msgs = [no_pixels_warning c]) \/
  (exists pixel_values,
     pixel_values <> [] /\ st = summarize pixel_values /\ msgs = []).
Proof.
  assert (Hlen : forall l : list Q, (0 <? length l) = true -> l <> [])
    by (intros [ | x l ] H; [ discriminate | discriminate ]).
  unfold measure_contrast. intros H.
  destruct c.
  1-3: match type of H with
       | context [direct_paths ?sd ?c] =>
           destruct (0 <? length (direct_paths sd c));
           [ | inversion H; auto ];
           destruct (read_images w (map fst (direct_paths sd c)))
             as [ roi_stack | ]; [ | discriminate ];
           destruct (read_images w (map snd (direct_paths sd c)))
             as [ contrast_stack | ]; [ | discriminate ];
           cbn [bind] in H;
           destruct (direct_pixels excl roi_stack contrast_stack)
             as [ pixel_values | ]; [ | discriminate ];
           cbn [bind] in H;
           destruct (0 <? length pixel_values) eqn:E;
           [ | inversion H; auto ];
           inversion H; right; right; right;
           exists (rescale c pixel_values); repeat split;
           apply Hlen; unfold rescale; try rewrite length_map; exact E
       end.
  - destruct (0 <? length (damping_paths slice_data));
      [ | inversion H; auto ].
    destruct (read_images w (map fst (damping_paths slice_data)))
      as [ roi_stack | ]; [ | discriminate ].
    destruct (read_images w
                (map (fun p => fst (snd p)) (damping_paths slice_data)))
      as [ storage_stack | ]; [ | discriminate ].
    destruct (read_images w
                (map (fun p => snd (snd p)) (damping_paths slice_data)))
      as [ loss_stack | ]; [ | discriminate ].
    cbn [bind] in H.
    destruct (damping_pixels w excl roi_stack storage_stack loss_stack)
      as [ pixel_values | ]; [ | discriminate ].
    cbn [bind] in H.
    destruct (0 <? length pixel_values) eqn:E; [ | inversion H; auto ].
    inversion H. right; right; right.
    exists pixel_values. repeat split. apply Hlen. exact E.
  - inversion H. auto.
Qed.




End StatsFacts.



(** C6. On the 2x2x1 mask [[0,1],[0,1]] and the contrast values
    [[10,20],[30,40]], read as storage and as loss: the pixels selected
    are the two under the mask, 20 and 40; rescaled by 1e-3 they are 0.02
    and 0.04; and the mean returned, rounded to 2 decimals, is 0.03. *)
Theorem direct_contrast_example :
  (exists roi_stack contrast_stack,
     read_images mask_world [lit "roi.dcm"] = Returned roi_stack /\
     read_images mask_world [lit "contrast.dcm"] = Returned contrast_stack /\
     direct_pixels false roi_stack contrast_stack
     = Returned [20%Q; 40%Q]) /\
  map Qred (rescale storage [20%Q; 40%Q]) = [(1 # 50)%Q; (1 # 25)%Q] /\
  map Qred (rescale loss [20%Q; 40%Q]) = [(1 # 50)%Q; (1 # 25)%Q] /\
  (exists contrast_data log st_storage st_loss,
     apply_rois_to_mmdi3d_contrasts mask_world mask_slices false
     = Returned (contrast_data, log) /\
     stats_of contrast_data storage = Some st_storage /\
     stats_of contrast_data loss = Some st_loss /\
     mean st_storage = Some (3 # 100)%Q /\
     mean st_loss = Some (3 # 100)%Q).
Proof.
  split; [ | split; [ | split ] ].
  - do 2 eexists. split; [ | split ]; vm_compute; reflexivity.
  - vm_compute. reflexivity.
  - vm_compute. reflexivity.
  - do 4 eexists. split; [ vm_compute; reflexivity | ].
    repeat split.
Qed.

(** The damping example for any content of the fresh memory: the pixel
    at index 1, where storage is 0, is left out only when the memory
    there happens to hold NaN; any other value is kept, halved. *)
Lemma damping_example_pixels (garbage : option Q) :
  exists roi_stack storage_stack loss_stack,
    read_images (damping_world garbage) [lit "roi.dcm"]
    = Returned roi_stack /\
    read_images (damping_world garbage) [lit "storage.dcm"]
    = Returned storage_stack /\
    read_images (damping_world garbage) [lit "loss.dcm"]
    = Returned loss_stack /\
    damping_pixels (damping_world garbage) false roi_stack storage_stack
      loss_stack
    = Returned
        (match garbage with
         | Some v => [(1 # 2) * (1 / 2); (1 # 2) * v]%Q
         | None => [(1 # 2) * (1 / 2)]%Q
         end).
Proof.
  do 3 eexists. repeat split; try (vm_compute; reflexivity).
  destruct garbage as [ v | ]; reflexivity.
Qed.

(** C5, the code on the example when the fresh memory holds 0.0: the
    pixel at index 1 (storage 0) is not excluded; two pixels, 0.25 and
    0.0, enter the statistics, and the mean returned is 0.12, not
    0.25. *)
Theorem damping_example_keeps_zero_storage_pixel :
  exists roi_stack storage_stack loss_stack pixel_values st,
    read_images (damping_world (Some 0%Q)) [lit "roi.dcm"]
    = Returned roi_stack /\
    read_images (damping_world (Some 0%Q)) [lit "storage.dcm"]
    = Returned storage_stack /\
    read_images (damping_world (Some 0%Q)) [lit "loss.dcm"]
    = Returned loss_stack /\
    stack_values roi_stack = [1%Q; 1%Q] /\
    stack_values storage_stack = [2%Q; 0%Q] /\
    stack_values loss_stack = [1%Q; 5%Q] /\
    damping_pixels (damping_world (Some 0%Q)) false roi_stack storage_stack
      loss_stack
    = Returned pixel_values /\
    map Qred pixel_values = [(1 # 4)%Q; 0%Q] /\
    measure_contrast (damping_world (Some 0%Q)) damping_slices false
      damping_ratio
    = Returned (st, []) /\
    mean st = Some (3 # 25)%Q.
Proof.
  do 5 eexists. repeat split; vm_compute; reflexivity.
Qed.

(* ================================================================== *)
(** * The slice and contrast locator: properties *)
(* ================================================================== *)

Section LocatorFacts.

Variable w : world.

(** A digest without the key ['mre.mag.seriesNumber'] leaves
    [mag_series] as it was. *)
Lemma scrape_keeps_mag_series (alc2_digest temp_dir inversion_3d_dir : str)
    (content : dict str) (items : list (str * str)) :
  forall st : scrape,
    (forall item, In item items ->
       str_eqb (fst item) (lit "mre.mag.seriesNumber") = false) ->
    sc_mag_series
      (fold_left (scrape_key w alc2_digest temp_dir inversion_3d_dir content)
         items st)
    = sc_mag_series st.
Proof.
  induction items as [ | [key1 val1] items IH ]; intros st H;
    [ reflexivity | ].
  cbn [fold_left]. rewrite IH by (intros item Hi; apply H; right; exact Hi).
  unfold scrape_key.
  destruct (startswith key1 (lit "mre.roi.slice.")); [ reflexivity | ].
  pose proof (H (key1, val1) (or_introl eq_refl)) as Hk. cbn [fst] in Hk.
  rewrite Hk. reflexivity.
Qed.

(** Without the key, the search for the parent directory of the
    contrasts raises as soon as the inversion directory has a folder:
    [mag_series] is read while it is not bound. *)
Lemma locate_slices_unbound (alc2_digest temp_dir inversion_3d_dir : str)
    (content : dict str) (log : list str) :
  (forall item, In item content ->
     str_eqb (fst item) (lit "mre.mag.seriesNumber") = false) ->
  dir_folder_list w inversion_3d_dir <> [] ->
  fst (locate_slices w alc2_digest temp_dir inversion_3d_dir content log)
  = Raised UnboundLocalError.
Proof.
  intros Hkey Hfolders. unfold locate_slices. cbn [fst].
  rewrite scrape_keeps_mag_series by exact Hkey. cbn [sc_mag_series].
  destruct (dir_folder_list w inversion_3d_dir) as [ | folder rest ];
    [ congruence | reflexivity ].
Qed.

End LocatorFacts.

(** C9, the code on a digest that passes the validation and has one ROI
    slice but no ['mre.mag.seriesNumber'] key, with one folder in the
    inversion directory: the call raises [UnboundLocalError] to its
    caller (after the warning for the missing SliceLocation); with the
    key in the digest the same call returns the slice with empty
    paths. *)
Theorem slice_data_raises_without_series_number :
  get_mmdi3d_slice_data (digest_world digest_without_series)
    (lit "/case/temp/x.alc2") (lit "/case/temp") (lit "/case/3dmmdi")
  = (Raised UnboundLocalError,
     [lit "WARNING get_mmdi3d_slice_data(): no SliceLocation found for slice_number=1 in alc2_digest /case/temp/x.alc2"]) /\
  get_mmdi3d_slice_data (digest_world digest_with_series)
    (lit "/case/temp/x.alc2") (lit "/case/temp") (lit "/case/3dmmdi")
  = (Returned
       [(lit "1",
         {| roi_file_path := lit "/case/temp/roi1.dcm"; storage_path := [];
            loss_path := []; attenuation_path := [];
            slice_location := None |})],
     [lit "WARNING get_mmdi3d_slice_data(): no SliceLocation found for slice_number=1 in alc2_digest /case/temp/x.alc2"]).
Proof. split; vm_compute; reflexivity. Qed.


(* ================================================================== *)
(** * Further properties of the path resolver *)
(* ================================================================== *)

Section CleanPathFacts.

Lemma contains_cons (x : ascii) (s pat : str) :
  contains (x :: s) pat = startswith (x :: s) pat || contains s pat.
Proof. reflexivity. Qed.

(** A component followed by a separator and a text that starts with no
    separator: no doubled separator appears. *)
Lemma no_double_sep_comp (c t : str) :
  no_sep c = true ->
  startswith t [sep] = false ->
  contains t [sep; sep] = false ->
  contains (c ++ sep :: t) [sep; sep] = false.
Proof.
  intros Hc Ht1 Ht2. induction c as [ | x c IH ].
  - cbn [app]. rewrite contains_cons. cbn [startswith].
    rewrite Ascii.eqb_refl. cbn [andb].
    change (startswith t [sep] || contains t [sep; sep] = false).
    rewrite Ht1, Ht2. reflexivity.
  - simpl in Hc. apply andb_prop in Hc as [Hx Hc].
    cbn [app]. rewrite contains_cons, (IH Hc). cbn [startswith].
    unfold is_sep in Hx. rewrite Ascii.eqb_sym.
    destruct (Ascii.eqb x sep); [ discriminate | reflexivity ].
Qed.

Lemma no_double_sep_plain (c : str) :
  no_sep c = true -> contains c [sep; sep] = false.
Proof.
  induction c as [ | x c IH ]; intros Hc; [ reflexivity | ].
  simpl in Hc. apply andb_prop in Hc as [Hx Hc].
  rewrite contains_cons, (IH Hc). cbn [startswith].
  unfold is_sep in Hx. rewrite Ascii.eqb_sym.
  destruct (Ascii.eqb x sep); [ discriminate | reflexivity ].
Qed.

Lemma no_double_sep_join (cs : list str) :
  good_comps cs = true -> contains (join_char sep cs) [sep; sep] = false.
Proof.
  induction cs as [ | a cs IH ]; intros Hg; [ reflexivity | ].
  simpl in Hg. apply andb_prop in Hg as [Ha Hcs].
  destruct cs as [ | b cs ].
  - apply no_double_sep_plain, good_comp_no_sep, Ha.
  - change (join_char sep (a :: b :: cs))
      with (a ++ sep :: join_char sep (b :: cs)).
    apply no_double_sep_comp.
    + apply good_comp_no_sep, Ha.
    + apply join_starts_plain. exact Hcs.
    + apply IH. exact Hcs.
Qed.

Lemma no_double_sep_render (abs : bool) (cs : list str) :
  good_comps cs = true -> contains (render abs cs) [sep; sep] = false.
Proof.
  intros Hg. unfold render. destruct abs; cbn [root app].
  - rewrite contains_cons, (no_double_sep_join cs Hg).
    change (Ascii.eqb sep sep && startswith (join_char sep cs) [sep]
            || false = false).
    rewrite (join_starts_plain cs Hg), andb_false_r. reflexivity.
  - apply no_double_sep_join. exact Hg.
Qed.

Lemma render_nonempty (abs : bool) (cs : list str) :
  good_comps cs = true -> abs = true \/ cs <> [] -> render abs cs <> [].
Proof.
  intros Hg [-> | Hne]; [ discriminate | ].
  intros E. unfold render in E. apply app_eq_nil in E as [_ E].
  pose proof (ends_plain_nonempty _ (join_ends_plain cs Hne Hg)) as H.
  rewrite E in H. discriminate.
Qed.

Lemma render_root_only (abs : bool) (cs : list str) :
  good_comps cs = true -> render abs cs = [sep] -> abs = true /\ cs = [].
Proof.
  intros Hg E. destruct cs as [ | a cs ].
  - destruct abs; [ auto | discriminate ].
  - exfalso.
    pose proof (join_starts_plain (a :: cs) Hg) as Hs.
    pose proof (ends_plain_nonempty _
                  (join_ends_plain (a :: cs) ltac:(discriminate) Hg)) as Hn.
    unfold render in E.
    set (j := join_char sep (a :: cs)) in *. clearbody j.
    destruct abs; cbn [root app] in E.
    + injection E as E'. subst j. discriminate.
    + subst j. cbn [startswith] in Hs.
      rewrite Ascii.eqb_refl in Hs. discriminate.
Qed.

End CleanPathFacts.

(** X1. What [os_clean_path] returns is never the empty string, holds
    no doubled separator and ends with a separator only when it is the
    root ["/"]; and cleaning it again changes nothing, as long as it
    holds no backslash (a backslash sends it through pathlib's conversion
    again). *)
Theorem os_clean_path_normal_form (conv : str -> str) (path : str) :
  os_clean_path conv path <> [] /\
  contains (os_clean_path conv path) [sep; sep] = false /\
  (endswith (os_clean_path conv path) [sep] = true ->
   os_clean_path conv path = [sep]) /\
  (has_char backslash (os_clean_path conv path) = false ->
   os_clean_path conv (os_clean_path conv path) = os_clean_path conv path).
Proof.
  destruct (os_clean_path_shape conv path) as [abs [cs [Hp Hs]]].
  rewrite Hp. pose proof (clean_shape_good _ _ Hs) as Hg.
  pose proof (clean_shape_nonempty _ _ Hs) as Hne.
  repeat split.
  - apply render_nonempty; assumption.
  - apply no_double_sep_render. exact Hg.
  - intros He. destruct cs as [ | a cs ].
    + destruct Hne as [-> | Hne]; [ reflexivity | congruence ].
    + exfalso.
      assert (Hp' : ends_plain (render abs (a :: cs))).
      { unfold render. apply ends_plain_app.
        apply join_ends_plain; [ discriminate | exact Hg ]. }
      rewrite (ends_plain_endswith _ Hp') in He. discriminate.
  - intros Hb. destruct Hs as [[Ht Hr] | [-> ->]].
    + apply os_clean_path_render; assumption.
    + reflexivity.
Qed.

(** X1, witness: ["//a//b/"] cleans to ["/a/b"], which cleans to
    itself. *)
Lemma os_clean_path_normal_form_witness :
  os_clean_path backslash_to_sep (lit "//a//b/") = lit "/a/b" /\
  os_clean_path backslash_to_sep (lit "/a/b") = lit "/a/b" /\
  (endswith (lit "/") [sep] = true ->
   os_clean_path backslash_to_sep (lit "///") = [sep]).
Proof.
  destruct (os_clean_path_normal_form backslash_to_sep (lit "//a//b/"))
    as [_ [_ [_ Hidem]]].
  destruct (os_clean_path_normal_form backslash_to_sep (lit "///"))
    as [_ [_ [Hroot _]]].
  split; [ reflexivity | ]. split.
  - apply Hidem. reflexivity.
  - intros _. apply Hroot. reflexivity.
Defined.

(** X2. Only the root has no element: [num_path_elems(path)] is 0
    exactly when the path cleans to ["/"]; every other path, the empty
    one included, counts at least one element. *)
Theorem num_path_elems_zero_iff_root (conv : str -> str) (path : str) :
  (num_path_elems conv path = 0%Z <-> os_clean_path conv path = [sep]) /\
  (0 <= num_path_elems conv path)%Z.
Proof.
  destruct (os_clean_path_shape conv path) as [abs [cs [Hp Hs]]].
  pose proof (clean_shape_good _ _ Hs) as Hg.
  pose proof (clean_shape_nonempty _ _ Hs) as Hne.
  rewrite num_path_elems_true, Hp, (num_path_elems_render conv abs cs Hg).
  split; [ split | lia ].
  - intros H. destruct cs as [ | a cs ]; [ | simpl in H; lia ].
    destruct Hne as [-> | Hne]; [ reflexivity | congruence ].
  - intros E. destruct (render_root_only abs cs Hg E) as [_ ->]. reflexivity.
Qed.


Section TailFacts.

Lemma no_dd_lead (cs : list str) :
  forallb not_dd cs = true -> lead_dd cs = true.
Proof.
  induction cs as [ | a cs IH ]; [ reflexivity | ].
  simpl. intros H. apply andb_prop in H as [Ha Hcs].
  unfold not_dd in Ha. unfold is_dd.
  destruct (str_eqb a dotdot); [ discriminate | exact Hcs ].
Qed.

Lemma lead_dd_app_r (cs1 cs2 : list str) :
  lead_dd (cs1 ++ cs2) = true -> lead_dd cs2 = true.
Proof.
  induction cs1 as [ | a cs1 IH ]; [ auto | ].
  simpl. destruct (is_dd a); [ exact IH | ].
  rewrite forallb_app. intros H. apply andb_prop in H as [_ H].
  apply no_dd_lead. exact H.
Qed.

(** The components split off a tidy path make a tidy relative path. *)
Lemma tidy_app_r (abs : bool) (cs1 cs2 : list str) :
  tidy abs (cs1 ++ cs2) = true -> tidy false cs2 = true.
Proof.
  unfold tidy, good_comps. rewrite !forallb_app. intros H.
  apply andb_prop in H as [H H3]. apply andb_prop in H as [H1 H2].
  apply andb_prop in H1 as [_ H1]. apply andb_prop in H2 as [_ H2].
  rewrite H1, H2. simpl. destruct abs.
  - apply andb_prop in H3 as [_ H3]. apply no_dd_lead. exact H3.
  - eapply lead_dd_app_r. exact H3.
Qed.

Lemma basename_render (abs : bool) (cs : list str) (c : str) :
  good_comps cs = true -> good_comp c = true ->
  basename (render abs (cs ++ [c])) = c.
Proof.
  intros Hcs Hc. pose proof (split_render abs cs c Hcs Hc) as H.
  unfold split in H. injection H as _ H. exact H.
Qed.

End TailFacts.

(** X3. For [1 <= n <= num_path_elems(path)], the tail [path_split]
    returns is a relative path (it starts with no separator) of exactly
    [n] elements (counted when it holds no backslash). *)
Theorem path_split_tail_has_n_elements (conv : str -> str) (path : str)
    (n : Z) :
  (1 <= n <= num_path_elems conv path)%Z ->
  startswith (snd (path_split conv path n)) [sep] = false /\
  (has_char backslash (snd (path_split conv path n)) = false ->
   num_path_elems conv (snd (path_split conv path n)) = n).
Proof.
  intros Hn.
  destruct (path_split_decomp conv path n Hn)
    as [abs [cs1 [cs2 [Hp [Hs [Hne [Hl [Hsplit Hc]]]]]]]].
  rewrite Hsplit. cbn [snd].
  pose proof (clean_shape_good _ _ Hs) as Hg.
  unfold good_comps in Hg. rewrite forallb_app in Hg.
  apply andb_prop in Hg as [Hg1 Hg2].
  split; [ apply join_starts_plain; exact Hg2 | ].
  intros Hb. rewrite <- Hl.
  destruct Hs as [[Ht _] | [_ Hd]].
  - change (join_char sep cs2) with (render false cs2) in *.
    rewrite num_path_elems_true, os_clean_path_render;
      [ | eapply tidy_app_r; exact Ht | right; exact Hne | exact Hb ].
    apply num_path_elems_render. exact Hg2.
  - assert (E : cs2 = [dot]).
    { destruct cs1 as [ | a cs1 ]; [ exact Hd | ].
      destruct cs1; [ | destruct cs1; discriminate ].
      destruct cs2; [ congruence | discriminate ]. }
    rewrite E. reflexivity.
Qed.

(** X3, witness: the tail of ["/a/b/c"] split at 2 is ["b/c"], of two
    elements. *)
Lemma path_split_tail_has_n_elements_witness :
  snd (path_split backslash_to_sep (lit "/a/b/c") 2) = lit "b/c" /\
  num_path_elems backslash_to_sep (lit "b/c") = 2%Z.
Proof.
  destruct (path_split_tail_has_n_elements backslash_to_sep (lit "/a/b/c") 2)
    as [_ H].
  - vm_compute. split; discriminate.
  - split; [ reflexivity | ]. apply H. reflexivity.
Defined.

(** X4. A path that [find_existing_composite_path] returns, other than
    the text ['None'], exists on disk, and its last element is the last
    element of [path_2] (as [path_split] cleans it): the file found
    keeps the name the digest recorded. *)
Theorem find_existing_composite_sound (conv : str -> str) (ex : str -> bool)
    (path_1 path_2 : str) :
  find_existing_composite_path conv ex path_1 path_2 <> lit "None" ->
  ex (find_existing_composite_path conv ex path_1 path_2) = true /\
  basename (find_existing_composite_path conv ex path_1 path_2)
  = basename (os_clean_path conv (os_clean_path conv path_2)).
Proof.
  unfold find_existing_composite_path.
  set (a := os_clean_path conv path_1). set (b := os_clean_path conv path_2).
  rewrite composite_search_find.
  destruct (find ex (composite_candidates conv a b)) as [ r | ] eqn:E;
    [ intros _ | congruence ].
  apply find_some in E as [Hin Hex]. split; [ exact Hex | ].
  unfold composite_candidates in Hin.
  apply in_flat_map in Hin as [j [Hj Hin]].
  apply in_map_iff in Hin as [i [<- Hi]].
  apply In_py_range in Hj. apply In_py_range in Hi.
  unfold candidate.
  destruct (path_split_decomp conv a i ltac:(lia))
    as [abs1 [as1 [as2 [_ [Hs1 [_ [_ [Hsplit1 _]]]]]]]].
  destruct (path_split_decomp conv b j ltac:(lia))
    as [abs2 [bs1 [bs2 [Hp2 [Hs2 [Hne2 [_ [Hsplit2 _]]]]]]]].
  rewrite Hsplit1, Hsplit2, Hp2. cbn [fst snd].
  pose proof (clean_shape_good _ _ Hs1) as Hg1.
  pose proof (clean_shape_good _ _ Hs2) as Hg2.
  unfold good_comps in Hg1, Hg2. rewrite forallb_app in Hg1, Hg2.
  apply andb_prop in Hg1 as [Hg1 _]. apply andb_prop in Hg2 as [Hg2a Hg2b].
  rewrite join_render by assumption.
  destruct (exists_last Hne2) as [bs2' [c ->]].
  rewrite forallb_app in Hg2b. apply andb_prop in Hg2b as [Hg2b Hc].
  simpl in Hc. rewrite andb_true_r in Hc.
  rewrite !app_assoc.
  rewrite !basename_render; auto;
    unfold good_comps; rewrite forallb_app; apply andb_true_intro; auto.
Qed.

(** X4, witness: with only ["/a/b/c"] on disk, the path found for
    ["/a/b/c"] and ["/x/y/c"] exists and is named ["c"]. *)
Lemma find_existing_composite_sound_witness :
  (fun p => str_eqb p (lit "/a/b/c"))
    (find_existing_composite_path backslash_to_sep
       (fun p => str_eqb p (lit "/a/b/c")) (lit "/a/b/c") (lit "/x/y/c"))
  = true /\
  basename (find_existing_composite_path backslash_to_sep
              (fun p => str_eqb p (lit "/a/b/c")) (lit "/a/b/c")
              (lit "/x/y/c"))
  = lit "c".
Proof.
  destruct (find_existing_composite_sound backslash_to_sep
              (fun p => str_eqb p (lit "/a/b/c")) (lit "/a/b/c")
              (lit "/x/y/c")) as [H1 H2].
  - vm_compute. discriminate.
  - split; [ exact H1 | exact H2 ].
Defined.


(* ================================================================== *)
(** * Further properties of the digest parser *)
(* ================================================================== *)

Section StripFacts.

Lemma lstrip_solid (s : str) : starts_solid (lstrip s).
Proof.
  induction s as [ | x s IH ]; simpl; auto.
  destruct (is_space x) eqn:E; [ exact IH | exact E ].
Qed.

Lemma lstrip_fixed (s : str) : starts_solid s -> lstrip s = s.
Proof. destruct s as [ | x s ]; simpl; auto. intros ->. reflexivity. Qed.

Lemma lstrip_suffix (s : str) : exists pre, s = pre ++ lstrip s.
Proof.
  induction s as [ | x s [pre IH] ]; simpl.
  - exists []. reflexivity.
  - destruct (is_space x).
    + exists (x :: pre). simpl. f_equal. exact IH.
    + exists []. reflexivity.
Qed.

Lemma rstrip_prefix (s : str) : exists post, s = rstrip s ++ post.
Proof.
  unfold rstrip. destruct (lstrip_suffix (rev s)) as [pre H].
  exists (rev pre). rewrite <- rev_app_distr, <- H, rev_involutive.
  reflexivity.
Qed.

Lemma rstrip_fixed_point (s : str) : rstrip (rstrip s) = rstrip s.
Proof.
  unfold rstrip. rewrite rev_involutive.
  rewrite (lstrip_fixed _ (lstrip_solid (rev s))). reflexivity.
Qed.

Lemma rstrip_solid (s : str) : starts_solid s -> starts_solid (rstrip s).
Proof.
  intros H. destruct (rstrip_prefix s) as [post E].
  destruct (rstrip s) as [ | x r ]; [ exact I | ].
  rewrite E in H. exact H.
Qed.

(** Trimming twice is trimming once. *)
Lemma strip_fixed_point (s : str) : strip (strip s) = strip s.
Proof.
  unfold strip.
  rewrite (lstrip_fixed (rstrip (lstrip s)))
    by (apply rstrip_solid, lstrip_solid).
  apply rstrip_fixed_point.
Qed.

(** Trimming brings in no character. *)
Lemma has_char_strip (c : ascii) (s : str) :
  has_char c s = false -> has_char c (strip s) = false.
Proof.
  intros H. unfold strip.
  destruct (lstrip_suffix s) as [pre E1].
  destruct (rstrip_prefix (lstrip s)) as [post E2].
  rewrite E1, E2, !has_char_app in H.
  apply orb_false_elim in H as [_ H]. apply orb_false_elim in H as [H _].
  exact H.
Qed.

End StripFacts.

Section ContentFacts.

Lemma dict_set_keys {V} (d : dict V) (k : str) (v : V) :
  NoDup (dict_keys d) -> NoDup (dict_keys (dict_set d k v)).
Proof.
  unfold dict_keys.
  assert (H : forall d : dict V,
             (forall x, In x (map fst (dict_set d k v)) ->
                        In x (map fst d) \/ x = k) /\
             (NoDup (map fst d) -> NoDup (map fst (dict_set d k v)))).
  { clear d. induction d as [ | [k' v'] d [IH1 IH2] ]; simpl.
    - split; [ intros x [<- | []]; auto | ].
      intros _. constructor; [ intros [] | constructor ].
    - destruct (str_eqb k' k) eqn:E; simpl.
      + split; [ tauto | auto ].
      + split.
        * intros x [<- | Hx]; [ auto | ].
          destruct (IH1 x Hx); auto.
        * intros Hnd. inversion Hnd as [ | ? ? Hnot Hnd' ]. subst.
          constructor; [ | auto ].
          intros Hin. destruct (IH1 _ Hin) as [Hin' | ->]; [ auto | ].
          rewrite str_eqb_refl in E. discriminate. }
  apply H.
Qed.

Lemma dict_set_items {V} (P : str * V -> Prop) (d : dict V) (k : str)
    (v : V) :
  Forall P d -> P (k, v) -> Forall P (dict_set d k v).
Proof.
  intros Hd Hk. induction d as [ | [k' v'] d IH ]; simpl.
  - constructor; [ exact Hk | constructor ].
  - inversion Hd as [ | ? ? Hx Hd' ]. subst.
    destruct (str_eqb k' k) eqn:E.
    + apply str_eqb_eq in E. subst k'. constructor; assumption.
    + constructor; auto.
Qed.

Lemma parse_line_well_formed (content : dict str) (comments : list comment)
    (line : str) :
  NoDup (dict_keys content) /\ Forall well_formed_item content ->
  NoDup (dict_keys (fst (parse_line (content, comments) line))) /\
  Forall well_formed_item (fst (parse_line (content, comments) line)).
Proof.
  intros [Hnd Hwf]. unfold parse_line.
  set (before := fst (split_once "%" line)).
  assert (Hpct : has_char "%"%char before = false).
  { pose proof (split_once_first "%"%char line) as H. fold before in H.
    destruct (snd (split_once "%" line)); [ apply H | ].
    destruct H as [H1 H2]. rewrite <- H1. exact H2. }
  pose proof (split_once_first "="%char before) as Heq.
  destruct (snd (split_once "=" before)) as [ after | ];
    [ | destruct (snd (split_once "%" line)); auto ].
  destruct Heq as [Hcut Hk].
  assert (Hparts : has_char "%"%char (fst (split_once "=" before)) = false
                   /\ has_char "%"%char after = false).
  { rewrite Hcut in Hpct.
    change (fst (split_once "=" before) ++ "="%char :: after)
      with (fst (split_once "=" before) ++ ["="%char] ++ after) in Hpct.
    rewrite !has_char_app in Hpct.
    apply orb_false_elim in Hpct as [H1 H2].
    apply orb_false_elim in H2 as [_ H2]. auto. }
  destruct Hparts as [Hp1 Hp2].
  assert (Hitem : well_formed_item
                    (strip (fst (split_once "=" before)), strip after)).
  { unfold well_formed_item. cbn [fst snd].
    rewrite !strip_fixed_point. repeat split; auto using has_char_strip. }
  destruct (snd (split_once "%" line)); cbn [fst];
    (split; [ apply dict_set_keys; exact Hnd
            | apply dict_set_items; assumption ]).
Qed.

Lemma parse_text_well_formed (text : str) :
  NoDup (dict_keys (fst (parse_text text))) /\
  Forall well_formed_item (fst (parse_text text)).
Proof.
  unfold parse_text.
  set (lines := filter _ (filter _ (splitlines text))). clearbody lines.
  assert (H : forall (lines : list str) (st : dict str * list comment),
             NoDup (dict_keys (fst st)) /\ Forall well_formed_item (fst st) ->
             NoDup (dict_keys (fst (fold_left parse_line lines st))) /\
             Forall well_formed_item (fst (fold_left parse_line lines st))).
  { clear lines. induction lines as [ | line lines IH ]; intros st Hst;
      [ exact Hst | ].
    cbn [fold_left]. apply IH. destruct st as [content comments].
    apply parse_line_well_formed. exact Hst. }
  apply H. split; constructor.
Qed.

End ContentFacts.

(** X5. In the content [parse_digest] builds from any text, every key
    occurs once, keys and values are trimmed (no white space on either
    side), a key holds neither [=] nor [%], and a value holds no [%]. *)
Theorem parse_text_content_well_formed (text : str) :
  NoDup (dict_keys (fst (parse_text text))) /\
  (forall key val,
     In (key, val) (fst (parse_text text)) ->
     strip key = key /\ strip val = val /\
     has_char "="%char key = false /\ has_char "%"%char key = false /\
     has_char "%"%char val = false).
Proof.
  destruct (parse_text_well_formed text) as [Hnd Hwf].
  split; [ exact Hnd | ].
  intros key val Hin. rewrite Forall_forall in Hwf.
  exact (Hwf (key, val) Hin).
Qed.

(** X5, witness: the item [a = 1] of the example digest. *)
Lemma parse_text_content_well_formed_witness :
  strip (lit "a") = lit "a" /\ strip (lit "1") = lit "1" /\
  has_char "="%char (lit "a") = false /\
  has_char "%"%char (lit "a") = false /\
  has_char "%"%char (lit "1") = false.
Proof.
  destruct (parse_text_content_well_formed example_digest) as [_ H].
  apply (H (lit "a") (lit "1")). vm_compute. left. reflexivity.
Defined.


(* ================================================================== *)
(** * Further properties of the dataset matcher *)
(* ================================================================== *)

Section EntryInvariant.

Lemma set_nth_Forall {A} (P : A -> Prop) (x : A) (l : list A) :
  forall i, Forall P l -> P x -> Forall P (set_nth i x l).
Proof.
  induction l as [ | y l IH ]; intros i Hl Hx;
    [ destruct i; simpl; constructor | ].
  inversion Hl. subst. destruct i; simpl; constructor; auto.
Qed.

Lemma length_set_nth {A} (x : A) (l : list A) :
  forall i, length (set_nth i x l) = length l.
Proof.
  induction l as [ | y l IH ]; intros i; [ destruct i; reflexivity | ].
  destruct i; simpl; auto.
Qed.

Lemma nth_entry_ok (entries : list entry) (i : nat) :
  Forall entry_ok entries ->
  nth i entries no_entry = no_entry \/ entry_ok (nth i entries no_entry).
Proof.
  intros H. destruct (nth_in_or_default i entries no_entry) as [Hin | E];
    [ right | left; exact E ].
  rewrite Forall_forall in H. apply H. exact Hin.
Qed.

Variables (folder : str) (dcm : dicom).

Lemma mag_loop_keeps (entries : list entry) (i_todo : list nat) :
  forall (i_last : option nat) (entries' : list entry) (i' : option nat),
    Forall entry_ok entries ->
    mag_loop folder dcm entries i_todo i_last = Returned (entries', i') ->
    Forall entry_ok entries' /\ length entries' = length entries.
Proof.
  induction i_todo as [ | i i_todo IH ]; intros i_last entries' i' Hok H.
  - inversion H. subst. auto.
  - cbn [mag_loop] in H.
    destruct (nth_entry_ok entries i Hok) as [E | He].
    + rewrite E in H. cbn [phase_series no_entry] in H. eapply IH; eauto.
    + destruct (phase_series (nth i entries no_entry)) as [ ps | ] eqn:Eps;
        [ | eapply IH; eauto ].
      unfold series_number in H.
      destruct (SeriesNumber dcm) as [ n | ]; [ | discriminate ].
      cbn [bind] in H.
      destruct (ps =? n + 1)%Z eqn:Ez; [ | eapply IH; eauto ].
      apply Z.eqb_eq in Ez. inversion H. subst entries' i'.
      split; [ | apply length_set_nth ].
      apply set_nth_Forall; [ exact Hok | ].
      destruct He as [_ [H2 _]].
      unfold entry_ok. cbn [mag mag_series phase phase_series has].
      rewrite H2, Eps. cbn [has]. repeat split.
      intros m p Hm Hp. congruence.
Qed.

Lemma phase_loop_keeps (entries : list entry) (i_todo : list nat) :
  forall (i_last : option nat) (entries' : list entry) (i' : option nat),
    Forall entry_ok entries ->
    phase_loop folder dcm entries i_todo i_last = Returned (entries', i') ->
    Forall entry_ok entries' /\ length entries' = length entries.
Proof.
  induction i_todo as [ | i i_todo IH ]; intros i_last entries' i' Hok H.
  - inversion H. subst. auto.
  - cbn [phase_loop] in H.
    destruct (nth_entry_ok entries i Hok) as [E | He].
    + rewrite E in H. cbn [mag_series no_entry] in H. eapply IH; eauto.
    + destruct (mag_series (nth i entries no_entry)) as [ ms | ] eqn:Ems;
        [ | eapply IH; eauto ].
      unfold series_number in H.
      destruct (SeriesNumber dcm) as [ n | ]; [ | discriminate ].
      cbn [bind] in H.
      destruct (ms =? n - 1)%Z eqn:Ez; [ | eapply IH; eauto ].
      apply Z.eqb_eq in Ez. inversion H. subst entries' i'.
      split; [ | apply length_set_nth ].
      apply set_nth_Forall; [ exact Hok | ].
      destruct He as [H1 _].
      unfold entry_ok. cbn [mag mag_series phase phase_series has].
      rewrite H1, Ems. cbn [has]. repeat split.
      intros m p Hm Hp. inversion Hm. inversion Hp. lia.
Qed.

Lemma new_mag_entry_ok (n : Z) :
  entry_ok {| mag := Some folder; mag_series := Some n;
              phase := None; phase_series := None |}.
Proof. unfold entry_ok. cbn. repeat split. intros; discriminate. Qed.

Lemma new_phase_entry_ok (n : Z) :
  entry_ok {| mag := None; mag_series := None;
              phase := Some folder; phase_series := Some n |}.
Proof. unfold entry_ok. cbn. repeat split. intros; discriminate. Qed.

Lemma Forall_snoc {A} (P : A -> Prop) (l : list A) (x : A) :
  Forall P l -> P x -> Forall P (l ++ [x]).
Proof. intros Hl Hx. apply Forall_app. split; [ exact Hl | auto ]. Qed.

Lemma add_folder_keeps (dcm_count : Z) (manu desc : str)
    (entries entries' : list entry) :
  Forall entry_ok entries ->
  add_folder folder dcm dcm_count manu desc entries = Returned entries' ->
  Forall entry_ok entries' /\
  length entries <= length entries' <= S (length entries).
Proof.
  intros Hok H. unfold add_folder in H.
  destruct (ge_valid_like manu desc dcm_count
            || philips_valid_like manu dcm_count).
  { unfold series_number in H.
    destruct (SeriesNumber dcm) as [ n | ]; [ | discriminate ].
    inversion H. split.
    - apply Forall_snoc; [ exact Hok | apply new_mag_entry_ok ].
    - rewrite length_app. simpl. lia. }
  destruct (siemens_valid_like manu desc);
    [ | inversion H; subst; split; [ exact Hok | lia ] ].
  destruct (endswith (lower desc) (lit "mag")).
  { unfold siemens_mag in H.
    destruct (mag_loop folder dcm entries (seq 0 (length entries)) None)
      as [ [es i_last] | ] eqn:E; [ | discriminate ].
    destruct (mag_loop_keeps _ _ _ _ _ Hok E) as [Hes Hlen].
    cbn [bind] in H.
    destruct (starts_new_entry es i_last (fun e => has (mag e))).
    - unfold series_number in H.
      destruct (SeriesNumber dcm) as [ n | ]; [ | discriminate ].
      inversion H. split.
      + apply Forall_snoc; [ exact Hes | apply new_mag_entry_ok ].
      + rewrite length_app. simpl. lia.
    - inversion H. subst. split; [ exact Hes | lia ]. }
  destruct (endswith (lower desc) (lit "p_p")).
  { unfold siemens_phase in H.
    destruct (phase_loop folder dcm entries (seq 0 (length entries)) None)
      as [ [es i_last] | ] eqn:E; [ | discriminate ].
    destruct (phase_loop_keeps _ _ _ _ _ Hok E) as [Hes Hlen].
    cbn [bind] in H.
    destruct (starts_new_entry es i_last (fun e => has (phase e))).
    - unfold series_number in H.
      destruct (SeriesNumber dcm) as [ n | ]; [ | discriminate ].
      inversion H. split.
      + apply Forall_snoc; [ exact Hes | apply new_phase_entry_ok ].
      + rewrite length_app. simpl. lia.
    - inversion H. subst. split; [ exact Hes | lia ]. }
  inversion H. subst. split; [ exact Hok | lia ].
Qed.

End EntryInvariant.

Section ScanInvariant.

Variables (w : world) (rapid : bool).

Lemma scan_folder_keeps (st st' : data3d) (folder : str) :
  Forall entry_ok (data st) ->
  scan_folder w rapid st folder = Returned st' ->
  Forall entry_ok (data st') /\
  length (data st) <= length (data st') <= S (length (data st)) /\
  top_dir st' = top_dir st.
Proof.
  intros Hok H. unfold scan_folder in H.
  assert (Hsame : Forall entry_ok (data st) /\
                  length (data st) <= length (data st)
                  <= S (length (data st)) /\ top_dir st = top_dir st)
    by (repeat split; auto).
  destruct (probe_folder w rapid
              (dir_file_list w (join (top_dir st) folder) true))
    as [ [dcm_count [ dcm | ]] | ];
    [ | inversion H; subst; exact Hsame | inversion H; subst; exact Hsame ].
  destruct (skip_folder dcm_count dcm); [ inversion H; subst; exact Hsame | ].
  destruct (SeriesDescription dcm) as [ desc | ];
    [ | inversion H; subst; exact Hsame ].
  destruct (Manufacturer dcm) as [ tag | ];
    [ | inversion H; subst; exact Hsame ].
  destruct (add_folder folder dcm dcm_count (classify (manufacturer st) tag)
              desc (data st)) as [ entries | ] eqn:E; [ | discriminate ].
  cbn [bind] in H. inversion H. cbn [data top_dir].
  destruct (add_folder_keeps folder dcm _ _ _ _ _ Hok E) as [Hkeep Hlen].
  repeat split; auto; lia.
Qed.

Lemma scan_folders_keeps (folders : list str) :
  forall st st' : data3d,
    Forall entry_ok (data st) ->
    scan_folders w rapid st folders = Returned st' ->
    Forall entry_ok (data st') /\
    length (data st') <= length (data st) + length folders /\
    top_dir st' = top_dir st.
Proof.
  induction folders as [ | folder folders IH ]; intros st st' Hok H.
  - inversion H. subst. repeat split; auto. lia.
  - cbn [scan_folders] in H.
    destruct (scan_folder w rapid st folder) as [ st1 | ] eqn:E;
      [ | discriminate ].
    cbn [bind] in H.
    destruct (scan_folder_keeps _ _ _ Hok E) as [H1 [H2 H3]].
    destruct (IH _ _ H1 H) as [H4 [H5 H6]].
    repeat split; [ exact H4 | simpl; lia | congruence ].
Qed.

End ScanInvariant.

(** X6. Every entry [find_mmdi3d_datasets] returns has a folder exactly
    where it has the series number of that folder, has at least one of
    its two halves, and, when it has both, pairs them by
    [phase_series = mag_series + 1]; and there are at most as many
    entries as folders under the scan root. *)
Theorem find_mmdi3d_datasets_entries_paired (w : world) (top_dir' : str)
    (rapid : bool) (d : data3d) :
  find_mmdi3d_datasets w top_dir' rapid = Returned d ->
  top_dir d = top_dir' /\
  length (data d) <= length (dir_folder_list w top_dir') /\
  (forall e, In e (data d) ->
     has (mag e) = has (mag_series e) /\
     has (phase e) = has (phase_series e) /\
     has (mag e) || has (phase e) = true /\
     (forall m p, mag_series e = Some m -> phase_series e = Some p ->
                  p = (m + 1)%Z)).
Proof.
  intros H. unfold find_mmdi3d_datasets in H.
  destruct (scan_folders_keeps w rapid _
              {| top_dir := top_dir'; manufacturer := []; data := [] |} d
              (Forall_nil _) H) as [Hall [Hlen Htop]].
  cbn [data top_dir length Nat.add] in Hlen, Htop.
  split; [ exact Htop | split; [ exact Hlen | ] ].
  intros e He. rewrite Forall_forall in Hall. exact (Hall e He).
Qed.

(** X6, witness: the one entry of the magnitude 12 and phase 13 scan
    pairs 13 with 12 + 1. *)
Lemma find_mmdi3d_datasets_entries_paired_witness :
  length [{| mag := Some (lit "A"); mag_series := Some 12%Z;
             phase := Some (lit "B"); phase_series := Some 13%Z |}]
  <= length (dir_folder_list siemens_pair_world top) /\
  13%Z = (12 + 1)%Z.
Proof.
  destruct (find_mmdi3d_datasets_entries_paired siemens_pair_world top false
              {| top_dir := top; manufacturer := lit "Siemens";
                 data := [{| mag := Some (lit "A"); mag_series := Some 12%Z;
                             phase := Some (lit "B");
                             phase_series := Some 13%Z |}] |})
    as [_ [Hlen H]].
  - vm_compute. reflexivity.
  - split; [ exact Hlen | ].
    destruct (H {| mag := Some (lit "A"); mag_series := Some 12%Z;
                   phase := Some (lit "B"); phase_series := Some 13%Z |}
                (or_introl eq_refl)) as [_ [_ [_ Hpair]]].
    exact (Hpair 12%Z 13%Z eq_refl eq_refl).
Defined.

(* ================================================================== *)
(** * Further properties of the slice and contrast locator *)
(* ================================================================== *)

Section LocatorInvariant.

Variable w : world.

Lemma find_contrast_file_sound (target : option Q) (files : list str)
    (path : str) :
  find_contrast_file w target files = Some path ->
  In path files /\
  exists dcm, w_dicom w path = Some dcm /\
              location_eqb (SliceLocation dcm) target = true.
Proof.
  induction files as [ | f files IH ]; simpl; [ discriminate | ].
  destruct (w_dicom w f) as [ dcm | ] eqn:E.
  - destruct (location_eqb (SliceLocation dcm) target) eqn:L.
    + intros H. inversion H. subst. split; [ left; reflexivity | ].
      exists dcm. split; assumption.
    + intros H. destruct (IH H) as [H1 H2]. split; [ right | ]; assumption.
  - intros H. destruct (IH H) as [H1 H2]. split; [ right | ]; assumption.
Qed.

Lemma contrast_dir_loop_sound (mag_series : option str)
    (parent code : str) (target : option Q) (folders : list str) :
  forall path p,
    contrast_dir_loop w mag_series parent code target folders path
    = Returned p ->
    p = path \/
    exists dcm, w_dicom w p = Some dcm /\
                location_eqb (SliceLocation dcm) target = true.
Proof.
  induction folders as [ | folder folders IH ]; intros path p H;
    cbn [contrast_dir_loop] in H.
  - inversion H. left. reflexivity.
  - destruct (startswith folder (lit "s") && endswith folder code);
      [ | exact (IH _ _ H) ].
    destruct (mag_series_startswith mag_series (slice_1_m2 folder))
      as [ hit | ]; [ | discriminate ].
    cbn [bind] in H. destruct hit; [ | exact (IH _ _ H) ].
    destruct (find_contrast_file w target
                (dir_file_list w (join parent folder) true))
      as [ found | ] eqn:F.
    + destruct (find_contrast_file_sound _ _ _ F) as [_ Hfound].
      destruct (negb (is_empty found)).
      * inversion H. subst. right. exact Hfound.
      * destruct (IH _ _ H) as [-> | Hp]; right; assumption.
    + destruct (negb (is_empty path)); [ inversion H; left; reflexivity | ].
      exact (IH _ _ H).
Qed.

Lemma get_set_path (r : slice_rec) (c c' : contrast) (p : str) :
  CONTRASTS c <> [] ->
  get_path (set_path r c p) c' = p \/
  get_path (set_path r c p) c' = get_path r c'.
Proof.
  destruct c; cbn [CONTRASTS]; try congruence; intros _;
    destruct c'; cbn; auto.
Qed.

Lemma slice_location_set_path (r : slice_rec) (c : contrast) (p : str) :
  slice_location (set_path r c p) = slice_location r.
Proof. destruct c; reflexivity. Qed.

Lemma roi_file_path_set_path (r : slice_rec) (c : contrast) (p : str) :
  roi_file_path (set_path r c p) = roi_file_path r.
Proof. destruct c; reflexivity. Qed.

Lemma is_empty_false_neq (s : str) : is_empty s = false -> s <> [].
Proof. destruct s; [ discriminate | discriminate ]. Qed.

Lemma contrasts_loop_keeps (mag_series : option str) (parent : str)
    (contrasts : list contrast) :
  forall rec rec',
    truthy (slice_location rec) = true ->
    (forall c, path_ok w rec c) ->
    contrasts_loop w mag_series parent contrasts rec = Returned rec' ->
    (forall c, path_ok w rec' c) /\
    slice_location rec' = slice_location rec /\
    roi_file_path rec' = roi_file_path rec.
Proof.
  induction contrasts as [ | c contrasts IH ]; intros rec rec' Ht Hok H;
    cbn [contrasts_loop] in H.
  - inversion H. subst. auto.
  - destruct (negb (is_empty (CONTRASTS c))) eqn:Ec; [ | exact (IH _ _ Ht Hok H) ].
    destruct (contrast_dir_loop w mag_series parent (CONTRASTS c)
                (slice_location rec) (dir_folder_list w parent)
                (get_path rec c)) as [ path | ] eqn:E; [ | discriminate ].
    cbn [bind] in H.
    assert (Hc : CONTRASTS c <> [])
      by (apply is_empty_false_neq, negb_true_iff; exact Ec).
    assert (Hok' : forall c', path_ok w (set_path rec c path) c').
    { intros c'. unfold path_ok. rewrite slice_location_set_path.
      destruct (get_set_path rec c c' path Hc) as [-> | ->];
        [ | exact (Hok c') ].
      destruct (contrast_dir_loop_sound _ _ _ _ _ _ _ E) as [-> | Hp].
      - exact (Hok c).
      - right. split; assumption. }
    rewrite <- (slice_location_set_path rec c path) in Ht.
    destruct (IH _ _ Ht Hok' H) as [H1 [H2 H3]].
    rewrite slice_location_set_path in H2.
    rewrite roi_file_path_set_path in H3. auto.
Qed.

Lemma slices_loop_keeps (mag_series : option str) (parent : str)
    (slices : dict slice_rec) :
  forall slice_data,
    Forall (fun item => forall c, path_ok w (snd item) c) slices ->
    slices_loop w mag_series parent slices = Returned slice_data ->
    Forall (fun item => forall c, path_ok w (snd item) c) slice_data /\
    map fst slice_data = map fst slices /\
    map (fun item => slice_location (snd item)) slice_data
    = map (fun item => slice_location (snd item)) slices /\
    map (fun item => roi_file_path (snd item)) slice_data
    = map (fun item => roi_file_path (snd item)) slices.
Proof.
  induction slices as [ | [slice_number rec] slices IH ];
    intros slice_data Hok H; cbn [slices_loop] in H.
  - inversion H. subst. repeat split; constructor.
  - inversion Hok as [ | ? ? Hrec Hrest ]. subst.
    assert (Hone : exists rec',
               (if truthy (slice_location rec)
                then contrasts_loop w mag_series parent contrast_keys rec
                else Returned rec) = Returned rec' /\
               (forall c, path_ok w rec' c) /\
               slice_location rec' = slice_location rec /\
               roi_file_path rec' = roi_file_path rec).
    { destruct (truthy (slice_location rec)) eqn:Ht.
      - destruct (contrasts_loop w mag_series parent contrast_keys rec)
          as [ rec' | ] eqn:E; [ | discriminate ].
        exists rec'. split; [ reflexivity | ].
        exact (contrasts_loop_keeps _ _ _ _ _ Ht Hrec E).
      - exists rec. auto. }
    destruct Hone as [rec' [E [H1 [H2 H3]]]]. rewrite E in H.
    cbn [bind] in H.
    destruct (slices_loop w mag_series parent slices) as [ rest' | ] eqn:R;
      [ | discriminate ].
    cbn [bind] in H. inversion H. subst.
    destruct (IH _ Hrest eq_refl) as [I1 [I2 [I3 I4]]].
    cbn [map fst snd]. rewrite I2, I3, I4, H2, H3.
    repeat split; auto.
Qed.

Lemma scrape_key_paths_unset (alc2_digest temp_dir inversion_3d_dir : str)
    (content : dict str) (st : scrape) (item : str * str) :
  Forall (fun it => forall c, path_ok w (snd it) c) (sc_slice_data st) ->
  Forall (fun it => forall c, path_ok w (snd it) c)
    (sc_slice_data
       (scrape_key w alc2_digest temp_dir inversion_3d_dir content st item)).
Proof.
  intros H. destruct item as [key1 val1]. unfold scrape_key.
  destruct (startswith key1 (lit "mre.roi.slice.")).
  - cbn [sc_slice_data]. apply dict_set_items; [ exact H | ].
    intros c. left. destruct c; reflexivity.
  - destruct (str_eqb key1 (lit "mre.mag.seriesNumber")); exact H.
Qed.

Lemma scrape_paths_unset (alc2_digest temp_dir inversion_3d_dir : str)
    (content : dict str) (items : list (str * str)) :
  forall st,
    Forall (fun it => forall c, path_ok w (snd it) c) (sc_slice_data st) ->
    Forall (fun it => forall c, path_ok w (snd it) c)
      (sc_slice_data
         (fold_left (scrape_key w alc2_digest temp_dir inversion_3d_dir
                       content) items st)).
Proof.
  induction items as [ | item items IH ]; intros st H; simpl; [ exact H | ].
  apply IH, scrape_key_paths_unset, H.
Qed.

Lemma locate_slices_keeps (alc2_digest temp_dir inversion_3d_dir : str)
    (content : dict str) (log : list str) (slice_data : dict slice_rec) :
  fst (locate_slices w alc2_digest temp_dir inversion_3d_dir content log)
  = Returned slice_data ->
  Forall (fun it => forall c, path_ok w (snd it) c) slice_data.
Proof.
  unfold locate_slices. cbn [fst].
  set (st := fold_left _ content _).
  destruct (find_parent_dir (sc_mag_series st) inversion_3d_dir
              (dir_folder_list w inversion_3d_dir)) as [ parent | ];
    [ | discriminate ].
  cbn [bind]. intros H.
  refine (proj1 (slices_loop_keeps _ _ _ _ _ H)).
  apply scrape_paths_unset. constructor.
Qed.

(** The ways [get_mmdi3d_slice_data] ends: with the empty dictionary,
    with what reading the digest raises, or with what the search gives
    for the content of the digest. *)
Lemma get_mmdi3d_slice_data_cases
    (alc2_digest temp_dir inversion_3d_dir : str) :
  fst (get_mmdi3d_slice_data w alc2_digest temp_dir inversion_3d_dir)
  = Returned [] \/
  (w_text w alc2_digest = None /\
   fst (get_mmdi3d_slice_data w alc2_digest temp_dir inversion_3d_dir)
   = Raised OSError) \/
  exists text temp_dir' inversion_3d_dir',
    w_text w alc2_digest = Some text /\
    get_mmdi3d_slice_data w alc2_digest temp_dir inversion_3d_dir
    = locate_slices w alc2_digest temp_dir' inversion_3d_dir'
        (fst (parse_text text)) [].
Proof.
  unfold get_mmdi3d_slice_data.
  destruct (negb (endswith (lower alc2_digest) (lit ".alc2")));
    [ left; reflexivity | ].
  destruct (negb (w_exists w alc2_digest)); [ left; reflexivity | ].
  destruct (negb (w_isfile w alc2_digest)); [ left; reflexivity | ].
  unfold parse_digest.
  destruct (w_text w alc2_digest) as [ text | ];
    [ | right; left; split; reflexivity ].
  destruct (parse_text text) as [content comments] eqn:P. cbn [fst].
  repeat match goal with
         | |- context [match first_dir ?w' ?l with _ => _ end] =>
             destruct (first_dir w' l)
         | |- context [if ?b then _ else _] => destruct b
         end;
    try (left; reflexivity);
    right; right; exists text; rewrite P; cbn [fst];
    eexists _, _; (split; reflexivity).
Qed.

Lemma get_mmdi3d_slice_data_keeps
    (alc2_digest temp_dir inversion_3d_dir : str)
    (slice_data : dict slice_rec) :
  fst (get_mmdi3d_slice_data w alc2_digest temp_dir inversion_3d_dir)
  = Returned slice_data ->
  Forall (fun it => forall c, path_ok w (snd it) c) slice_data.
Proof.
  intros H.
  destruct (get_mmdi3d_slice_data_cases alc2_digest temp_dir inversion_3d_dir)
    as [E | [[_ E] | [text [t [i [_ E]]]]]].
  - rewrite E in H. inversion H. constructor.
  - rewrite E in H. discriminate.
  - rewrite E in H. exact (locate_slices_keeps _ _ _ _ _ _ H).
Qed.








End LocatorInvariant.



(** X8. In what [get_mmdi3d_slice_data] returns, a storage, loss or
    attenuation path that is set belongs to a slice with a true [SliceLocation], and is the path
    of a file that reads as a DICOM with that same [SliceLocation]. *)
Theorem slice_data_contrast_paths_match (w : world)
    (alc2_digest temp_dir inversion_3d_dir : str)
    (slice_data : dict slice_rec) :
  fst (get_mmdi3d_slice_data w alc2_digest temp_dir inversion_3d_dir)
  = Returned slice_data ->
  forall slice_number rec c,
    In (slice_number, rec) slice_data ->
    CONTRASTS c <> [] ->
    get_path rec c <> [] ->
    truthy (slice_location rec) = true /\
    exists dcm,
      w_dicom w (get_path rec c) = Some dcm /\
      location_eqb (SliceLocation dcm) (slice_location rec) = true.
Proof.
  intros H slice_number rec c Hin _ Hset.
  pose proof (get_mmdi3d_slice_data_keeps w _ _ _ _ H) as Hall.
  rewrite Forall_forall in Hall.
  destruct (Hall _ Hin c) as [E | Hok]; [ | exact Hok ].
  cbn [snd] in E. contradiction.
Qed.

(** X8, witness: the storage image found for slice 1 is the one at
    location 5, the location of the slice. *)
Lemma slice_data_contrast_paths_match_witness :
  exists dcm,
    w_dicom located_world (lit "/inv/7/s726/b.dcm") = Some dcm /\
    location_eqb (SliceLocation dcm) (Some 5%Q) = true.
Proof.
  refine (proj2 (slice_data_contrast_paths_match located_world
                   (lit "/case/temp/x.alc2") default (lit "/inv")
                   [(lit "1",
                     {| roi_file_path := lit "/case/temp/roi1.dcm";
                        storage_path := lit "/inv/7/s726/b.dcm";
                        loss_path := []; attenuation_path := [];
                        slice_location := Some 5%Q |})]
                   _ (lit "1") _ storage (or_introl eq_refl) _ _)).
  - vm_compute. reflexivity.
  - discriminate.
  - discriminate.
Defined.

(* ================================================================== *)
(** * Locating and measuring together *)
(* ================================================================== *)

Section MeasureFacts.

Variable w : world.

Lemma filter_none {A} (f : A -> bool) (l : list A) :
  Forall (fun x => f x = false) l -> filter f l = [].
Proof.
  induction 1 as [ | x l Hx _ IH ]; simpl; [ reflexivity | ].
  rewrite Hx. exact IH.
Qed.

Lemma direct_paths_unset (slice_data : dict slice_rec) (c : contrast) :
  Forall (fun it => get_path (snd it) c = []) slice_data ->
  direct_paths slice_data c = [].
Proof.
  intros H. unfold direct_paths. rewrite filter_none; [ reflexivity | ].
  eapply Forall_impl; [ | exact H ].
  intros it E. cbn beta. rewrite E. apply andb_false_r.
Qed.

Lemma damping_paths_unset (slice_data : dict slice_rec) :
  Forall (fun it => storage_path (snd it) = []) slice_data ->
  damping_paths slice_data = [].
Proof.
  intros H. unfold damping_paths. rewrite filter_none; [ reflexivity | ].
  eapply Forall_impl; [ | exact H ].
  intros it E. cbn beta. rewrite E. cbn. rewrite andb_false_r. reflexivity.
Qed.

Lemma apply_rois_without_paths (slice_data : dict slice_rec)
    (exclude_negative_pixels : bool) :
  Forall (fun it => forall c, get_path (snd it) c = []) slice_data ->
  apply_rois_to_mmdi3d_contrasts w slice_data exclude_negative_pixels
  = Returned (map (fun c => (c, no_stats)) contrast_keys,
              map no_paths_warning
                [storage; loss; attenuation; damping_ratio]).
Proof.
  intros H.
  assert (Hd : forall c, direct_paths slice_data c = []).
  { intros c. apply direct_paths_unset. eapply Forall_impl; [ | exact H ].
    intros it E. apply E. }
  assert (Hs : damping_paths slice_data = []).
  { apply damping_paths_unset. eapply Forall_impl; [ | exact H ].
    intros it E. exact (E storage). }
  unfold apply_rois_to_mmdi3d_contrasts, contrast_keys.
  cbn [measure_contrasts measure_contrast].
  rewrite !Hd, Hs. reflexivity.
Qed.

End MeasureFacts.

(** X9. When every slice [get_mmdi3d_slice_data] returns has a
    [SliceLocation] that is not a true value (none, or 0.0),
    [measure_mmdi3d_contrasts_in_rois] returns that slice data with the
    four values of every contrast empty, and logs the "no slices have
    all required image paths" warning once for storage, loss,
    attenuation and the damping ratio. *)
Theorem measure_without_slice_location_is_empty (w : world)
    (alc2_digest temp_dir inversion_3d_dir : str)
    (exclude_negative_pixels : bool) (slice_data : dict slice_rec) :
  fst (get_mmdi3d_slice_data w alc2_digest temp_dir inversion_3d_dir)
  = Returned slice_data ->
  (forall slice_number rec,
     In (slice_number, rec) slice_data ->
     truthy (slice_location rec) = false) ->
  measure_mmdi3d_contrasts_in_rois w alc2_digest temp_dir inversion_3d_dir
    exclude_negative_pixels
  = Returned
      ((slice_data, map (fun c => (c, no_stats)) contrast_keys),
       snd (get_mmdi3d_slice_data w alc2_digest temp_dir inversion_3d_dir)
       ++ map no_paths_warning [storage; loss; attenuation; damping_ratio]).
Proof.
  intros H Hloc. unfold measure_mmdi3d_contrasts_in_rois.
  rewrite H. cbn [bind].
  rewrite apply_rois_without_paths; [ reflexivity | ].
  pose proof (get_mmdi3d_slice_data_keeps w _ _ _ _ H) as Hall.
  rewrite Forall_forall in Hall |- *.
  intros [slice_number rec] Hin c. cbn [snd].
  destruct (Hall _ Hin c) as [E | [Ht _]]; [ exact E | ].
  cbn [snd] in Ht. rewrite (Hloc _ _ Hin) in Ht. discriminate.
Qed.

(** X9, witness: the digest whose slice has no magnitude image. *)
Lemma measure_without_slice_location_is_empty_witness :
  exists log,
    measure_mmdi3d_contrasts_in_rois (digest_world digest_with_series)
      (lit "/case/temp/x.alc2") default default false
    = Returned
        (([(lit "1",
            {| roi_file_path := lit "/case/temp/roi1.dcm";
               storage_path := []; loss_path := []; attenuation_path := [];
               slice_location := None |})],
          map (fun c => (c, no_stats)) contrast_keys), log).
Proof.
  eexists.
  apply (measure_without_slice_location_is_empty
           (digest_world digest_with_series) (lit "/case/temp/x.alc2")
           default default false).
  - vm_compute. reflexivity.
  - intros slice_number rec [H | []]. inversion H. reflexivity.
Defined.

(* ================================================================== *)
(** * The series in the name of a digest *)
(* ================================================================== *)

Section SeriesFacts.

Lemma split_char_not_nil (c : ascii) (s : str) : split_char c s <> [].
Proof.
  induction s as [ | d s IH ]; simpl; [ discriminate | ].
  destruct (Ascii.eqb d c); [ discriminate | ].
  destruct (split_char c s); [ contradiction | discriminate ].
Qed.

(** Joining what [split] gives back the text. *)
Lemma join_split_char (c : ascii) (s : str) :
  join_char c (split_char c s) = s.
Proof.
  induction s as [ | d s IH ]; [ reflexivity | ].
  cbn [split_char]. destruct (Ascii.eqb d c) eqn:E.
  - apply Ascii.eqb_eq in E. subst d.
    pose proof (split_char_not_nil c s) as Hn.
    destruct (split_char c s) as [ | x xs ]; [ contradiction | ].
    cbn [join_char app]. cbn [join_char] in IH. rewrite IH. reflexivity.
  - pose proof (split_char_not_nil c s) as Hn.
    destruct (split_char c s) as [ | x xs ]; [ contradiction | ].
    destruct xs as [ | y ys ]; cbn [join_char app] in *; rewrite <- IH;
      reflexivity.
Qed.

Lemma split_char_app (c : ascii) (a t : str) :
  has_char c a = false ->
  split_char c (a ++ c :: t) = a :: split_char c t.
Proof.
  induction a as [ | d a IH ]; cbn [app split_char has_char existsb].
  - intros _. rewrite Ascii.eqb_refl. reflexivity.
  - intros H. apply orb_false_iff in H. destruct H as [Hd Ha].
    rewrite Ascii.eqb_sym in Hd. rewrite Hd.
    fold (has_char c a) in Ha. rewrite (IH Ha). reflexivity.
Qed.

Lemma length_split_char (c : ascii) (s : str) :
  length (split_char c s) = S (length (filter (Ascii.eqb c) s)).
Proof.
  induction s as [ | d s IH ]; [ reflexivity | ].
  cbn [split_char filter]. rewrite (Ascii.eqb_sym c d).
  destruct (Ascii.eqb d c); cbn [length].
  - rewrite IH. reflexivity.
  - pose proof (split_char_not_nil c s) as Hn.
    destruct (split_char c s); [ contradiction | exact IH ].
Qed.

Lemma before_first_prefix (pat s : str) :
  exists rest, s = before_first pat s ++ rest.
Proof.
  induction s as [ | c s [rest IH] ]; [ exists []; reflexivity | ].
  cbn [before_first]. destruct (startswith (c :: s) pat).
  - exists (c :: s). reflexivity.
  - exists rest. cbn [app]. rewrite <- IH. reflexivity.
Qed.

Lemma startswith_prefix (p rest q : str) :
  startswith p q = true -> startswith (p ++ rest) q = true.
Proof.
  revert p. induction q as [ | x q IH ]; intros p H; [ reflexivity | ].
  destruct p as [ | y p ]; [ discriminate | ].
  cbn [app startswith] in *. apply andb_true_iff in H.
  destruct H as [H1 H2]. rewrite H1, (IH _ H2). reflexivity.
Qed.

(** The text before the first match holds no match. *)
Lemma before_first_no_match (pat s : str) :
  pat <> [] -> contains (before_first pat s) pat = false.
Proof.
  intros Hp. induction s as [ | c s IH ].
  - destruct pat; [ contradiction | reflexivity ].
  - cbn [before_first]. destruct (startswith (c :: s) pat) eqn:E.
    + destruct pat; [ contradiction | reflexivity ].
    + cbn [contains]. rewrite IH, orb_false_r.
      destruct (startswith (c :: before_first pat s) pat) eqn:F;
        [ | reflexivity ].
      destruct (before_first_prefix pat s) as [rest Hrest].
      apply (startswith_prefix _ rest) in F. cbn [app] in F.
      rewrite <- Hrest in F. congruence.
Qed.

Lemma startswith_app_cases (a b p : str) :
  startswith (a ++ b) p = true ->
  startswith a p = true \/
  exists v, p = a ++ v /\ startswith b v = true.
Proof.
  revert a. induction p as [ | x p IH ]; intros a H; [ left; reflexivity | ].
  destruct a as [ | y a ].
  - right. exists (x :: p). split; [ reflexivity | exact H ].
  - cbn [app startswith] in *. apply andb_true_iff in H.
    destruct H as [H1 H2]. rewrite H1. cbn [andb].
    destruct (IH _ H2) as [H | [v [Hv Hs]]]; [ left; exact H | right ].
    exists v. apply Ascii.eqb_eq in H1. subst y. rewrite Hv.
    split; [ reflexivity | exact Hs ].
Qed.

(** No match of [.alc] starts inside a text that holds none and runs
    into the [.alc] that follows it. *)
Lemma before_first_alc (series ext : str) :
  contains series (lit ".alc") = false ->
  before_first (lit ".alc") (series ++ lit ".alc" ++ ext) = series.
Proof.
  induction series as [ | c series IH ]; intros H.
  - reflexivity.
  - cbn [contains] in H. apply orb_false_iff in H. destruct H as [H1 H2].
    cbn [app before_first].
    destruct (startswith (c :: series ++ lit ".alc" ++ ext) (lit ".alc"))
      eqn:E.
    + exfalso.
      destruct (startswith_app_cases (c :: series) (lit ".alc" ++ ext)
                  (lit ".alc") E) as [F | [v [Hv Hs]]]; [ congruence | ].
      assert (Hcases : v = lit "alc" \/ v = lit "lc" \/ v = lit "c"
                       \/ v = []).
      { cbn in Hv. injection Hv as _ Hv.
        destruct series as [ | c1 series ]; [ left; auto | ].
        injection Hv as _ Hv.
        destruct series as [ | c2 series ]; [ right; left; auto | ].
        injection Hv as _ Hv.
        destruct series as [ | c3 series ]; [ right; right; left; auto | ].
        injection Hv as _ Hv.
        destruct series as [ | c4 series ]; [ right; right; right; auto | ].
        discriminate. }
      destruct Hcases as [-> | [-> | [-> | ->]]];
        try (cbn in Hs; discriminate).
      rewrite app_nil_r in Hv. rewrite <- Hv in H1.
      clear - H1. cbn in H1. discriminate.
    + rewrite (IH H2). reflexivity.
Qed.

End SeriesFacts.

(** X10. For a file name made of four parts without underscore, each
    followed by an underscore, then a series text that does not hold
    [.alc], then [.alc] and anything, [get_alc_digest_series] returns the
    series text. *)
Theorem alc_digest_series_of_well_formed_name (conv : str -> str)
    (digest_path c1 c2 c3 c4 series ext : str) :
  basename (os_clean_path conv digest_path)
  = c1 ++ "_"%char :: c2 ++ "_"%char :: c3 ++ "_"%char :: c4
    ++ "_"%char :: series ++ lit ".alc" ++ ext ->
  has_char "_"%char c1 = false ->
  has_char "_"%char c2 = false ->
  has_char "_"%char c3 = false ->
  has_char "_"%char c4 = false ->
  contains series (lit ".alc") = false ->
  get_alc_digest_series conv digest_path = series.
Proof.
  intros Hfile H1 H2 H3 H4 Hs. unfold get_alc_digest_series.
  rewrite Hfile.
  rewrite (split_char_app _ c1), (split_char_app _ c2),
    (split_char_app _ c3), (split_char_app _ c4) by assumption.
  cbn [skipn]. rewrite join_split_char, before_first_alc by exact Hs.
  match goal with
  | |- (if negb (contains ?f ?p) then _ else _) = _ =>
      assert (Hc : contains f p = true)
  end; [ | rewrite Hc; reflexivity ].
  clear. 
  assert (Happ : forall a b p, contains b p = true ->
                               contains (a ++ b) p = true).
  { induction a as [ | x a IH ]; intros b p H; [ exact H | ].
    cbn [app contains]. rewrite (IH _ _ H). apply orb_true_r. }
  change (c1 ++ "_"%char :: c2 ++ "_"%char :: c3 ++ "_"%char :: c4
          ++ "_"%char :: series ++ lit ".alc" ++ ext)
    with (c1 ++ ["_"%char] ++ c2 ++ ["_"%char] ++ c3 ++ ["_"%char] ++ c4
          ++ ["_"%char] ++ series ++ lit ".alc" ++ ext).
  do 9 apply Happ. reflexivity.
Qed.

(** X10, witness: the series of [p_a_b_c_12_13.alc2] is [12_13]. *)
Lemma alc_digest_series_of_well_formed_name_witness :
  get_alc_digest_series backslash_to_sep
    (lit "/case/temp/p_a_b_c_12_13.alc2") = lit "12_13".
Proof.
  apply (alc_digest_series_of_well_formed_name backslash_to_sep
           (lit "/case/temp/p_a_b_c_12_13.alc2")
           (lit "p") (lit "a") (lit "b") (lit "c") (lit "12_13") (lit "2"));
    reflexivity.
Defined.

(** X11. What [get_alc_digest_series] returns never holds [.alc]; and
    for a file name with fewer than four underscores it is the empty
    text, also when the name does hold [.alc]. *)
Theorem alc_digest_series_edge_cases (conv : str -> str)
    (digest_path : str) :
  contains (get_alc_digest_series conv digest_path) (lit ".alc") = false /\
  (length (filter (Ascii.eqb "_"%char)
             (basename (os_clean_path conv digest_path))) < 4 ->
   get_alc_digest_series conv digest_path = []).
Proof.
  unfold get_alc_digest_series.
  set (file := basename (os_clean_path conv digest_path)).
  destruct (negb (contains file (lit ".alc"))); [ split; reflexivity | ].
  split; [ apply before_first_no_match; discriminate | ].
  intros H. rewrite skipn_all2; [ reflexivity | ].
  rewrite length_split_char. lia.
Qed.

(** X11, witness: [case_1.alc2] has one underscore. *)
Lemma alc_digest_series_edge_cases_witness :
  get_alc_digest_series backslash_to_sep (lit "/case/temp/case_1.alc2") = [].
Proof.
  apply (alc_digest_series_edge_cases backslash_to_sep
           (lit "/case/temp/case_1.alc2")).
  vm_compute. lia.
Defined.

(* ================================================================== *)
(** * The DICOM paths of a digest *)
(* ================================================================== *)

Section DcmPathsFacts.

Variable w : world.
Variables digest_path key_start : str.

Lemma dict_set_fresh {V} (d : dict V) (k : str) (v : V) :
  ~ In k (dict_keys d) -> dict_set d k v = d ++ [(k, v)].
Proof.
  induction d as [ | [k' v'] d IH ]; intros H; [ reflexivity | ].
  cbn [dict_set app]. destruct (str_eqb k' k) eqn:E.
  - apply str_eqb_eq in E. subst k'. exfalso. apply H. left. reflexivity.
  - rewrite IH; [ reflexivity | ]. intros Hin. apply H. right. exact Hin.
Qed.

Lemma composite_path_exists (conv : str -> str) (ex : str -> bool)
    (path_1 path_2 : str) :
  find_existing_composite_path conv ex path_1 path_2 <> lit "None" ->
  ex (find_existing_composite_path conv ex path_1 path_2) = true.
Proof.
  unfold find_existing_composite_path. rewrite composite_search_find.
  destruct (find ex _) as [ r | ] eqn:E; [ intros _ | congruence ].
  apply find_some in E as [_ Hex]. exact Hex.
Qed.

Lemma dcm_paths_loop_returns (items : list (str * str)) :
  forall acc d,
    NoDup (dict_keys acc ++ dict_keys items) ->
    dcm_paths_loop w digest_path key_start items acc = inr d ->
    d = acc ++ map (dcm_located w digest_path)
               (filter (dcm_selected key_start) items) /\
    Forall (fun item => dcm_selected key_start item = true ->
                        snd (dcm_located w digest_path item) <> lit "None")
      items.
Proof.
  induction items as [ | [key val] items IH ]; intros acc d Hnd H;
    cbn [dcm_paths_loop] in H.
  - inversion H. rewrite app_nil_r. split; [ reflexivity | constructor ].
  - cbn [filter]. fold (dcm_selected key_start (key, val)).
    change (startswith key key_start && endswith (lower val) (lit ".dcm"))
      with (dcm_selected key_start (key, val)) in H.
    assert (Hfresh : ~ In key (dict_keys acc)).
    { unfold dict_keys in *. cbn [map fst] in Hnd.
      apply NoDup_remove_2 in Hnd. intros Hin. apply Hnd.
      apply in_or_app. left. exact Hin. }
    assert (Hrest : forall v,
               NoDup (dict_keys (acc ++ [(key, v)]) ++ dict_keys items)).
    { intros v. unfold dict_keys in *. rewrite map_app. cbn [map fst].
      rewrite <- app_assoc. exact Hnd. }
    assert (Hskip : NoDup (dict_keys acc ++ dict_keys items)).
    { unfold dict_keys in *. cbn [map fst] in Hnd.
      apply NoDup_remove_1 in Hnd. exact Hnd. }
    destruct (dcm_selected key_start (key, val)) eqn:S.
    + destruct (negb (str_eqb
                        (find_existing_composite_path (w_conv w) (w_exists w)
                           digest_path val) (lit "None"))) eqn:F;
        [ | discriminate ].
      rewrite dict_set_fresh in H by exact Hfresh.
      destruct (IH _ _ (Hrest _) H) as [Hd Hall].
      split.
      * rewrite Hd, <- app_assoc. reflexivity.
      * constructor; [ | exact Hall ].
        intros _ E. cbn [dcm_located snd] in E. rewrite E in F.
        vm_compute in F. discriminate.
    + destruct (IH _ _ Hskip H) as [Hd Hall].
      split; [ exact Hd | ].
      constructor; [ | exact Hall ]. cbn beta. intros E. congruence.
Qed.

Lemma dcm_paths_loop_exits (items : list (str * str)) (key val : str) :
  In (key, val) items ->
  dcm_selected key_start (key, val) = true ->
  find_existing_composite_path (w_conv w) (w_exists w) digest_path val
  = lit "None" ->
  forall acc,
    exists message,
      dcm_paths_loop w digest_path key_start items acc = inl message.
Proof.
  intros Hin Hsel Hnone.
  induction items as [ | [key' val'] items IH ]; intros acc;
    [ destruct Hin | ].
  cbn [dcm_paths_loop].
  change (startswith key' key_start && endswith (lower val') (lit ".dcm"))
    with (dcm_selected key_start (key', val')).
  destruct Hin as [E | Hin].
  - inversion E. subst. rewrite Hsel, Hnone. eexists. reflexivity.
  - destruct (dcm_selected key_start (key', val')); [ | apply IH, Hin ].
    destruct (negb (str_eqb _ (lit "None")));
      [ apply IH, Hin | eexists; reflexivity ].
Qed.

End DcmPathsFacts.

(** X12. When [get_dcm_paths_from_digest] returns, its dictionary has,
    in the order of the digest, exactly the keys that start with
    [key_start] and whose value ends in [.dcm] (in any case), each with
    the composite path found for its value; and every one of these
    paths exists on disk. *)
Theorem dcm_paths_from_digest_exist (w : world)
    (digest_path key_start : str) (dcm_paths_dict : dict str) :
  get_dcm_paths_from_digest w digest_path key_start
  = Finished dcm_paths_dict ->
  exists text,
    w_text w digest_path = Some text /\
    dcm_paths_dict
    = map (fun item =>
             (fst item,
              find_existing_composite_path (w_conv w) (w_exists w)
                digest_path (snd item)))
        (filter (fun item => startswith (fst item) key_start
                             && endswith (lower (snd item)) (lit ".dcm"))
           (fst (parse_text text))) /\
    (forall key path,
       In (key, path) dcm_paths_dict ->
       w_exists w path = true /\ path <> lit "None").
Proof.
  unfold get_dcm_paths_from_digest, parse_digest.
  destruct (w_text w digest_path) as [ text | ]; [ | discriminate ].
  destruct (parse_text text) as [content comments] eqn:P.
  destruct (dcm_paths_loop w digest_path key_start content [])
    as [ message | d ] eqn:L; [ discriminate | ].
  intros H. inversion H. subst d. exists text. split; [ reflexivity | ].
  pose proof (parse_text_well_formed text) as [Hnd _].
  rewrite P in Hnd |- *. cbn [fst] in Hnd |- *.
  destruct (dcm_paths_loop_returns w digest_path key_start content []
              dcm_paths_dict Hnd L) as [Hd Hall].
  cbn [app] in Hd. split; [ exact Hd | ].
  intros key path Hin. rewrite Hd in Hin.
  apply in_map_iff in Hin as [[k v] [E Hin]].
  apply filter_In in Hin as [Hin Hsel].
  rewrite Forall_forall in Hall. specialize (Hall _ Hin Hsel).
  cbn [fst snd] in E, Hall. inversion E. subst.
  split; [ apply composite_path_exists | ]; exact Hall.
Qed.

(** X12, witness: the ROI path of the example digest is found beside
    the digest. *)
Lemma dcm_paths_from_digest_exist_witness :
  exists text,
    w_text paired_world (lit "/case/temp/x.alc2") = Some text /\
    [(lit "mre.roi.slice.1", lit "/case/temp/roi1.dcm")]
    = map (fun item =>
             (fst item,
              find_existing_composite_path (w_conv paired_world)
                (w_exists paired_world) (lit "/case/temp/x.alc2")
                (snd item)))
        (filter (fun item => startswith (fst item) (lit "mre.roi.")
                             && endswith (lower (snd item)) (lit ".dcm"))
           (fst (parse_text text))) /\
    (forall key path,
       In (key, path) [(lit "mre.roi.slice.1", lit "/case/temp/roi1.dcm")] ->
       w_exists paired_world path = true /\ path <> lit "None").
Proof.
  apply (dcm_paths_from_digest_exist paired_world (lit "/case/temp/x.alc2")
           (lit "mre.roi.")).
  vm_compute. reflexivity.
Defined.

(** X13. When the digest has a key that starts with [key_start] whose
    value ends in [.dcm] and for which no composite path exists,
    [get_dcm_paths_from_digest] leaves through [sys.exit]: it returns no
    dictionary, not even of the paths it did find. *)
Theorem dcm_paths_from_digest_exits (w : world)
    (digest_path key_start text key val : str) :
  w_text w digest_path = Some text ->
  In (key, val) (fst (parse_text text)) ->
  startswith key key_start = true ->
  endswith (lower val) (lit ".dcm") = true ->
  find_existing_composite_path (w_conv w) (w_exists w) digest_path val
  = lit "None" ->
  exists message,
    get_dcm_paths_from_digest w digest_path key_start = SystemExit message.
Proof.
  intros Htext Hin Hkey Hval Hnone.
  unfold get_dcm_paths_from_digest, parse_digest. rewrite Htext.
  destruct (parse_text text) as [content comments]. cbn [fst] in Hin.
  destruct (dcm_paths_loop_exits w digest_path key_start content key val Hin)
    with (acc := @nil (str * str)) as [message ->]; auto.
  - unfold dcm_selected. cbn [fst snd]. rewrite Hkey, Hval. reflexivity.
  - exists message. reflexivity.
Qed.

(** X13, witness: the stiffness image of the example digest is
    missing. *)
Lemma dcm_paths_from_digest_exits_witness :
  exists message,
    get_dcm_paths_from_digest unpaired_world (lit "/case/temp/x.alc2")
      (lit "mre.stiff.") = SystemExit message.
Proof.
  apply (dcm_paths_from_digest_exits unpaired_world
           (lit "/case/temp/x.alc2") (lit "mre.stiff.") paired_digest
           (lit "mre.stiff.slice.1") (lit "/old/temp/stiff1.dcm")).
  - reflexivity.
  - vm_compute. right. left. reflexivity.
  - reflexivity.
  - reflexivity.
  - vm_compute. reflexivity.
Defined.

(* ================================================================== *)
(** * The images of a digest *)
(* ================================================================== *)

Section PixelFacts.

Variable w : world.

Lemma pixel_loop_slices (first : str) (N_rows N_cols : nat)
    (dcm_paths : list str) :
  forall images log,
    pixel_loop w first N_rows N_cols dcm_paths = Returned (images, log) ->
    length images = length dcm_paths /\
    forall i path,
      nth_error dcm_paths i = Some path ->
      exists pixels,
        read_pixels w path = Returned pixels /\
        nth_error images i
        = Some (if (fst (image_shape pixels) =? N_rows)
                   && (snd (image_shape pixels) =? N_cols)
                then pixels else zeros N_rows N_cols).
Proof.
  induction dcm_paths as [ | path0 rest IH ]; intros images log H;
    cbn [pixel_loop] in H.
  - inversion H. split; [ reflexivity | ].
    intros [ | i ] path E; discriminate.
  - destruct (read_pixels w path0) as [ pixels0 | ] eqn:R; [ | discriminate ].
    cbn [bind] in H.
    destruct (pixel_loop w first N_rows N_cols rest) as [ [imgs lg] | ]
      eqn:L; [ | discriminate ].
    cbn [bind fst snd] in H.
    destruct (IH _ _ eq_refl) as [Hlen Hnth].
    assert (Hhead : exists img,
               images = img :: imgs /\
               img = (if (fst (image_shape pixels0) =? N_rows)
                         && (snd (image_shape pixels0) =? N_cols)
                      then pixels0 else zeros N_rows N_cols)).
    { destruct (fst (image_shape pixels0) =? N_rows);
        destruct (snd (image_shape pixels0) =? N_cols);
        cbn [negb orb andb] in H |- *; inversion H; eexists; split;
        reflexivity. }
    destruct Hhead as [img [-> Himg]].
    split; [ cbn [length]; rewrite Hlen; reflexivity | ].
    intros [ | i ] path E; cbn [nth_error] in E |- *.
    + inversion E. subst path. exists pixels0. split; [ exact R | ].
      rewrite Himg. reflexivity.
    + exact (Hnth i path E).
Qed.

Lemma dcm_paths_loop_none (digest_path key_start : str)
    (items : list (str * str)) :
  Forall (fun item => dcm_selected key_start item = false) items ->
  forall acc,
    dcm_paths_loop w digest_path key_start items acc = inr acc.
Proof.
  induction 1 as [ | [key val] items Hx _ IH ]; intros acc;
    [ reflexivity | ].
  cbn [dcm_paths_loop]. unfold dcm_selected in Hx. cbn [fst snd] in Hx.
  rewrite Hx. apply IH.
Qed.

Lemma dcm_pixel_data_slices_aux (dcm_paths : list str) (image : stack)
    (log : list str) :
  get_dcm_pixel_data w dcm_paths = Returned (image, log) ->
  length (st_images image) = length dcm_paths.
Proof.
  unfold get_dcm_pixel_data.
  destruct dcm_paths as [ | first rest ]; [ discriminate | ].
  destruct (read_pixels w first) as [ pixels | ]; [ | discriminate ].
  cbn [bind].
  destruct (pixel_loop w first (fst (image_shape pixels))
              (snd (image_shape pixels)) (first :: rest))
    as [ [images lg] | ] eqn:L; [ | discriminate ].
  cbn [bind fst snd]. intros H. inversion H. cbn [st_images].
  exact (proj1 (pixel_loop_slices _ _ _ _ _ _ L)).
Qed.

End PixelFacts.

(** X14. When [get_dcm_pixel_data] returns, the array has one slice per
    path and the rows and columns of the first image; the slice of a
    path whose image has these rows and columns is that image, and the
    slice of any other path is left at zero. The first slice is always
    the first image. *)
Theorem dcm_pixel_data_slices (w : world) (dcm_paths : list str)
    (image : stack) (log : list str) :
  get_dcm_pixel_data w dcm_paths = Returned (image, log) ->
  length (st_images image) = length dcm_paths /\
  (exists first pixels,
     hd_error dcm_paths = Some first /\
     read_pixels w first = Returned pixels /\
     (st_rows image, st_cols image) = image_shape pixels /\
     hd_error (st_images image) = Some pixels) /\
  (forall i path,
     nth_error dcm_paths i = Some path ->
     exists pixels,
       read_pixels w path = Returned pixels /\
       nth_error (st_images image) i
       = Some (if (fst (image_shape pixels) =? st_rows image)
                  && (snd (image_shape pixels) =? st_cols image)
               then pixels else zeros (st_rows image) (st_cols image))).
Proof.
  unfold get_dcm_pixel_data.
  destruct dcm_paths as [ | first rest ]; [ discriminate | ].
  destruct (read_pixels w first) as [ pixels | ] eqn:R; [ | discriminate ].
  cbn [bind].
  destruct (pixel_loop w first (fst (image_shape pixels))
              (snd (image_shape pixels)) (first :: rest))
    as [ [images lg] | ] eqn:L; [ | discriminate ].
  cbn [bind fst snd]. intros H. inversion H. subst. cbn [st_images st_rows st_cols].
  destruct (pixel_loop_slices w _ _ _ _ _ _ L) as [Hlen Hnth].
  split; [ exact Hlen | split; [ | exact Hnth ] ].
  exists first, pixels. split; [ reflexivity | ].
  split; [ exact R | ]. split; [ reflexivity | ].
  destruct (Hnth 0 first eq_refl) as [pixels' [R' E]].
  assert (pixels' = pixels) by congruence. subst pixels'.
  rewrite !Nat.eqb_refl in E. cbn [andb] in E.
  destruct images; [ discriminate | ]. cbn [nth_error] in E. exact E.
Qed.

(** X14, witness: the one image of the example. *)
Lemma dcm_pixel_data_slices_witness :
  length [[[0; 3]; [0; 2]]%Q] = length [lit "/case/temp/roi1.dcm"].
Proof.
  refine (proj1 (dcm_pixel_data_slices paired_world
                   [lit "/case/temp/roi1.dcm"]
                   {| st_rows := 2; st_cols := 2;
                      st_images := [[[0; 3]; [0; 2]]%Q] |} [] _)).
  vm_compute. reflexivity.
Defined.

(** X15. When [get_roi_and_elastogram_images_from_digest] returns, the
    ROI image and the elastogram image have the same number of slices,
    and every value of the ROI image is 0 or 1. *)
Theorem roi_and_elastogram_images_paired (w : world) (digest_path : str)
    (roi_image elastogram_image : stack) (log : list str) :
  get_roi_and_elastogram_images_from_digest w digest_path
  = Finished ((roi_image, elastogram_image), log) ->
  length (st_images roi_image) = length (st_images elastogram_image) /\
  (forall slice row x,
     In slice (st_images roi_image) -> In row slice -> In x row ->
     x = 0%Q \/ x = 1%Q).
Proof.
  unfold get_roi_and_elastogram_images_from_digest.
  destruct (get_dcm_paths_from_digest w digest_path (lit "mre.roi."))
    as [ a | | | | ]; [ | discriminate .. ].
  cbn [and_then].
  destruct (get_dcm_paths_from_digest w digest_path (lit "mre.stiff."))
    as [ b | | | | ]; [ | discriminate .. ].
  cbn [and_then].
  set (pairs := pair_paths (lit "mre.roi.") (lit "mre.stiff.") a b).
  destruct (get_dcm_pixel_data w (map fst pairs)) as [ [roi lg1] | ] eqn:R;
    [ | discriminate ].
  cbn [lift and_then].
  destruct (get_dcm_pixel_data w (map snd pairs)) as [ [elas lg2] | ] eqn:E;
    [ | discriminate ].
  cbn [lift and_then fst snd]. intros H. inversion H. subst.
  pose proof (dcm_pixel_data_slices_aux w _ _ _ R) as Hr.
  pose proof (dcm_pixel_data_slices_aux w _ _ _ E) as He.
  split.
  - cbn [as_mask st_images]. rewrite !length_map in *. congruence.
  - intros slice row x Hs Hrow Hx. cbn [as_mask st_images] in Hs.
    apply in_map_iff in Hs as [slice' [<- _]].
    apply in_map_iff in Hrow as [row' [<- _]].
    apply in_map_iff in Hx as [x' [<- _]].
    destruct (Qeq_bool x' 0); auto.
Qed.

(** X15, witness: the ROI and the stiffness image of the example
    digest. *)
Lemma roi_and_elastogram_images_paired_witness :
  length [[[0; 1]; [0; 1]]%Q] = length [[[10; 20]; [30; 40]]%Q].
Proof.
  refine (proj1 (roi_and_elastogram_images_paired paired_world
                   (lit "/case/temp/x.alc2")
                   {| st_rows := 2; st_cols := 2;
                      st_images := [[[0; 1]; [0; 1]]%Q] |}
                   {| st_rows := 2; st_cols := 2;
                      st_images := [[[10; 20]; [30; 40]]%Q] |} [] _)).
  vm_compute. reflexivity.
Defined.

(** X16. For a digest that can be read and lists no ROI image (no key
    that starts with [mre.roi.] has a value ending in [.dcm]),
    [get_roi_and_elastogram_images_from_digest] returns nothing: it
    raises [IndexError] on the empty list of paths, unless it has left
    before through [sys.exit] for a stiffness image that is not found. *)
Theorem roi_and_elastogram_without_roi_images (w : world)
    (digest_path text : str) :
  w_text w digest_path = Some text ->
  (forall key val,
     In (key, val) (fst (parse_text text)) ->
     startswith key (lit "mre.roi.") = true ->
     endswith (lower val) (lit ".dcm") = false) ->
  get_roi_and_elastogram_images_from_digest w digest_path
  = Exception IndexError \/
  exists message,
    get_roi_and_elastogram_images_from_digest w digest_path
    = SystemExit message.
Proof.
  intros Htext Hnone.
  assert (Hroi : get_dcm_paths_from_digest w digest_path (lit "mre.roi.")
                 = Finished []).
  { unfold get_dcm_paths_from_digest, parse_digest. rewrite Htext.
    destruct (parse_text text) as [content comments].
    cbn [fst] in Hnone. rewrite dcm_paths_loop_none; [ reflexivity | ].
    rewrite Forall_forall. intros [key val] Hin.
    unfold dcm_selected. cbn [fst snd].
    destruct (startswith key (lit "mre.roi.")) eqn:K; [ | reflexivity ].
    rewrite (Hnone key val Hin K). reflexivity. }
  assert (Hstiff : (exists b, get_dcm_paths_from_digest w digest_path
                                (lit "mre.stiff.") = Finished b) \/
                   (exists message,
                      get_dcm_paths_from_digest w digest_path
                        (lit "mre.stiff.") = SystemExit message)).
  { unfold get_dcm_paths_from_digest, parse_digest. rewrite Htext.
    destruct (parse_text text) as [content comments].
    destruct (dcm_paths_loop w digest_path (lit "mre.stiff.") content [])
      as [ message | b ]; [ right | left ]; eexists; reflexivity. }
  unfold get_roi_and_elastogram_images_from_digest. rewrite Hroi.
  destruct Hstiff as [[b ->] | [message ->]].
  - left. reflexivity.
  - right. exists message. reflexivity.
Qed.

(** X16, witness: the example digest, which lists no image. *)
Lemma roi_and_elastogram_without_roi_images_witness :
  get_roi_and_elastogram_images_from_digest (digest_world example_digest)
    (lit "/case/temp/x.alc2") = Exception IndexError \/
  exists message,
    get_roi_and_elastogram_images_from_digest (digest_world example_digest)
      (lit "/case/temp/x.alc2") = SystemExit message.
Proof.
  apply (roi_and_elastogram_without_roi_images (digest_world example_digest)
           (lit "/case/temp/x.alc2") example_digest).
  - reflexivity.
  - vm_compute. intros key val [H | [H | []]]; inversion H; discriminate.
Defined.

(* ================================================================== *)
(** * The frequency of a dataset *)
(* ================================================================== *)

Section FreqFacts.

Lemma numeric_not_space (c : ascii) :
  is_numeric_char c = true -> is_space c = false.
Proof.
  destruct c as [b0 b1 b2 b3 b4 b5 b6 b7].
  destruct b0, b1, b2, b3, b4, b5, b6, b7; vm_compute;
    intros H; try reflexivity; discriminate H.
Qed.

Lemma last_chars_app (i : nat) (a b : str) :
  i <= length b -> last_chars i (a ++ b) = last_chars i b.
Proof.
  intros H. unfold last_chars. rewrite length_app, skipn_app.
  rewrite skipn_all2 by lia. cbn [app]. f_equal. lia.
Qed.

Lemma last_chars_app_long (i : nat) (a b : str) :
  length b <= i -> last_chars i (a ++ b) = last_chars (i - length b) a ++ b.
Proof.
  intros H. unfold last_chars. rewrite length_app, skipn_app.
  replace (length a + length b - i - length a) with 0 by lia.
  cbn [skipn]. f_equal. f_equal. lia.
Qed.

Lemma last_chars_all (s : str) : last_chars (length s) s = s.
Proof. unfold last_chars. rewrite Nat.sub_diag. reflexivity. Qed.

Lemma forallb_skipn {A} (f : A -> bool) (n : nat) (l : list A) :
  forallb f l = true -> forallb f (skipn n l) = true.
Proof.
  revert l. induction n as [ | n IH ]; intros l H; [ exact H | ].
  destruct l as [ | x l ]; [ reflexivity | ].
  cbn [skipn]. apply IH. cbn [forallb] in H.
  apply andb_prop in H. apply H.
Qed.

Lemma lstrip_blanks (b d : str) :
  forallb is_space b = true -> lstrip (b ++ d) = lstrip d.
Proof.
  induction b as [ | x b IH ]; intros H; [ reflexivity | ].
  cbn [forallb] in H. apply andb_prop in H as [Hx Hb].
  cbn [app lstrip]. rewrite Hx. exact (IH Hb).
Qed.

Lemma lstrip_keeps_last (a : str) (c : ascii) :
  is_space c = false -> exists u, lstrip (a ++ [c]) = u ++ [c].
Proof.
  intros Hc. induction a as [ | x a [u IH] ]; cbn [app lstrip].
  - rewrite Hc. exists []. reflexivity.
  - destruct (is_space x); [ exists u; exact IH | ].
    exists (x :: a). reflexivity.
Qed.

Lemma rstrip_keeps_first (c : ascii) (t : str) :
  is_space c = false -> exists t', rstrip (c :: t) = c :: t'.
Proof.
  intros Hc. unfold rstrip. cbn [rev].
  destruct (lstrip_keeps_last (rev t) c Hc) as [u ->].
  exists (rev u). rewrite rev_app_distr. reflexivity.
Qed.

Lemma rstrip_ends_solid (s : str) (x : ascii) :
  is_space x = false -> rstrip (s ++ [x]) = s ++ [x].
Proof.
  intros Hx. unfold rstrip. rewrite rev_app_distr. cbn [rev app lstrip].
  rewrite Hx. cbn [rev]. rewrite rev_involutive. reflexivity.
Qed.

(** Trimming blanks followed by a number leaves the number. *)
Lemma strip_blanks_number (b d : str) :
  forallb is_space b = true -> isnumeric d = true -> strip (b ++ d) = d.
Proof.
  intros Hb Hd. unfold isnumeric in Hd. apply andb_prop in Hd as [Hne Hd].
  unfold strip. rewrite (lstrip_blanks _ _ Hb).
  destruct d as [ | x d ]; [ discriminate | ].
  assert (Hx : is_space x = false).
  { apply numeric_not_space. cbn [forallb] in Hd.
    apply andb_prop in Hd. apply Hd. }
  cbn [lstrip]. rewrite Hx.
  destruct (exists_last (l := x :: d)) as [d' [y E]]; [ discriminate | ].
  rewrite E. apply rstrip_ends_solid, numeric_not_space.
  rewrite E, forallb_app in Hd. apply andb_prop in Hd as [_ Hy].
  cbn [forallb] in Hy. apply andb_prop in Hy. apply Hy.
Qed.

(** The loop stops at the first suffix that is no number. *)
Lemma freq_loop_first (s : str) (j : nat) :
  forall n a,
    a <= j < a + n ->
    (forall i, a <= i < j -> isnumeric (strip (last_chars i s)) = true) ->
    isnumeric (strip (last_chars j s)) = false ->
    freq_loop s (seq a n) = Some (strip (after_minus j s)).
Proof.
  induction n as [ | n IH ]; intros a Hj Hpass Hfail; [ lia | ].
  cbn [seq freq_loop].
  destruct (Nat.eq_dec a j) as [-> | Hne].
  - rewrite Hfail. reflexivity.
  - rewrite Hpass by lia. cbn [negb].
    apply IH; [ lia | | exact Hfail ].
    intros i Hi. apply Hpass. lia.
Qed.

Lemma freq_loop_trailing_number (pre blanks digits : str) (c : ascii) :
  is_space c = false ->
  is_numeric_char c = false ->
  forallb is_space blanks = true ->
  isnumeric digits = true ->
  freq_loop (pre ++ c :: blanks ++ digits)
    (seq 1 (length (pre ++ c :: blanks ++ digits)))
  = Some digits.
Proof.
  intros Hc Hn Hb Hd.
  set (s := pre ++ c :: blanks ++ digits).
  assert (Hlen : length s = length pre + S (length blanks + length digits)).
  { unfold s. rewrite length_app. cbn [length]. rewrite length_app.
    reflexivity. }
  assert (Hk : 1 <= length digits).
  { unfold isnumeric in Hd. destruct digits; [ discriminate | ].
    cbn [length]. lia. }
  assert (Htail : forall i, i <= length blanks + length digits ->
                            last_chars i s = last_chars i (blanks ++ digits)).
  { intros i Hi. unfold s.
    change (pre ++ c :: blanks ++ digits)
      with (pre ++ [c] ++ (blanks ++ digits)).
    rewrite app_assoc. apply last_chars_app. rewrite length_app. exact Hi. }
  rewrite (freq_loop_first s (S (length blanks + length digits))).
  - unfold after_minus.
    replace (S (length blanks + length digits) =? 1) with false
      by (symmetry; apply Nat.eqb_neq; lia).
    cbn [Nat.sub]. rewrite Nat.sub_0_r, Htail by lia.
    rewrite <- length_app, last_chars_all.
    rewrite strip_blanks_number by assumption. reflexivity.
  - lia.
  - intros i Hi. rewrite Htail by lia.
    destruct (Nat.le_gt_cases i (length digits)) as [Hle | Hgt].
    + rewrite last_chars_app by exact Hle.
      rewrite <- (app_nil_l (last_chars i digits)).
      rewrite strip_blanks_number; [ | reflexivity | ].
      all: unfold isnumeric in *; apply andb_prop in Hd as [_ Hall];
        apply andb_true_intro; split;
        [ | unfold last_chars; apply forallb_skipn, Hall ].
      all: assert (Hl : length (last_chars i digits) = i)
             by (unfold last_chars; rewrite length_skipn; lia);
        destruct (last_chars i digits); [ cbn in Hl; lia | reflexivity ].
    + rewrite last_chars_app_long by lia.
      rewrite strip_blanks_number; [ exact Hd | | exact Hd ].
      unfold last_chars. apply forallb_skipn, Hb.
  - replace (S (length blanks + length digits))
      with (length (c :: blanks ++ digits))
      by (cbn [length]; rewrite length_app; reflexivity).
    unfold s. rewrite last_chars_app by lia. rewrite last_chars_all.
    unfold strip. cbn [lstrip]. rewrite Hc.
    destruct (rstrip_keeps_first c (blanks ++ digits) Hc) as [t' ->].
    unfold isnumeric. cbn [is_empty negb forallb]. rewrite Hn. reflexivity.
Qed.

Lemma strip_ends_solid (t : str) : starts_solid (rev (strip t)).
Proof.
  unfold strip, rstrip. rewrite rev_involutive. apply lstrip_solid.
Qed.

Lemma strip_mre (t : str) : strip (lit "mre" ++ strip t) = lit "mre" ++ strip t.
Proof.
  unfold strip at 1. cbn [lit list_ascii_of_string app lstrip].
  replace (is_space "m") with false by reflexivity.
  unfold rstrip.
  change ("m"%char :: "r"%char :: "e"%char :: strip t)
    with (lit "mre" ++ strip t).
  rewrite rev_app_distr.
  pose proof (strip_ends_solid t) as Hs.
  rewrite lstrip_fixed.
  - rewrite <- rev_app_distr, rev_involutive. reflexivity.
  - destruct (rev (strip t)); [ reflexivity | exact Hs ].
Qed.

Lemma freq_loop_no_number (t : str) :
  is_numeric_char (last (lit "mre" ++ strip t) "e"%char) = false ->
  freq_loop (lit "mre" ++ strip t) (seq 1 (length (lit "mre" ++ strip t)))
  = Some (lit "mre" ++ strip t).
Proof.
  intros Hlast. set (s := lit "mre" ++ strip t) in *.
  assert (Hne : s <> []) by discriminate.
  rewrite (freq_loop_first s 1).
  - unfold after_minus. cbn [Nat.eqb]. unfold s. rewrite strip_mre.
    reflexivity.
  - assert (1 <= length s) by (unfold s; cbn; lia). lia.
  - intros i Hi. lia.
  - rewrite (app_removelast_last "e"%char Hne) at 1.
    rewrite last_chars_app by (cbn; lia).
    unfold last_chars. cbn [length Nat.sub skipn].
    set (x := last s "e"%char) in *.
    unfold strip. cbn [lstrip]. destruct (is_space x) eqn:Hx.
    + reflexivity.
    + pose proof (rstrip_ends_solid [] x Hx) as Hr. cbn [app] in Hr.
      rewrite Hr. unfold isnumeric. cbn [is_empty negb forallb]. rewrite Hlast.
      reflexivity.
Qed.

End FreqFacts.

(** X17. When the folder can be listed, the description of its first
    file that reads, in lower case and without [-] and [_], holds [hz],
    and the text before the first [hz] (trimmed, after the padding
    [mre]) ends in a number that follows, perhaps after blanks, a
    character that is neither blank nor numeric, [get_mmdi3d_freq]
    returns that number, and logs it as the frequency found. *)
Theorem mmdi3d_freq_reads_trailing_number (w : world)
    (walk_files : str -> option (list str)) (mag_dir : str)
    (files : list str) (file_path : str) (dcm : dicom)
    (pre blanks digits : str) (c : ascii) :
  walk_files mag_dir = Some files ->
  first_readable w mag_dir files = Some (file_path, dcm) ->
  contains (plain_description dcm) (lit "hz") = true ->
  lit "mre" ++ strip (before_first (lit "hz") (plain_description dcm))
  = pre ++ c :: blanks ++ digits ->
  is_space c = false ->
  is_numeric_char c = false ->
  forallb is_space blanks = true ->
  isnumeric digits = true ->
  get_mmdi3d_freq w walk_files mag_dir
  = Returned
      (digits,
       [lit "get_mmdi3d_freq(): Found mmdi3d frequency " ++ digits
        ++ lit "Hz"]).
Proof.
  intros Hwalk Hfile Hhz Hs Hc Hn Hb Hd.
  unfold get_mmdi3d_freq, freq_of_files.
  rewrite Hwalk, Hfile, Hhz, Hs.
  rewrite freq_loop_trailing_number by assumption. reflexivity.
Qed.

(** X17, witness: the frequency of [3D MRE_80Hz EPI] is [80]. *)
Lemma mmdi3d_freq_reads_trailing_number_witness :
  get_mmdi3d_freq
    (scan_world top [(lit "A", (1, series "3D MRE_80Hz EPI" "GE" 5 None))])
    (listed
       (scan_world top
          [(lit "A", (1, series "3D MRE_80Hz EPI" "GE" 5 None))]))
    (lit "/top/A")
  = Returned
      (lit "80", [lit "get_mmdi3d_freq(): Found mmdi3d frequency 80Hz"]).
Proof.
  apply (mmdi3d_freq_reads_trailing_number _ _ (lit "/top/A")
           [lit "i0.dcm"] (lit "/top/A/i0.dcm")
           (series "3D MRE_80Hz EPI" "GE" 5 None)
           (lit "mre3d mr") [] (lit "80") "e"%char); reflexivity.
Defined.

(** X18. When the folder can be listed, that description holds [hz] and
    the padded text before the first [hz] does not end in a numeric
    character, [get_mmdi3d_freq] does not return the default [60]: it
    returns the whole padded text, [mre] followed by the trimmed text
    before [hz], and logs it as the frequency found. *)
Theorem mmdi3d_freq_without_number (w : world)
    (walk_files : str -> option (list str)) (mag_dir : str)
    (files : list str) (file_path : str) (dcm : dicom) :
  walk_files mag_dir = Some files ->
  first_readable w mag_dir files = Some (file_path, dcm) ->
  contains (plain_description dcm) (lit "hz") = true ->
  is_numeric_char
    (last (lit "mre"
           ++ strip (before_first (lit "hz") (plain_description dcm)))
       "e"%char) = false ->
  get_mmdi3d_freq w walk_files mag_dir
  = Returned
      (lit "mre" ++ strip (before_first (lit "hz") (plain_description dcm)),
       [lit "get_mmdi3d_freq(): Found mmdi3d frequency " ++ lit "mre"
        ++ strip (before_first (lit "hz") (plain_description dcm))
        ++ lit "Hz"]).
Proof.
  intros Hwalk Hfile Hhz Hlast. unfold get_mmdi3d_freq, freq_of_files.
  rewrite Hwalk, Hfile, Hhz. rewrite freq_loop_no_number by exact Hlast.
  rewrite <- !app_assoc. reflexivity.
Qed.

(** X18, witness: the frequency of [3D MRE Hz] is [mre3d mre]. *)
Lemma mmdi3d_freq_without_number_witness :
  get_mmdi3d_freq
    (scan_world top [(lit "A", (1, series "3D MRE Hz" "GE" 5 None))])
    (listed
       (scan_world top [(lit "A", (1, series "3D MRE Hz" "GE" 5 None))]))
    (lit "/top/A")
  = Returned
      (lit "mre3d mre",
       [lit "get_mmdi3d_freq(): Found mmdi3d frequency mre3d mreHz"]).
Proof.
  rewrite (mmdi3d_freq_without_number _ _ (lit "/top/A") [lit "i0.dcm"]
             (lit "/top/A/i0.dcm") (series "3D MRE Hz" "GE" 5 None));
    reflexivity.
Defined.

(* ================================================================== *)
(** * The inversion runs *)
(* ================================================================== *)

Section RunFacts.

Variable w : world.
Variable walk_files : str -> option (list str).

(** A dataset that has the keys one run reads. *)
Lemma runnable_ready (manufacturer : str) (e : entry) :
  runnable manufacturer e
  = has (mag_series e)
    && (has (mag e)
        && (negb (str_eqb manufacturer (lit "Siemens")) || has (phase e))).
Proof. unfold runnable. rewrite andb_assoc. reflexivity. Qed.

(** How one run ends, by the keys of the dataset, the listing of its
    magnitude folder and the end of the command. *)
Lemma run_mmdi3d_series_cases (run_cmd : str -> str -> outcome Z)
    (exe_mmdi3d manufacturer top_dir : str) (dataset : entry)
    (series_dir : str) :
  match run_mmdi3d_series w walk_files run_cmd exe_mmdi3d manufacturer
          top_dir dataset series_dir with
  | Finished exit_code =>
      has (mag dataset)
      && (negb (str_eqb manufacturer (lit "Siemens")) || has (phase dataset))
      = true /\
      exists mag_folder files cmd,
        mag dataset = Some mag_folder /\
        walk_files (join top_dir mag_folder) = Some files /\
        run_cmd cmd (dirname exe_mmdi3d) = Returned exit_code
  | KeyError _ =>
      has (mag dataset)
      && (negb (str_eqb manufacturer (lit "Siemens")) || has (phase dataset))
      = false
  | Exception e =>
      has (mag dataset)
      && (negb (str_eqb manufacturer (lit "Siemens")) || has (phase dataset))
      = true /\
      exists mag_folder,
        mag dataset = Some mag_folder /\
        ((walk_files (join top_dir mag_folder) = None /\ e = StopIteration)
         \/ exists files cmd,
              walk_files (join top_dir mag_folder) = Some files /\
              run_cmd cmd (dirname exe_mmdi3d) = Raised e)
  | _ => False
  end.
Proof.
  unfold run_mmdi3d_series, get_mmdi3d_freq.
  assert (Hs : str_eqb manufacturer (lit "GE") = true
               \/ str_eqb manufacturer (lit "Philips") = true ->
               str_eqb manufacturer (lit "Siemens") = false).
  { intros [H | H]; apply str_eqb_eq in H; subst manufacturer; reflexivity. }
  destruct (str_eqb manufacturer (lit "GE")) eqn:G;
    [ rewrite Hs by (left; reflexivity)
    | destruct (str_eqb manufacturer (lit "Philips")) eqn:P;
      [ rewrite Hs by (right; reflexivity)
      | destruct (str_eqb manufacturer (lit "Siemens")) ] ].
  all: destruct (mag dataset) as [ mag_folder | ];
    cbn [with_key has andb orb negb]; try reflexivity.
  all: try (destruct (phase dataset) as [ phase_folder | ];
            cbn [with_key has andb orb negb]; try reflexivity).
  all: destruct (walk_files (join top_dir mag_folder)) as [ files | ] eqn:Ew;
    cbn [lift and_then];
    [ | split; [ reflexivity | ];
        exists mag_folder; split; [ reflexivity | left ];
        split; [ exact Ew | reflexivity ] ].
  all: match goal with
       | |- context [lift (?run ?c ?d)] =>
           destruct (run c d) as [ exit_code | e ] eqn:Er
       end; cbn [lift]; (split; [ reflexivity | ]).
  all: try (exists mag_folder, files; eexists;
            split; [ reflexivity | split; [ exact Ew | exact Er ] ]).
  all: exists mag_folder; split; [ reflexivity | right ];
    exists files; eexists; split; [ exact Ew | exact Er ].
Qed.

(** How the loop over the datasets ends. *)
Lemma run_datasets_cases (run_cmd : nat -> str -> str -> outcome Z)
    (exe_mmdi3d inversion_3d_dir : str) (d : data3d)
    (datasets : list entry) :
  forall call,
    match run_datasets w walk_files run_cmd exe_mmdi3d inversion_3d_dir d
            call datasets with
    | Finished series_dirs =>
        forallb (runnable (manufacturer d)) datasets = true /\
        length series_dirs <= length datasets /\
        (forall dataset, In dataset datasets ->
           exists mag_folder files,
             mag dataset = Some mag_folder /\
             walk_files (join (top_dir d) mag_folder) = Some files)
    | KeyError _ => forallb (runnable (manufacturer d)) datasets = false
    | Exception e =>
        exists dataset mag_folder,
          In dataset datasets /\
          runnable (manufacturer d) dataset = true /\
          mag dataset = Some mag_folder /\
          ((walk_files (join (top_dir d) mag_folder) = None
            /\ e = StopIteration)
           \/ exists call cmd cwd, run_cmd call cmd cwd = Raised e)
    | _ => False
    end.
Proof.
  induction datasets as [ | dataset rest IH ]; intros call.
  - cbn. repeat split; [ apply Nat.le_refl | ]. intros dataset [].
  - cbn [forallb run_datasets]. rewrite runnable_ready.
    destruct (mag_series dataset) as [ n | ] eqn:En;
      cbn [has andb with_key]; [ | reflexivity ].
    pose proof (run_mmdi3d_series_cases (run_cmd call) exe_mmdi3d
                  (manufacturer d) (top_dir d) dataset
                  (join inversion_3d_dir (str_of_int n))) as Hs.
    destruct (run_mmdi3d_series w walk_files (run_cmd call) exe_mmdi3d
                (manufacturer d) (top_dir d) dataset
                (join inversion_3d_dir (str_of_int n)))
      as [ exit_code | e | key | | message ]; cbn [and_then];
      [ | | | contradiction .. ].
    + destruct Hs as [Hready [mag_folder [files [cmd [Hm [Hw Hr]]]]]].
      rewrite Hready. cbn [andb].
      specialize (IH (S call)).
      destruct (run_datasets w walk_files run_cmd exe_mmdi3d inversion_3d_dir
                  d (S call) rest)
        as [ series_dirs | e | key | | message ]; cbn [and_then];
        [ | | | contradiction .. ].
      * destruct IH as [Hall [Hlen Hlist]].
        split; [ exact Hall | ]. split.
        -- destruct (exit_code =? 0)%Z; cbn [length]; lia.
        -- intros dataset' [<- | Hin]; [ | apply Hlist; exact Hin ].
           exists mag_folder, files. split; assumption.
      * destruct IH as [dataset' [mag' [Hin [Hrun [Hm' He]]]]].
        exists dataset', mag'. split; [ right; exact Hin | ].
        split; [ exact Hrun | ]. split; [ exact Hm' | exact He ].
      * exact IH.
    + destruct Hs as [Hready [mag_folder [Hm He]]].
      exists dataset, mag_folder. split; [ left; reflexivity | ].
      split; [ rewrite runnable_ready | ].
      * rewrite En, Hready. reflexivity.
      * split; [ exact Hm | ].
        destruct He as [He | [files [cmd [_ Hr]]]]; [ left; exact He | ].
        right. exists call, cmd. eexists. exact Hr.
    + rewrite Hs. reflexivity.
Qed.

End RunFacts.

(** X19. How [run_mmdi3d_case] ends. When it returns a list, every
    dataset has the keys [mag_series] and [mag], and [phase] as well
    when the manufacturer is [Siemens]; the magnitude folder of every
    dataset could be listed; and the list is no longer than the list of
    datasets. When it raises [KeyError], some dataset lacks a key. When
    every magnitude folder can be listed and every run of the command
    ends with an exit code, it returns a list exactly when every dataset
    has the keys, and raises [KeyError] otherwise. And when the first
    dataset has the keys and its magnitude folder cannot be listed, the
    call raises [StopIteration], whatever the other datasets are. *)
Theorem run_mmdi3d_case_returns_iff_complete (w : world)
    (walk_files : str -> option (list str))
    (run_cmd : nat -> str -> str -> outcome Z)
    (exe_mmdi3d inversion_3d_dir : str) (d : data3d) :
  (forall series_dirs,
     run_mmdi3d_case w walk_files run_cmd exe_mmdi3d inversion_3d_dir d
     = Finished series_dirs ->
     forallb (runnable (manufacturer d)) (data d) = true /\
     length series_dirs <= length (data d) /\
     (forall dataset, In dataset (data d) ->
        exists mag_folder files,
          mag dataset = Some mag_folder /\
          walk_files (join (top_dir d) mag_folder) = Some files)) /\
  (forall key,
     run_mmdi3d_case w walk_files run_cmd exe_mmdi3d inversion_3d_dir d
     = KeyError key ->
     forallb (runnable (manufacturer d)) (data d) = false) /\
  ((forall dataset mag_folder,
      In dataset (data d) -> mag dataset = Some mag_folder ->
      walk_files (join (top_dir d) mag_folder) <> None) ->
   (forall call cmd cwd, exists exit_code,
      run_cmd call cmd cwd = Returned exit_code) ->
   (forallb (runnable (manufacturer d)) (data d) = true ->
    exists series_dirs,
      run_mmdi3d_case w walk_files run_cmd exe_mmdi3d inversion_3d_dir d
      = Finished series_dirs) /\
   (forallb (runnable (manufacturer d)) (data d) = false ->
    exists key,
      run_mmdi3d_case w walk_files run_cmd exe_mmdi3d inversion_3d_dir d
      = KeyError key)) /\
  (forall dataset rest mag_folder,
     data d = dataset :: rest ->
     runnable (manufacturer d) dataset = true ->
     mag dataset = Some mag_folder ->
     walk_files (join (top_dir d) mag_folder) = None ->
     run_mmdi3d_case w walk_files run_cmd exe_mmdi3d inversion_3d_dir d
     = Exception StopIteration).
Proof.
  assert (Hcase :
    run_mmdi3d_case w walk_files run_cmd exe_mmdi3d inversion_3d_dir d
    = run_datasets w walk_files run_cmd exe_mmdi3d inversion_3d_dir d 0
        (data d)).
  { unfold run_mmdi3d_case. destruct (data d); reflexivity. }
  rewrite Hcase.
  pose proof (run_datasets_cases w walk_files run_cmd exe_mmdi3d
                inversion_3d_dir d (data d) 0) as H.
  split; [ | split; [ | split ] ].
  - intros series_dirs E. rewrite E in H. exact H.
  - intros key E. rewrite E in H. exact H.
  - intros Hlist Hrun.
    destruct (run_datasets w walk_files run_cmd exe_mmdi3d inversion_3d_dir
                d 0 (data d)) as [ series_dirs | e | key | | message ];
      [ | | | contradiction .. ].
    + destruct H as [Hall _]. split; intros E.
      * exists series_dirs. reflexivity.
      * congruence.
    + exfalso. destruct H as [dataset [mag_folder [Hin [_ [Hm He]]]]].
      destruct He as [[Hw _] | [call [cmd [cwd Hr]]]].
      * exact (Hlist dataset mag_folder Hin Hm Hw).
      * destruct (Hrun call cmd cwd) as [exit_code Hc]. congruence.
    + split; intros E.
      * congruence.
      * exists key. reflexivity.
  - intros dataset rest mag_folder Hd Hready Hm Hw. clear H. rewrite Hd.
    cbn [run_datasets]. rewrite runnable_ready in Hready.
    destruct (mag_series dataset) as [ n | ]; [ | discriminate ].
    cbn [has andb] in Hready. cbn [with_key].
    pose proof (run_mmdi3d_series_cases w walk_files (run_cmd 0) exe_mmdi3d
                  (manufacturer d) (top_dir d) dataset
                  (join inversion_3d_dir (str_of_int n))) as Hs.
    destruct (run_mmdi3d_series w walk_files (run_cmd 0) exe_mmdi3d
                (manufacturer d) (top_dir d) dataset
                (join inversion_3d_dir (str_of_int n)))
      as [ exit_code | e | key | | message ]; cbn [and_then];
      [ | | | contradiction .. ].
    + destruct Hs as [_ [mag' [files [cmd [Hm' [Hw' _]]]]]]. congruence.
    + destruct Hs as [_ [mag' [Hm' [[_ ->] | [files [cmd [Hw' _]]]]]]];
        [ reflexivity | congruence ].
    + congruence.
Qed.

(** X19, on examples: the scan with one GE dataset of series 5 gives the
    list of its one folder when the folders can be listed and the run
    ends with the exit code 0, and raises [StopIteration] when they
    cannot be listed. *)
Lemma run_mmdi3d_case_returns_iff_complete_witness :
  run_mmdi3d_case located_world (listed located_world) run_ok
    (lit "/bin/mmdi3d") (lit "/inv") one_dataset
  = Finished [lit "/inv/5"] /\
  run_mmdi3d_case located_world unlisted run_ok
    (lit "/bin/mmdi3d") (lit "/inv") one_dataset
  = Exception StopIteration.
Proof.
  split.
  - destruct (run_mmdi3d_case_returns_iff_complete located_world
                (listed located_world) run_ok (lit "/bin/mmdi3d")
                (lit "/inv") one_dataset) as [_ [_ [Hret _]]].
    destruct Hret as [Hfin _].
    + intros dataset mag_folder _ _. discriminate.
    + intros call cmd cwd. exists 0%Z. reflexivity.
    + destruct Hfin as [series_dirs E]; [ vm_compute; reflexivity | ].
      rewrite E. vm_compute in E. inversion E. reflexivity.
  - destruct (run_mmdi3d_case_returns_iff_complete located_world
                unlisted run_ok (lit "/bin/mmdi3d")
                (lit "/inv") one_dataset) as [_ [_ [_ Hstop]]].
    apply (Hstop {| mag := Some (lit "A"); mag_series := Some 5%Z;
                    phase := None; phase_series := None |} [] (lit "A"));
      reflexivity.
Defined.

(* ================================================================== *)
(** * The fat fraction images of a digest *)
(* ================================================================== *)

Section FatFractionFacts.

Variable w : world.
Variable read_header : str -> option rescale_tags.

Lemma rescale_slice_without_intercept (tags : rescale_tags)
    (slice : list (list Q)) :
  truthy (RescaleIntercept tags) = false ->
  truthy (RescaleSlope tags) = true ->
  rescale_slice tags slice = slice.
Proof.
  intros Hi Hs. unfold rescale_slice. rewrite Hi, Hs. reflexivity.
Qed.

Lemma rescale_loop_length (ffrac_paths : list str) :
  forall slices r,
    rescale_loop read_header ffrac_paths slices = Returned r ->
    length r = length slices.
Proof.
  induction ffrac_paths as [ | path rest IH ]; intros slices r H;
    cbn [rescale_loop] in H.
  - inversion H. reflexivity.
  - destruct (read_header path) as [ tags | ]; [ | discriminate ].
    destruct slices as [ | slice slices ]; [ discriminate | ].
    destruct (rescale_loop read_header rest slices) as [ r' | ] eqn:E;
      [ | discriminate ].
    cbn [bind] in H. inversion H. cbn [length]. rewrite (IH _ _ E).
    reflexivity.
Qed.

Lemma rescale_loop_without_intercept (ffrac_paths : list str) :
  (forall path tags,
     read_header path = Some tags ->
     truthy (RescaleIntercept tags) = false /\
     truthy (RescaleSlope tags) = true) ->
  forall slices r,
    rescale_loop read_header ffrac_paths slices = Returned r -> r = slices.
Proof.
  intros Htags.
  induction ffrac_paths as [ | path rest IH ]; intros slices r H;
    cbn [rescale_loop] in H.
  - inversion H. reflexivity.
  - destruct (read_header path) as [ tags | ] eqn:T; [ | discriminate ].
    destruct slices as [ | slice slices ]; [ discriminate | ].
    destruct (rescale_loop read_header rest slices) as [ r' | ] eqn:E;
      [ | discriminate ].
    cbn [bind] in H. inversion H.
    destruct (Htags _ _ T) as [Hi Hs].
    rewrite (rescale_slice_without_intercept _ _ Hi Hs), (IH _ _ E).
    reflexivity.
Qed.

(** What the steps of a call that returns have given, with the paths the
    images were read from. *)
Lemma roi_and_ffrac_steps_of_digest (digest_path : str)
    (roi_image ffrac_image : stack) :
  get_roi_and_ffrac_images_from_digest w read_header digest_path
  = Finished (roi_image, ffrac_image) ->
  exists roi_paths_dict ffrac_paths_dict roi log_1 stored log_2 slices,
    get_dcm_paths_from_digest w digest_path (lit "fw.roi.")
    = Finished roi_paths_dict /\
    get_dcm_paths_from_digest w digest_path (lit "fw.ffrac.")
    = Finished ffrac_paths_dict /\
    get_dcm_pixel_data w
      (map fst (pair_paths (lit "fw.roi.") (lit "fw.ffrac.")
                  roi_paths_dict ffrac_paths_dict))
    = Returned (roi, log_1) /\
    roi_image = as_mask roi /\
    get_dcm_pixel_data w
      (map snd (pair_paths (lit "fw.roi.") (lit "fw.ffrac.")
                  roi_paths_dict ffrac_paths_dict))
    = Returned (stored, log_2) /\
    rescale_loop read_header
      (map snd (pair_paths (lit "fw.roi.") (lit "fw.ffrac.")
                  roi_paths_dict ffrac_paths_dict))
      (st_images stored)
    = Returned slices /\
    upscale roi_image
      {| st_rows := st_rows stored; st_cols := st_cols stored;
         st_images := slices |} = Finished ffrac_image.
Proof.
  unfold get_roi_and_ffrac_images_from_digest.
  destruct (get_dcm_paths_from_digest w digest_path (lit "fw.roi."))
    as [ a | | | | ]; [ | discriminate .. ].
  cbn [and_then].
  destruct (get_dcm_paths_from_digest w digest_path (lit "fw.ffrac."))
    as [ b | | | | ]; [ | discriminate .. ].
  cbn [and_then].
  set (pairs := pair_paths (lit "fw.roi.") (lit "fw.ffrac.") a b).
  destruct (get_dcm_pixel_data w (map fst pairs)) as [ [roi lg1] | ] eqn:R;
    [ | discriminate ].
  cbn [lift and_then].
  destruct (get_dcm_pixel_data w (map snd pairs)) as [ [stored lg2] | ]
    eqn:E; [ | discriminate ].
  cbn [lift and_then fst].
  destruct (rescale_loop read_header (map snd pairs) (st_images stored))
    as [ slices | ] eqn:L; [ | discriminate ].
  cbn [lift and_then].
  destruct (upscale (as_mask roi) _) as [ up | | | | ] eqn:U;
    [ | discriminate .. ].
  cbn [and_then]. intros H. inversion H. subst.
  exists a, b, roi, lg1, stored, lg2, slices.
  repeat split; assumption.
Qed.

Lemma same_ratio (r0 r1 f0 f1 : nat) :
  f0 <> 0 -> f1 <> 0 ->
  r0 * f1 = r1 * f0 ->
  Qeq_bool (inject_Z (Z.of_nat r0) / inject_Z (Z.of_nat f0))
           (inject_Z (Z.of_nat r1) / inject_Z (Z.of_nat f1)) = true.
Proof.
  intros H0 H1 H. apply Qeq_bool_iff.
  destruct f0 as [ | f0 ]; [ contradiction | ].
  destruct f1 as [ | f1 ]; [ contradiction | ].
  unfold Qeq, Qdiv, Qmult, Qinv, inject_Z.
  cbn [Qnum Qden Z.of_nat].
  rewrite !Z.mul_1_r, !Pos.mul_1_l.
  apply (f_equal Z.of_nat) in H. rewrite !Nat2Z.inj_mul in H.
  cbn [Z.of_nat] in H. lia.
Qed.

End FatFractionFacts.

(** X20. When every header read has a [RescaleSlope] that is a true
    value and a [RescaleIntercept] that is none (absent, or 0.0), the
    fat fraction image [get_roi_and_ffrac_images_from_digest] returns
    holds the slices as [get_dcm_pixel_data] stored them, from the fat
    fraction paths the digest pairs with its ROI paths, upscaled or not:
    the slope is not applied. *)
Theorem ffrac_slope_without_intercept_not_applied (w : world)
    (read_header : str -> option rescale_tags) (digest_path : str)
    (roi_image ffrac_image : stack) :
  get_roi_and_ffrac_images_from_digest w read_header digest_path
  = Finished (roi_image, ffrac_image) ->
  (forall path tags,
     read_header path = Some tags ->
     truthy (RescaleIntercept tags) = false /\
     truthy (RescaleSlope tags) = true) ->
  exists ffrac_paths stored log,
    (exists roi_paths_dict ffrac_paths_dict,
       get_dcm_paths_from_digest w digest_path (lit "fw.roi.")
       = Finished roi_paths_dict /\
       get_dcm_paths_from_digest w digest_path (lit "fw.ffrac.")
       = Finished ffrac_paths_dict /\
       ffrac_paths
       = map snd (pair_paths (lit "fw.roi.") (lit "fw.ffrac.")
                    roi_paths_dict ffrac_paths_dict)) /\
    get_dcm_pixel_data w ffrac_paths = Returned (stored, log) /\
    (st_images ffrac_image = st_images stored \/
     exists zoom,
       st_images ffrac_image = map (zoom_slice zoom) (st_images stored)).
Proof.
  intros H Htags.
  destruct (roi_and_ffrac_steps_of_digest w read_header _ _ _ H)
    as [roi_paths_dict [ffrac_paths_dict [roi [lg1 [stored [lg2 [slices
         [Hrd [Hfd [_ [_ [Hstored [Hloop Hup]]]]]]]]]]]]].
  exists (map snd (pair_paths (lit "fw.roi.") (lit "fw.ffrac.")
                     roi_paths_dict ffrac_paths_dict)), stored, lg2.
  split.
  { exists roi_paths_dict, ffrac_paths_dict.
    split; [ exact Hrd | ]. split; [ exact Hfd | reflexivity ]. }
  split; [ exact Hstored | ].
  rewrite (rescale_loop_without_intercept read_header _ Htags
             _ _ Hloop) in Hup.
  unfold upscale in Hup. cbn [st_rows st_cols st_images] in Hup.
  repeat match type of Hup with
         | (if ?b then _ else _) = _ => destruct b
         end;
    try discriminate; inversion Hup; cbn [st_images]; auto.
  right. eexists. reflexivity.
Qed.

(** X20, witness: the stored value 50 of the fat fraction file of
    [fat_digest] comes back as 50, with the slope 2 in the header. *)
Lemma ffrac_slope_without_intercept_not_applied_witness :
  exists stored log,
    get_dcm_pixel_data fat_world [lit "/case/temp/ff1.dcm"]
    = Returned (stored, log) /\
    st_images stored = [[[50]]%Q] /\
    (st_images {| st_rows := 2; st_cols := 2;
                  st_images := [[[50; 50]; [50; 50]]%Q] |}
     = st_images stored \/
     exists zoom,
       st_images {| st_rows := 2; st_cols := 2;
                    st_images := [[[50; 50]; [50; 50]]%Q] |}
       = map (zoom_slice zoom) (st_images stored)).
Proof.
  destruct (ffrac_slope_without_intercept_not_applied fat_world
              slope_only_header (lit "/case/temp/x.alc2")
              {| st_rows := 2; st_cols := 2;
                 st_images := [[[0; 1]; [0; 1]]%Q] |}
              {| st_rows := 2; st_cols := 2;
                 st_images := [[[50; 50]; [50; 50]]%Q] |})
    as [ffrac_paths [stored [log [Hpaths [Hstored Himages]]]]].
  - vm_compute. reflexivity.
  - intros path tags H. inversion H. split; reflexivity.
  - destruct Hpaths as [roi_paths_dict [ffrac_paths_dict [Hrd [Hfd Hp]]]].
    vm_compute in Hrd. inversion Hrd. subst roi_paths_dict. clear Hrd.
    vm_compute in Hfd. inversion Hfd. subst ffrac_paths_dict. clear Hfd.
    assert (Hl : ffrac_paths = [lit "/case/temp/ff1.dcm"])
      by (rewrite Hp; vm_compute; reflexivity).
    subst ffrac_paths.
    assert (Hv : Returned ({| st_rows := 1; st_cols := 1;
                              st_images := [[[50]]%Q] |}, @nil str)
                 = Returned (stored, log)).
    { rewrite <- Hstored. vm_compute. reflexivity. }
    exists stored, log. split; [ exact Hstored | ].
    split; [ inversion Hv; reflexivity | exact Himages ].
Defined.

(** X21. When [get_roi_and_ffrac_images_from_digest] returns, the two
    images have the same number of slices. The fat fraction slices are
    those [get_dcm_pixel_data] stored from the fat fraction paths paired
    with the ROI paths of the digest, [stored], after the rescaling of
    the loop, [slices]; and when the ROI image has more rows than
    [stored], a whole number of times, with the same ratio for the
    columns, the fat fraction image returned has the rows and the
    columns of the ROI image, and its slices are [slices] with every
    pixel repeated along both axes by that ratio. *)
Theorem ffrac_upscaled_to_roi (w : world)
    (read_header : str -> option rescale_tags) (digest_path : str)
    (roi_image ffrac_image : stack) :
  get_roi_and_ffrac_images_from_digest w read_header digest_path
  = Finished (roi_image, ffrac_image) ->
  length (st_images ffrac_image) = length (st_images roi_image) /\
  exists roi_paths_dict ffrac_paths_dict stored log slices,
    get_dcm_paths_from_digest w digest_path (lit "fw.roi.")
    = Finished roi_paths_dict /\
    get_dcm_paths_from_digest w digest_path (lit "fw.ffrac.")
    = Finished ffrac_paths_dict /\
    get_dcm_pixel_data w
      (map snd (pair_paths (lit "fw.roi.") (lit "fw.ffrac.")
                  roi_paths_dict ffrac_paths_dict))
    = Returned (stored, log) /\
    rescale_loop read_header
      (map snd (pair_paths (lit "fw.roi.") (lit "fw.ffrac.")
                  roi_paths_dict ffrac_paths_dict))
      (st_images stored)
    = Returned slices /\
    (st_rows stored < st_rows roi_image ->
     st_rows roi_image mod st_rows stored = 0 ->
     st_rows roi_image * st_cols stored
     = st_cols roi_image * st_rows stored ->
     st_rows ffrac_image = st_rows roi_image /\
     st_cols ffrac_image = st_cols roi_image /\
     st_images ffrac_image
     = map (zoom_slice (st_rows roi_image / st_rows stored)) slices).
Proof.
  intros H.
  destruct (roi_and_ffrac_steps_of_digest w read_header _ _ _ H)
    as [roi_paths_dict [ffrac_paths_dict [roi [lg1 [stored [lg2 [slices
         [Hrd [Hfd [Hroi [-> [Hstored [Hloop Hup]]]]]]]]]]]]].
  pose proof (dcm_pixel_data_slices_aux w _ _ _ Hroi) as L1.
  pose proof (dcm_pixel_data_slices_aux w _ _ _ Hstored) as L2.
  pose proof (rescale_loop_length read_header _ _ _ Hloop) as L3.
  rewrite !length_map in L1, L2.
  unfold upscale in Hup. cbn [st_rows st_cols st_images as_mask] in Hup.
  split.
  - cbn [as_mask st_images]. rewrite !length_map.
    repeat match type of Hup with
           | (if ?b then _ else _) = _ => destruct b
           end;
      try discriminate; inversion Hup; cbn [st_images];
      rewrite ?length_map; congruence.
  - exists roi_paths_dict, ffrac_paths_dict, stored, lg2, slices.
    split; [ exact Hrd | ]. split; [ exact Hfd | ].
    split; [ exact Hstored | ]. split; [ exact Hloop | ].
    cbn [as_mask st_rows st_cols]. intros Hlt Hmod Hratio.
    apply Nat.ltb_lt in Hlt. rewrite Hlt in Hup.
    destruct (st_rows stored =? 0) eqn:F0; [ discriminate | ].
    apply Nat.eqb_neq in F0.
    rewrite Hmod in Hup. cbn [Nat.eqb] in Hup.
    destruct (st_cols stored =? 0) eqn:F1; [ discriminate | ].
    apply Nat.eqb_neq in F1.
    rewrite (same_ratio _ _ _ _ F0 F1 Hratio) in Hup.
    inversion Hup. cbn [st_rows st_cols st_images].
    apply Nat.Div0.div_exact in Hmod.
    split; [ symmetry; exact Hmod | ]. split; [ | reflexivity ].
    set (z := st_rows roi / st_rows stored) in *.
    rewrite Hmod in Hratio. nia.
Qed.

(** X21, witness: in the case of [fat_digest] the image stored from the
    fat fraction path is 1x1 and the ROI image is 2x2, and the fat
    fraction image comes back 2x2, its pixel repeated. *)
Lemma ffrac_upscaled_to_roi_witness :
  exists stored log,
    get_dcm_pixel_data fat_world [lit "/case/temp/ff1.dcm"]
    = Returned (stored, log) /\
    st_rows stored = 1 /\ st_cols stored = 1 /\
    get_roi_and_ffrac_images_from_digest fat_world slope_only_header
      (lit "/case/temp/x.alc2")
    = Finished
        ({| st_rows := 2; st_cols := 2;
            st_images := [[[0; 1]; [0; 1]]%Q] |},
         {| st_rows := 2; st_cols := 2;
            st_images := [[[50; 50]; [50; 50]]%Q] |}) /\
    st_images {| st_rows := 2; st_cols := 2;
                 st_images := [[[50; 50]; [50; 50]]%Q] |}
    = map (zoom_slice 2) (st_images stored).
Proof.
  assert (E : get_roi_and_ffrac_images_from_digest fat_world
                slope_only_header (lit "/case/temp/x.alc2")
              = Finished
                  ({| st_rows := 2; st_cols := 2;
                      st_images := [[[0; 1]; [0; 1]]%Q] |},
                   {| st_rows := 2; st_cols := 2;
                      st_images := [[[50; 50]; [50; 50]]%Q] |}))
    by (vm_compute; reflexivity).
  destruct (ffrac_upscaled_to_roi fat_world slope_only_header _ _ _ E)
    as [_ [roi_paths_dict [ffrac_paths_dict [stored [log [slices
         [Hrd [Hfd [Hstored [Hloop Hup]]]]]]]]]].
  vm_compute in Hrd. inversion Hrd. subst roi_paths_dict. clear Hrd.
  vm_compute in Hfd. inversion Hfd. subst ffrac_paths_dict. clear Hfd.
  assert (Hs : get_dcm_pixel_data fat_world [lit "/case/temp/ff1.dcm"]
               = Returned (stored, log)) by exact Hstored.
  assert (Hv : Returned ({| st_rows := 1; st_cols := 1;
                            st_images := [[[50]]%Q] |}, @nil str)
               = Returned (stored, log)).
  { rewrite <- Hs. vm_compute. reflexivity. }
  inversion Hv. subst stored log. clear Hv.
  assert (Hl : Returned [[[50]]%Q] = Returned slices).
  { rewrite <- Hloop. vm_compute. reflexivity. }
  inversion Hl. subst slices. clear Hl.
  exists {| st_rows := 1; st_cols := 1; st_images := [[[50]]%Q] |}, [].
  split; [ exact Hs | ]. split; [ reflexivity | ]. split; [ reflexivity | ].
  split; [ exact E | ].
  destruct Hup as [_ [_ Himages]];
    [ cbn; lia | reflexivity | reflexivity | exact Himages ].
Defined.

(* ================================================================== *)
(** * The two scanning methods, and the image stacks *)
(* ================================================================== *)

Section ProbeFacts.

Variable w : world.

Lemma probe_careful_uniform (dcm : dicom) (file_list : list str) :
  (forall path, In path file_list -> w_dicom w path = Some dcm) ->
  forall dcm_count last_dcm,
    fold_left
      (fun '(dcm_count, dcm) file_path =>
         match w_dicom w file_path with
         | None => (dcm_count, dcm)
         | Some dcm' => ((dcm_count + 1)%Z, Some dcm')
         end)
      file_list (dcm_count, last_dcm)
    = ((dcm_count + Z.of_nat (length file_list))%Z,
       match file_list with
       | [] => last_dcm
       | _ :: _ => Some dcm
       end).
Proof.
  induction file_list as [ | path rest IH ]; intros Hall dcm_count last_dcm.
  - cbn. rewrite Z.add_0_r. reflexivity.
  - cbn [fold_left]. rewrite (Hall path (or_introl eq_refl)).
    rewrite IH by (intros p Hp; apply Hall; right; exact Hp).
    f_equal; [ cbn [length]; lia | destruct rest; reflexivity ].
Qed.

Lemma scan_folder_same (st : data3d) (folder : str) (dcm : dicom) :
  (forall path,
     In path (dir_file_list w (join (top_dir st) folder) true) ->
     w_dicom w path = Some dcm) ->
  scan_folder w true st folder = scan_folder w false st folder.
Proof.
  intros Hall. unfold scan_folder, probe_folder.
  rewrite (probe_careful_uniform dcm _ Hall).
  destruct (dir_file_list w (join (top_dir st) folder) true)
    as [ | file_0 rest ] eqn:E; [ reflexivity | ].
  rewrite (Hall file_0 (or_introl eq_refl)). reflexivity.
Qed.

Lemma scan_folder_top_dir (rapid : bool) (st st' : data3d) (folder : str) :
  scan_folder w rapid st folder = Returned st' -> top_dir st' = top_dir st.
Proof.
  unfold scan_folder.
  destruct (probe_folder w rapid _) as [ [dcm_count [ dcm | ]] | ];
    try (intros H; inversion H; reflexivity).
  destruct (skip_folder dcm_count dcm);
    try (intros H; inversion H; reflexivity).
  destruct (SeriesDescription dcm);
    try (intros H; inversion H; reflexivity).
  destruct (Manufacturer dcm); try (intros H; inversion H; reflexivity).
  destruct (add_folder _ _ _ _ _ _); [ | discriminate ].
  cbn [bind]. intros H. inversion H. reflexivity.
Qed.

Lemma scan_folders_same (folders : list str) :
  forall st,
    (forall folder,
       In folder folders ->
       exists dcm,
         forall path,
           In path (dir_file_list w (join (top_dir st) folder) true) ->
           w_dicom w path = Some dcm) ->
    scan_folders w true st folders = scan_folders w false st folders.
Proof.
  induction folders as [ | folder folders IH ]; intros st Hall;
    [ reflexivity | ].
  cbn [scan_folders].
  destruct (Hall folder (or_introl eq_refl)) as [dcm Hdcm].
  rewrite (scan_folder_same st folder dcm Hdcm).
  destruct (scan_folder w false st folder) as [ st' | ] eqn:E;
    [ | reflexivity ].
  cbn [bind]. apply IH. intros f Hf.
  rewrite (scan_folder_top_dir _ _ _ _ E). apply Hall. right. exact Hf.
Qed.

(** An array of the shape of the slice is stored as it is. *)
Lemma broadcast_same (pixels : list (list Q)) :
  broadcast (image_shape pixels) pixels = Some pixels.
Proof.
  unfold broadcast. cbn [fst snd image_shape].
  rewrite !Nat.eqb_refl. reflexivity.
Qed.

(** What is stored has the shape of the slice. *)
Lemma broadcast_shape (shape : nat * nat) (pixels image : list (list Q)) :
  (fst shape = 0 -> snd shape = 0) ->
  broadcast shape pixels = Some image -> image_shape image = shape.
Proof.
  destruct shape as [rows cols]. unfold broadcast, image_shape.
  cbn [fst snd]. intros Hzero H.
  destruct ((length pixels =? rows) || (length pixels =? 1)) eqn:R;
    [ | discriminate ].
  destruct ((length (hd [] pixels) =? cols) || (length (hd [] pixels) =? 1))
    eqn:C; [ | discriminate ].
  cbn [andb] in H. inversion H. clear H H1.
  assert (Hw : length
                 (hd []
                    (if length (hd [] pixels) =? cols then pixels
                     else map (fun row => repeat (hd 0%Q row) cols) pixels))
               = cols
               \/ (pixels = [] /\ length (hd [] pixels) <> cols)).
  { destruct (length (hd [] pixels) =? cols) eqn:E.
    - left. apply Nat.eqb_eq. exact E.
    - destruct pixels as [ | row pixels' ]; [ right | left ].
      + split; [ reflexivity | ]. apply Nat.eqb_neq. exact E.
      + cbn [map hd]. apply repeat_length. }
  assert (Hl : length
                 (if length (hd [] pixels) =? cols then pixels
                  else map (fun row => repeat (hd 0%Q row) cols) pixels)
               = length pixels).
  { destruct (length (hd [] pixels) =? cols);
      [ reflexivity | apply length_map ]. }
  destruct (length pixels =? rows) eqn:E.
  - apply Nat.eqb_eq in E. rewrite Hl, E. f_equal.
    destruct Hw as [Hw | [-> Hne]]; [ exact Hw | ].
    cbn [length] in E. cbn [length hd] in Hne.
    rewrite Hzero in Hne by (symmetry; exact E). contradiction.
  - cbn [orb] in R. apply Nat.eqb_eq in R.
    rewrite repeat_length. f_equal.
    destruct rows as [ | rows ]; [ cbn; symmetry; apply Hzero; reflexivity | ].
    cbn [repeat hd].
    destruct Hw as [Hw | [-> _]]; [ exact Hw | discriminate ].
Qed.

Lemma read_more_shapes (shape : nat * nat) (paths : list str) :
  (fst shape = 0 -> snd shape = 0) ->
  forall images,
    read_more w shape paths = Returned images ->
    length images = length paths /\
    Forall (fun image => image_shape image = shape) images /\
    (forall i path,
       nth_error paths i = Some path ->
       exists pixels image,
         read_pixels w path = Returned pixels /\
         broadcast shape pixels = Some image /\
         nth_error images i = Some image).
Proof.
  intros Hzero.
  induction paths as [ | path rest IH ]; intros images H;
    cbn [read_more] in H.
  - inversion H. split; [ reflexivity | ]. split; [ constructor | ].
    intros i path Hi. destruct i; discriminate.
  - destruct (read_pixels w path) as [ pixels | ] eqn:R; [ | discriminate ].
    cbn [bind] in H.
    destruct (broadcast shape pixels) as [ image | ] eqn:B;
      [ | discriminate ].
    destruct (read_more w shape rest) as [ imgs | ] eqn:E;
      [ | discriminate ].
    cbn [bind] in H. inversion H.
    destruct (IH _ eq_refl) as [Hlen [Hall Hnth]].
    split; [ cbn [length]; rewrite Hlen; reflexivity | ].
    split.
    + constructor; [ | exact Hall ].
      apply (broadcast_shape shape pixels image Hzero B).
    + intros i p Hi. destruct i as [ | i ]; cbn [nth_error] in Hi |- *.
      * inversion Hi. subst p. exists pixels, image.
        repeat split; assumption.
      * apply Hnth. exact Hi.
Qed.

End ProbeFacts.

(** X22. When, in every folder under the scan root, all the files read
    as DICOM with the same tags, the rapid and the careful method of
    [find_mmdi3d_datasets] give the same result. *)
Theorem rapid_scan_agrees_on_uniform_folders (w : world) (top_dir : str) :
  (forall folder,
     In folder (dir_folder_list w top_dir) ->
     exists dcm,
       forall path,
         In path (dir_file_list w (join top_dir folder) true) ->
         w_dicom w path = Some dcm) ->
  find_mmdi3d_datasets w top_dir true = find_mmdi3d_datasets w top_dir false.
Proof.
  intros H. unfold find_mmdi3d_datasets. apply scan_folders_same. exact H.
Qed.

(** X22, witness: a folder of two files with the same tags. *)
Lemma rapid_scan_agrees_on_uniform_folders_witness :
  find_mmdi3d_datasets (ge_world 2) top true
  = find_mmdi3d_datasets (ge_world 2) top false.
Proof.
  apply (rapid_scan_agrees_on_uniform_folders (ge_world 2) top).
  intros folder [<- | []]. exists ge_series.
  intros path [<- | [<- | []]]; reflexivity.
Defined.

(** X23. When [read_images] returns, the array has one image per path,
    in the order of the paths; every image has the rows and columns of
    the array, those of the first image; and the image of a path is the
    pixel array of its file as numpy broadcasts it into a slice of the
    array: the pixel array itself when it has the rows and columns of
    the array. *)
Theorem read_images_uniform_stack (w : world) (paths : list str)
    (images : stack) :
  read_images w paths = Returned images ->
  length (st_images images) = length paths /\
  (forall image,
     In image (st_images images) ->
     image_shape image = (st_rows images, st_cols images)) /\
  (forall i path,
     nth_error paths i = Some path ->
     exists pixels image,
       read_pixels w path = Returned pixels /\
       broadcast (st_rows images, st_cols images) pixels = Some image /\
       nth_error (st_images images) i = Some image /\
       (image_shape pixels = (st_rows images, st_cols images) ->
        image = pixels)).
Proof.
  unfold read_images. destruct paths as [ | path rest ]; [ discriminate | ].
  destruct (read_pixels w path) as [ pixels | ] eqn:R; [ | discriminate ].
  cbn [bind].
  destruct (read_more w (image_shape pixels) rest) as [ imgs | ] eqn:E;
    [ | discriminate ].
  cbn [bind]. intros H. inversion H. cbn [st_images st_rows st_cols].
  change (fst (image_shape pixels), snd (image_shape pixels))
    with (image_shape pixels).
  assert (Hzero : fst (image_shape pixels) = 0 -> snd (image_shape pixels) = 0).
  { destruct pixels; [ reflexivity | discriminate ]. }
  destruct (read_more_shapes w _ _ Hzero _ E) as [Hlen [Hall Hnth]].
  split; [ cbn [length]; rewrite Hlen; reflexivity | ].
  split.
  - intros p [<- | Hp]; [ reflexivity | ].
    rewrite Forall_forall in Hall. exact (Hall p Hp).
  - intros i p Hi.
    assert (Hsame : forall px image,
              broadcast (image_shape pixels) px = Some image ->
              image_shape px = image_shape pixels -> image = px).
    { intros px image B S. rewrite <- S, broadcast_same in B.
      inversion B. reflexivity. }
    destruct i as [ | i ]; cbn [nth_error] in Hi |- *.
    + inversion Hi. subst p. exists pixels, pixels.
      split; [ exact R | ]. split; [ apply broadcast_same | ].
      split; reflexivity.
    + destruct (Hnth i p Hi) as [px [image [Hr [Hb Hn]]]].
      exists px, image. split; [ exact Hr | ]. split; [ exact Hb | ].
      split; [ exact Hn | ]. apply Hsame. exact Hb.
Qed.

(** X23, witness: the 1x2 image read after a 2x2 image is stored with
    its row repeated. *)
Lemma read_images_uniform_stack_witness :
  exists pixels image,
    read_pixels row_world (lit "b.dcm") = Returned pixels /\
    pixels = [[5; 6]]%Q /\
    nth_error [[[1; 2]; [3; 4]]%Q; [[5; 6]; [5; 6]]%Q] 1 = Some image /\
    broadcast (2, 2) pixels = Some image.
Proof.
  assert (E : read_images row_world [lit "a.dcm"; lit "b.dcm"]
              = Returned
                  {| st_rows := 2; st_cols := 2;
                     st_images := [[[1; 2]; [3; 4]]%Q;
                                   [[5; 6]; [5; 6]]%Q] |})
    by (vm_compute; reflexivity).
  destruct (read_images_uniform_stack row_world _ _ E) as [_ [_ Hnth]].
  destruct (Hnth 1 (lit "b.dcm") eq_refl)
    as [pixels [image [Hr [Hb [Hn _]]]]].
  exists pixels, image. split; [ exact Hr | ].
  split; [ | split; [ exact Hn | exact Hb ] ].
  vm_compute in Hr. inversion Hr. reflexivity.
Defined.

(* ================================================================== *)
(** * The series of a directory tree *)
(* ================================================================== *)

Section UidFacts.

Variable read_uid : str -> option (option str).

Lemma str_in_In (x : str) (l : list str) : str_in x l = true <-> In x l.
Proof.
  unfold str_in. rewrite existsb_exists. split.
  - intros [y [Hy E]]. apply str_eqb_eq in E. subst y. exact Hy.
  - intros H. exists x. split; [ exact H | apply str_eqb_refl ].
Qed.

Lemma NoDup_snoc (l : list str) (x : str) :
  NoDup l -> ~ In x l -> NoDup (l ++ [x]).
Proof.
  intros Hl Hx. induction Hl as [ | y l Hy Hl IH ]; cbn [app].
  - constructor; [ intros [] | constructor ].
  - constructor.
    + intros Hin. apply in_app_or in Hin as [Hin | [E | []]];
        [ contradiction | ].
      apply Hx. left. symmetry. exact E.
    + apply IH. intros Hin. apply Hx. right. exact Hin.
Qed.

Lemma uids_of_files_spec (dir : str) (files : list str) :
  forall acc uids,
    uids_of_files read_uid dir files acc = Returned uids ->
    NoDup acc ->
    NoDup uids /\
    forall u,
      In u uids <->
      In u acc \/
      (u <> [] /\
       exists file,
         In file files /\ endswith file (lit ".dcm") = true /\
         read_uid (join dir file) = Some (Some u)).
Proof.
  induction files as [ | file rest IH ]; intros acc uids H Hnd;
    cbn [uids_of_files] in H.
  - inversion H. subst. split; [ exact Hnd | ].
    intros u. split; [ auto | ].
    intros [Hu | [_ [file [[] _]]]]. exact Hu.
  - destruct (endswith file (lit ".dcm")) eqn:Ext.
    + destruct (read_uid (join dir file)) as [ tag | ] eqn:R;
        [ | discriminate ].
      set (series_uid := match tag with Some uid => uid | None => [] end)
        in *.
      destruct (negb (str_in series_uid acc)
                && negb (str_eqb series_uid [])) eqn:New.
      * apply andb_prop in New as [Hnew Hne].
        apply negb_true_iff in Hnew, Hne.
        assert (Hnotin : ~ In series_uid acc).
        { intros Hin. apply str_in_In in Hin. congruence. }
        assert (Hne' : series_uid <> []).
        { intros E. rewrite E in Hne. discriminate. }
        destruct (IH _ _ H (NoDup_snoc _ _ Hnd Hnotin)) as [Hu Hiff].
        split; [ exact Hu | ].
        intros u. rewrite Hiff, in_app_iff. split.
        -- intros [[Hin | [<- | []]] | [Hn [f [Hf Hr]]]].
           ++ left. exact Hin.
           ++ right. split; [ exact Hne' | ].
              exists file. split; [ left; reflexivity | ].
              split; [ exact Ext | ].
              rewrite R. unfold series_uid in *.
              destruct tag; [ reflexivity | contradiction ].
           ++ right. split; [ exact Hn | ].
              exists f. split; [ right; apply Hf | apply Hr ].
        -- intros [Hin | [Hn [f [[<- | Hf] [He Hr]]]]].
           ++ left. left. exact Hin.
           ++ left. right. left. rewrite R in Hr. inversion Hr. subst tag.
              reflexivity.
           ++ right. split; [ exact Hn | ].
              exists f. auto.
      * destruct (IH _ _ H Hnd) as [Hu Hiff].
        split; [ exact Hu | ].
        intros u. rewrite Hiff. split.
        -- intros [Hin | [Hn [f [Hf Hr]]]]; [ left; exact Hin | ].
           right. split; [ exact Hn | ].
           exists f. split; [ right; apply Hf | apply Hr ].
        -- intros [Hin | [Hn [f [[<- | Hf] [He Hr]]]]].
           ++ left. exact Hin.
           ++ left. rewrite R in Hr. inversion Hr. subst tag.
              cbn in series_uid. subst series_uid.
              apply andb_false_iff in New as [N | N];
                apply negb_false_iff in N.
              ** apply str_in_In. exact N.
              ** apply str_eqb_eq in N. contradiction.
           ++ right. split; [ exact Hn | ].
              exists f. auto.
    + destruct (IH _ _ H Hnd) as [Hu Hiff].
      split; [ exact Hu | ].
      intros u. rewrite Hiff. split.
      * intros [Hin | [Hn [f [Hf Hr]]]]; [ left; exact Hin | ].
        right. split; [ exact Hn | ].
        exists f. split; [ right; apply Hf | apply Hr ].
      * intros [Hin | [Hn [f [[<- | Hf] [He Hr]]]]].
        -- left. exact Hin.
        -- congruence.
        -- right. split; [ exact Hn | ].
           exists f. auto.
Qed.

Lemma uids_of_dirs_spec (dirs : list (str * list str)) :
  forall acc uids,
    uids_of_dirs read_uid dirs acc = Returned uids ->
    NoDup acc ->
    NoDup uids /\
    forall u,
      In u uids <->
      In u acc \/
      (u <> [] /\
       exists dir files file,
         In (dir, files) dirs /\ In file files /\
         endswith file (lit ".dcm") = true /\
         read_uid (join dir file) = Some (Some u)).
Proof.
  induction dirs as [ | [dir files] rest IH ]; intros acc uids H Hnd;
    cbn [uids_of_dirs] in H.
  - inversion H. subst. split; [ exact Hnd | ].
    intros u. split; [ auto | ].
    intros [Hu | [_ [d [fs [f [[] _]]]]]]. exact Hu.
  - destruct (uids_of_files read_uid dir files acc) as [ mid | ] eqn:F;
      [ | discriminate ].
    cbn [bind] in H.
    destruct (uids_of_files_spec _ _ _ _ F Hnd) as [Hmid Hiff1].
    destruct (IH _ _ H Hmid) as [Hu Hiff2].
    split; [ exact Hu | ].
    intros u. rewrite Hiff2, Hiff1. split.
    + intros [[Hin | [Hn [f [Hf Hr]]]] | [Hn [d [fs [f [Hd Hr]]]]]].
      * left. exact Hin.
      * right. split; [ exact Hn | ].
        exists dir, files, f. split; [ left; reflexivity | ].
        split; [ exact Hf | exact Hr ].
      * right. split; [ exact Hn | ].
        exists d, fs, f. split; [ right; exact Hd | exact Hr ].
    + intros [Hin | [Hn [d [fs [f [[E | Hd] Hr]]]]]].
      * left. left. exact Hin.
      * inversion E. subst d fs. left. right. split; [ exact Hn | ].
        exists f. exact Hr.
      * right. split; [ exact Hn | ].
        exists d, fs, f. split; [ exact Hd | exact Hr ].
Qed.

End UidFacts.

(** X24. When [get_series_uids] returns, its list holds each value
    once, and holds exactly the values that are not empty and are the
    [SeriesInstanceUID] of a file, in a directory of the walk, whose
    name ends in [.dcm]. *)
Theorem series_uids_distinct_and_complete
    (read_uid : str -> option (option str))
    (walk : str -> list (str * list str)) (top_dir : str)
    (series_uids : list str) :
  get_series_uids read_uid walk top_dir = Returned series_uids ->
  NoDup series_uids /\
  (forall series_uid,
     In series_uid series_uids <->
     series_uid <> [] /\
     exists dir files file,
       In (dir, files) (walk top_dir) /\ In file files /\
       endswith file (lit ".dcm") = true /\
       read_uid (join dir file) = Some (Some series_uid)).
Proof.
  intros H. unfold get_series_uids in H.
  destruct (uids_of_dirs_spec read_uid _ _ _ H (NoDup_nil _)) as [Hnd Hiff].
  split; [ exact Hnd | ].
  intros u. rewrite Hiff. split; [ | auto ].
  intros [[] | Hu]. exact Hu.
Qed.

(** X24, witness: the tree of the example has the one series [1.2]. *)
Lemma series_uids_distinct_and_complete_witness : NoDup [lit "1.2"].
Proof.
  refine (proj1 (series_uids_distinct_and_complete uid_of_file uid_walk
                   (lit "/top") [lit "1.2"] _)).
  vm_compute. reflexivity.
Defined.

(* ================================================================== *)
(** * The original version of a digest *)
(* ================================================================== *)

Section OrderFacts.

Lemma str_ltb_irrefl (a : str) : str_ltb a a = false.
Proof.
  induction a as [ | x a IH ]; [ reflexivity | ].
  cbn [str_ltb]. rewrite Nat.ltb_irrefl, Nat.eqb_refl. exact IH.
Qed.

Lemma str_ltb_asym (a : str) :
  forall b, str_ltb a b = true -> str_ltb b a = false.
Proof.
  induction a as [ | x a IH ]; intros [ | y b ] H; try reflexivity;
    try discriminate.
  cbn [str_ltb] in *.
  destruct (nat_of_ascii x <? nat_of_ascii y) eqn:L.
  - apply Nat.ltb_lt in L.
    replace (nat_of_ascii y <? nat_of_ascii x) with false
      by (symmetry; apply Nat.ltb_ge; lia).
    replace (nat_of_ascii y =? nat_of_ascii x) with false
      by (symmetry; apply Nat.eqb_neq; lia).
    reflexivity.
  - destruct (nat_of_ascii x =? nat_of_ascii y) eqn:E; [ | discriminate ].
    apply Nat.eqb_eq in E. rewrite E, Nat.ltb_irrefl, Nat.eqb_refl.
    apply IH, H.
Qed.

Lemma str_ltb_between (a : str) :
  forall b c,
    str_ltb c a = true -> str_ltb b a = true \/ str_ltb c b = true.
Proof.
  induction a as [ | x a IH ]; intros b c H.
  - destruct c; discriminate.
  - destruct b as [ | y b ]; [ left; reflexivity | ].
    destruct c as [ | z c ]; [ right; reflexivity | ].
    cbn [str_ltb] in *.
    destruct (nat_of_ascii z <? nat_of_ascii x) eqn:L1.
    + apply Nat.ltb_lt in L1.
      destruct (nat_of_ascii y <? nat_of_ascii x) eqn:L2; [ left; reflexivity | ].
      apply Nat.ltb_ge in L2. right.
      replace (nat_of_ascii z <? nat_of_ascii y) with true
        by (symmetry; apply Nat.ltb_lt; lia).
      reflexivity.
    + destruct (nat_of_ascii z =? nat_of_ascii x) eqn:E1; [ | discriminate ].
      apply Nat.eqb_eq in E1. rewrite E1.
      destruct (nat_of_ascii y <? nat_of_ascii x) eqn:L2;
        [ left; reflexivity | ].
      destruct (nat_of_ascii y =? nat_of_ascii x) eqn:E2.
      * apply Nat.eqb_eq in E2. rewrite E2, Nat.ltb_irrefl, Nat.eqb_refl.
        apply IH, H.
      * right. apply Nat.ltb_ge in L2. apply Nat.eqb_neq in E2.
        replace (nat_of_ascii x <? nat_of_ascii y) with true
          by (symmetry; apply Nat.ltb_lt; lia).
        reflexivity.
Qed.

Lemma In_insert_str (x y : str) (l : list str) :
  In y (insert_str x l) <-> y = x \/ In y l.
Proof.
  induction l as [ | h l IH ]; cbn [insert_str].
  - cbn. intuition.
  - destruct (str_ltb x h); cbn [In]; [ intuition | ].
    rewrite IH. intuition.
Qed.

Lemma In_sort_str (y : str) (l : list str) : In y (sort_str l) <-> In y l.
Proof.
  induction l as [ | x l IH ]; [ reflexivity | ].
  cbn [sort_str fold_right]. fold (sort_str l).
  rewrite In_insert_str, IH. cbn [In]. intuition.
Qed.

(** The first element of a sorted list is below no other one. *)
Lemma hd_sort_str_least (l : list str) :
  forall y, In y l -> str_ltb y (hd [] (sort_str l)) = false.
Proof.
  assert (H : forall y, In y (sort_str l) ->
                        str_ltb y (hd [] (sort_str l)) = false).
  { induction l as [ | x l IH ]; [ intros y [] | ].
    cbn [sort_str fold_right]. fold (sort_str l).
    destruct (sort_str l) as [ | h s ] eqn:E.
    - cbn. intros y [<- | []]. apply str_ltb_irrefl.
    - cbn [insert_str hd] in *. destruct (str_ltb x h) eqn:L; cbn [hd].
      + intros y [<- | Hy]; [ apply str_ltb_irrefl | ].
        destruct (str_ltb y x) eqn:F; [ | reflexivity ].
        destruct (str_ltb_between x h y F) as [G | G].
        * apply str_ltb_asym in L. congruence.
        * rewrite (IH y Hy) in G. discriminate.
      + intros y [<- | Hy]; [ apply str_ltb_irrefl | ].
        apply In_insert_str in Hy as [-> | Hy]; [ exact L | ].
        apply IH. right. exact Hy. }
  intros y Hy. apply H, In_sort_str, Hy.
Qed.

Lemma hd_sort_str_In (l : list str) :
  l <> [] -> In (hd [] (sort_str l)) l.
Proof.
  intros Hne. apply In_sort_str.
  destruct (sort_str l) as [ | h s ] eqn:E; [ | left; reflexivity ].
  destruct l as [ | x l ]; [ contradiction | ].
  assert (Hx : In x (sort_str (x :: l)))
    by (apply In_sort_str; left; reflexivity).
  rewrite E in Hx. destruct Hx.
Qed.

Lemma startswith_app_self (a b : str) : startswith (a ++ b) a = true.
Proof.
  induction a as [ | x a IH ]; [ reflexivity | ].
  cbn [app startswith]. rewrite Ascii.eqb_refl. exact IH.
Qed.

End OrderFacts.

(** X25. For a path that ends in [.alc2] (in any case) and whose
    directory can be listed, [get_original_alc2_digest] returns: the
    sibling named as the digest with [_01] added, when the directory has
    it; otherwise the sibling whose name starts with the name of the
    digest, is 16 characters longer, and is the least such name in the
    order of strings; and the digest path itself when there is no such
    sibling. *)
Theorem original_alc2_digest_choice (listdir : str -> option (list str))
    (digest_path : str) (names : list str) :
  endswith (lower digest_path) (lit ".alc2") = true ->
  listdir (dirname digest_path) = Some names ->
  exists original,
    get_original_alc2_digest listdir digest_path = Returned original /\
    ((In (basename digest_path ++ lit "_01") names /\
      original = join (dirname digest_path)
                   (basename digest_path ++ lit "_01")) \/
     (~ In (basename digest_path ++ lit "_01") names /\
      exists x,
        In x names /\ startswith x (basename digest_path) = true /\
        length x = length (basename digest_path) + 16 /\
        original = join (dirname digest_path) x /\
        forall y,
          In y names -> startswith y (basename digest_path) = true ->
          length y = length (basename digest_path) + 16 ->
          str_ltb y x = false) \/
     (~ In (basename digest_path ++ lit "_01") names /\
      (forall y,
         In y names -> startswith y (basename digest_path) = true ->
         length y <> length (basename digest_path) + 16) /\
      original = digest_path)).
Proof.
  intros Hext Hdir. unfold get_original_alc2_digest.
  rewrite Hext, Hdir. cbn [negb].
  set (file := basename digest_path).
  set (files := filter (fun x => startswith x file) names).
  destruct (str_in (file ++ lit "_01") files) eqn:S01.
  - eexists. split; [ reflexivity | left ].
    apply str_in_In, filter_In in S01 as [Hin _]. auto.
  - assert (Hno : ~ In (file ++ lit "_01") names).
    { intros Hin.
      assert (Hf : In (file ++ lit "_01") files)
        by (apply filter_In; split;
            [ exact Hin | apply startswith_app_self ]).
      apply str_in_In in Hf. congruence. }
    set (stamped := filter (fun x => length x =? length file + 16) files).
    destruct (0 <? length stamped) eqn:Hlen.
    + eexists. split; [ reflexivity | right; left ].
      split; [ exact Hno | ].
      assert (Hne : stamped <> []).
      { intros E. rewrite E in Hlen. discriminate. }
      pose proof (hd_sort_str_In stamped Hne) as Hhd.
      exists (hd [] (sort_str stamped)).
      unfold stamped at 2 in Hhd. apply filter_In in Hhd as [Hf Hl].
      apply filter_In in Hf as [Hn Hs]. apply Nat.eqb_eq in Hl.
      repeat split; try assumption.
      intros y Hy Hys Hyl. apply hd_sort_str_least.
      apply filter_In. split; [ | apply Nat.eqb_eq; exact Hyl ].
      apply filter_In. split; assumption.
    + eexists. split; [ reflexivity | right; right ].
      split; [ exact Hno | split; [ | reflexivity ] ].
      intros y Hy Hys Hyl.
      assert (Hin : In y stamped).
      { apply filter_In. split; [ | apply Nat.eqb_eq; exact Hyl ].
        apply filter_In. split; assumption. }
      destruct stamped; [ destruct Hin | discriminate ].
Qed.

(** X25, witness: of the versions of 2024 and of 2023, the one of 2023
    is returned. *)
Lemma original_alc2_digest_choice_witness :
  exists original,
    get_original_alc2_digest versions_listdir (lit "/case/temp/x.alc2")
    = Returned original /\
    ((In (lit "x.alc2_01") [lit "x.alc2"; lit "x.alc2_20240102_030405";
                            lit "x.alc2_20230102_030405"; lit "y.alc2"] /\
      original = lit "/case/temp/x.alc2_01") \/
     (~ In (lit "x.alc2_01") [lit "x.alc2"; lit "x.alc2_20240102_030405";
                              lit "x.alc2_20230102_030405"; lit "y.alc2"] /\
      exists x,
        In x [lit "x.alc2"; lit "x.alc2_20240102_030405";
              lit "x.alc2_20230102_030405"; lit "y.alc2"] /\
        startswith x (lit "x.alc2") = true /\
        length x = length (lit "x.alc2") + 16 /\
        original = join (lit "/case/temp") x /\
        forall y,
          In y [lit "x.alc2"; lit "x.alc2_20240102_030405";
                lit "x.alc2_20230102_030405"; lit "y.alc2"] ->
          startswith y (lit "x.alc2") = true ->
          length y = length (lit "x.alc2") + 16 ->
          str_ltb y x = false) \/
     (~ In (lit "x.alc2_01") [lit "x.alc2"; lit "x.alc2_20240102_030405";
                              lit "x.alc2_20230102_030405"; lit "y.alc2"] /\
      (forall y,
         In y [lit "x.alc2"; lit "x.alc2_20240102_030405";
               lit "x.alc2_20230102_030405"; lit "y.alc2"] ->
         startswith y (lit "x.alc2") = true ->
         length y <> length (lit "x.alc2") + 16) /\
      original = lit "/case/temp/x.alc2")).
Proof.
  apply (original_alc2_digest_choice versions_listdir
           (lit "/case/temp/x.alc2")); reflexivity.
Defined.
